(** * Verification of package [weave]: [Sail] and [Weaver]

    The Go package [weave] (file [weave/sail.go]) offers two primitives:

    - [Sail], a one-shot fan-out/join over a fixed list of tasks;
    - [Weaver], a pool of long-lived workers fed through a bounded queue.

    Both are concurrent programs.  They are embedded here as interleaving
    transition systems: a state records the shared objects (context,
    wait group, [sync.Once], channels, atomic flag) together with the
    program point of every goroutine, and a label names the goroutine that
    moves and, for a [select] with several ready cases, the case the Go
    runtime picks.  The step functions are executable, so every schedule
    can be replayed by evaluation. *)

From Stdlib Require Import ZArith Lia Bool.
From stdpp Require Import base list strings.

Open Scope string_scope.
Open Scope list_scope.

(** ** Go values shared by both primitives *)

(** An [error] value.  [Canceled] and [DeadlineExceeded] are the two values
    of package [context]; [errorString] is what [errors.New] and
    [fmt.Errorf] build.  The Go value [nil] is [None] in [option error]. *)
Inductive error : Type :=
  | Canceled
  | DeadlineExceeded
  | errorString (s : string).

(** [err.Error()] *)
Definition Error (e : error) : string :=
  match e with
  | Canceled => "context canceled"
  | DeadlineExceeded => "context deadline exceeded"
  | errorString s => s
  end.

(** How a call [t(ctx)] ends: it returns an error (possibly [nil]) or it
    panics.  The payload of a panic is kept as the text [%v] prints for it. *)
Inductive outcome : Type :=
  | Return (err : option error)
  | Panic (payload : string).

(** [type Task func(ctx context.Context) error].  The orchestrator only sees
    how the call ends; it may depend on what [ctx.Err()] is when the task
    comes to its end.  When the call ends is decided by the schedule. *)
Definition Task : Type := option error -> outcome.

(** [fmt.Errorf("panic recovered: %v", r)] *)
Definition panic_prefix : string := "panic recovered: ".

Definition panicError (payload : string) : error :=
  errorString (panic_prefix +:+ payload).

(** [errors.New("weave: concurrency must be greater than 0")] and the two
    errors of [Weaver.Add]. *)
Definition errConcurrency : error :=
  errorString "weave: concurrency must be greater than 0".
Definition errClosed : error := errorString "weave: weaver is closed".
Definition errCannotAdd : error :=
  errorString "weave: cannot add task to closed weaver".

(** [fmt.Errorf("weaver: wait panic: %v", r)] *)
Definition waitPanicError (payload : string) : error :=
  errorString ("weaver: wait panic: " +:+ payload).

(** Texts of the run-time panics of channel operations. *)
Definition sendOnClosed : string := "send on closed channel".
Definition closeOfClosed : string := "close of closed channel".

(** ** Buffered channels *)

Record chan (A : Type) : Type := mkChan {
  cap : nat;
  buf : list A;
  closed : bool
}.
Arguments mkChan {A} _ _ _.
Arguments cap {A} _.
Arguments buf {A} _.
Arguments closed {A} _.

(** An operation on a channel succeeds, is not ready yet, or panics. *)
Inductive attempt (A : Type) : Type :=
  | Done (a : A)
  | Blocks
  | Panics.
Arguments Done {A} _.
Arguments Blocks {A}.
Arguments Panics {A}.

(** [make(chan A, n)] *)
Definition make_chan {A : Type} (n : nat) : chan A := mkChan n [] false.

(** [c <- x] *)
Definition chan_send {A : Type} (c : chan A) (x : A) : attempt (chan A) :=
  if closed c then Panics
  else if (List.length (buf c) <? cap c)%nat then Done (mkChan (cap c) (buf c ++ [x]) false)
  else Blocks.

(** [v, ok := <-c]; [None] stands for the zero value with [ok = false]. *)
Definition chan_recv {A : Type} (c : chan A) : attempt (option A * chan A) :=
  match buf c with
  | x :: rest => Done (Some x, mkChan (cap c) rest (closed c))
  | [] => if closed c then Done (None, c) else Blocks
  end.

(** [close(c)] *)
Definition chan_close {A : Type} (c : chan A) : attempt (chan A) :=
  if closed c then Panics else Done (mkChan (cap c) (buf c) true).

(** ** The failure slot

    [errChan := make(chan error, 1)] guarded by a [sync.Once]. *)
Record slot : Type := mkSlot {
  once : bool;
  errChan : chan error
}.

Definition new_slot : slot := mkSlot false (make_chan 1).

(** What a call of [sendErr] does to the slot.  [Once.Do] marks the once as
    done also when the function it runs panics, so the slot is part of
    [SendPanics]. *)
Inductive sending : Type :=
  | SendOk (s : slot)
  | SendBlocks
  | SendPanics (s : slot).

(** [sendErr := func(err error) { once.Do(func() { errChan <- err }) }] *)
Definition sendErr (s : slot) (err : error) : sending :=
  if once s then SendOk s
  else match chan_send (errChan s) err with
       | Done c => SendOk (mkSlot true c)
       | Blocks => SendBlocks
       | Panics => SendPanics (mkSlot true (errChan s))
       end.

(** [sync.WaitGroup.Done]: the counter must not become negative. *)
Definition wg_done (n : nat) : attempt nat :=
  match n with
  | O => Panics
  | S m => Done m
  end.

(** The number of elements of a list that satisfy a test; used to count
    goroutines by program point. *)
Fixpoint count {A : Type} (f : A -> bool) (l : list A) : nat :=
  match l with
  | [] => 0
  | x :: r => Nat.b2n (f x) + count f r
  end.

(** ** [Sail] *)
Module Sail.

(** Program points of the calling goroutine: the [for] loop over the
    remaining tasks, the final [select], and the return. *)
Inductive main_pc : Type :=
  | MLoop (rest : list Task)
  | MSelect
  | MReturn (r : option error).

(** Program points of a task goroutine [go func(t Task) {...}(task)]: the
    task runs; then the deferred [wg.Done()] is due; then it is gone. *)
Inductive go_pc : Type :=
  | GRun (t : Task)
  | GDefer
  | GExit.

(** Program points of [go func() { wg.Wait(); close(errChan) }()]. *)
Inductive closer_pc : Type :=
  | CNone
  | CWait
  | CClose
  | CExit.

Record state : Type := mkState {
  ctx : option error;       (* ctx.Err() *)
  wg : nat;                 (* counter of the wait group *)
  slt : slot;               (* once, errChan *)
  main : main_pc;
  gos : list go_pc;
  closer : closer_pc;
  crashed : bool;           (* a panic left a goroutine *)
  log : list error;         (* history: arguments of the calls of sendErr *)
  panics : list string      (* history: payloads of the tasks' panics *)
}.

Definition set_ctx (c : option error) (s : state) : state :=
  mkState c (wg s) (slt s) (main s) (gos s) (closer s) (crashed s) (log s) (panics s).
Definition set_wg (n : nat) (s : state) : state :=
  mkState (ctx s) n (slt s) (main s) (gos s) (closer s) (crashed s) (log s) (panics s).
Definition set_slt (x : slot) (s : state) : state :=
  mkState (ctx s) (wg s) x (main s) (gos s) (closer s) (crashed s) (log s) (panics s).
Definition set_main (m : main_pc) (s : state) : state :=
  mkState (ctx s) (wg s) (slt s) m (gos s) (closer s) (crashed s) (log s) (panics s).
Definition set_gos (g : list go_pc) (s : state) : state :=
  mkState (ctx s) (wg s) (slt s) (main s) g (closer s) (crashed s) (log s) (panics s).
Definition set_closer (c : closer_pc) (s : state) : state :=
  mkState (ctx s) (wg s) (slt s) (main s) (gos s) c (crashed s) (log s) (panics s).
Definition crash (s : state) : state :=
  mkState (ctx s) (wg s) (slt s) (main s) (gos s) (closer s) true (log s) (panics s).
Definition add_log (es : list error) (s : state) : state :=
  mkState (ctx s) (wg s) (slt s) (main s) (gos s) (closer s) (crashed s) (log s ++ es) (panics s).
Definition add_panic (p : string) (s : state) : state :=
  mkState (ctx s) (wg s) (slt s) (main s) (gos s) (closer s) (crashed s) (log s) (panics s ++ [p]).

(** The state after [wg.Add(len(tasks))], [make(chan error, 1)] and
    [var once sync.Once]; [c] is [ctx.Err()] at the call. *)
Definition init (c : option error) (tasks : list Task) : state :=
  mkState c (List.length tasks) new_slot (MLoop tasks) [] CNone false [] [].

Inductive label : Type :=
  | Cancel (e : error)   (* the context is cancelled with error [e] *)
  | Dispatch             (* one iteration of the loop, or the [go] after it *)
  | SelectErr            (* the select takes [case err := <-errChan] *)
  | SelectDone           (* the select takes [case <-ctx.Done()] *)
  | Go (i : nat)         (* the goroutine of the [i]-th dispatched task *)
  | Closer.              (* the goroutine that closes errChan *)

(** The task of goroutine [i] comes to its end with outcome [o]. *)
Definition finish (i : nat) (o : outcome) (s : state) : option state :=
  match o with
  | Return None => Some (set_gos (<[i := GDefer]> (gos s)) s)
  | Return (Some e) =>
      match sendErr (slt s) e with
      | SendOk x =>
          Some (add_log [e] (set_slt x (set_gos (<[i := GDefer]> (gos s)) s)))
      | SendBlocks => None
      | SendPanics x =>
          (* the deferred recover catches the panic of the send and calls
             sendErr once more, which the once turns into nothing *)
          Some (add_log [e; panicError sendOnClosed]
                  (set_slt x (set_gos (<[i := GDefer]> (gos s)) s)))
      end
  | Panic p =>
      match sendErr (slt s) (panicError p) with
      | SendOk x =>
          Some (add_panic p (add_log [panicError p]
                  (set_slt x (set_gos (<[i := GDefer]> (gos s)) s))))
      | SendBlocks => None
      | SendPanics x =>
          (* a panic inside the deferred function is not recovered *)
          Some (crash (add_panic p (add_log [panicError p] (set_slt x s))))
      end
  end.

Definition step (l : label) (s : state) : option state :=
  if crashed s then None else
  match l with
  | Cancel e =>
      match ctx s with
      | None => Some (set_ctx (Some e) s)
      | Some _ => None
      end
  | Dispatch =>
      match main s with
      | MLoop (t :: rest) =>
          match ctx s with
          | Some _ =>
              (* if ctx.Err() != nil { wg.Done(); continue } *)
              match wg_done (wg s) with
              | Done n => Some (set_main (MLoop rest) (set_wg n s))
              | _ => Some (crash s)
              end
          | None =>
              Some (set_main (MLoop rest) (set_gos (gos s ++ [GRun t]) s))
          end
      | MLoop [] => Some (set_main MSelect (set_closer CWait s))
      | _ => None
      end
  | SelectErr =>
      match main s with
      | MSelect =>
          match chan_recv (errChan (slt s)) with
          | Done (v, c) =>
              Some (set_main (MReturn v) (set_slt (mkSlot (once (slt s)) c) s))
          | _ => None
          end
      | _ => None
      end
  | SelectDone =>
      match main s, ctx s with
      | MSelect, Some e => Some (set_main (MReturn (Some e)) s)
      | _, _ => None
      end
  | Go i =>
      match gos s !! i with
      | Some (GRun t) => finish i (t (ctx s)) s
      | Some GDefer =>
          match wg_done (wg s) with
          | Done n => Some (set_gos (<[i := GExit]> (gos s)) (set_wg n s))
          | _ => Some (crash s)
          end
      | _ => None
      end
  | Closer =>
      match closer s with
      | CWait => if (wg s =? 0)%nat then Some (set_closer CClose s) else None
      | CClose =>
          match chan_close (errChan (slt s)) with
          | Done c =>
              Some (set_closer CExit (set_slt (mkSlot (once (slt s)) c) s))
          | _ => Some (crash s)
          end
      | _ => None
      end
  end.

(** A schedule is a list of labels; [run] replays it. *)
Fixpoint run (ls : list label) (s : state) : option state :=
  match ls with
  | [] => Some s
  | l :: ls' =>
      match step l s with
      | Some s' => run ls' s'
      | None => None
      end
  end.

(** What [Sail] has returned, if it has. *)
Definition result (s : state) : option (option error) :=
  match main s with
  | MReturn r => Some r
  | _ => None
  end.

(** The number of tasks that were started. *)
Definition started (s : state) : nat := List.length (gos s).

Definition no_cancel (l : label) : bool :=
  match l with
  | Cancel _ => false
  | _ => true
  end.

End Sail.

(** ** [Weaver] *)
Module Weaver.

(** Program points of [func (w *Weaver) worker(ctx)]: the [select] of the
    loop; the call [w.execute(ctx, task)] before its test of [ctx.Err()];
    the task running inside [execute]; the deferred [w.wg.Done()]; gone. *)
Inductive worker_pc : Type :=
  | WSelect
  | WExecute (t : Task)
  | WRun (t : Task)
  | WDefer
  | WExit.

(** Program points of a call of [Add] or [Wait] by a user of the pool. *)
Inductive call_pc : Type :=
  | AddLoad (t : Task)          (* if w.isClosed.Load() *)
  | AddSend (t : Task)          (* w.taskQueue <- task *)
  | AddReturn (r : option error)
  | WaitLoad                    (* if w.isClosed.Load() *)
  | WaitCAS                     (* if !w.isClosed.CompareAndSwap(false, true) *)
  | WaitRecv                    (* <-w.errChan, on either losing path *)
  | WaitFinal                   (* return w.finalErr, on either losing path *)
  | WaitCloseQueue              (* close(w.taskQueue) *)
  | WaitWg                      (* w.wg.Wait() *)
  | WaitSelect                  (* select {case err := <-w.errChan; default} and
                                   the evaluation of [return w.finalErr] *)
  | WaitCancel (r : option error)    (* deferred: w.cancel() *)
  | WaitCloseErr (r : option error)  (* deferred: close(w.errChan) *)
  | WaitReturn (closer : bool) (r : option error).

Record state : Type := mkState {
  ctx : option error;        (* workerCtx.Err() *)
  wg : nat;
  slt : slot;                (* errOnce, errChan *)
  taskQueue : chan Task;
  isClosed : bool;
  finalErr : option error;
  workers : list worker_pc;
  calls : list call_pc;
  crashed : bool;            (* a panic left a goroutine or reached a caller *)
  log : list error;          (* history: arguments of the calls of sendErr *)
  panics : list string;      (* history: payloads of the tasks' panics *)
  begun : nat                (* history: how many task calls were begun *)
}.

Definition set_ctx (x : option error) (s : state) : state :=
  mkState x (wg s) (slt s) (taskQueue s) (isClosed s) (finalErr s)
          (workers s) (calls s) (crashed s) (log s) (panics s) (begun s).
Definition set_wg (x : nat) (s : state) : state :=
  mkState (ctx s) x (slt s) (taskQueue s) (isClosed s) (finalErr s)
          (workers s) (calls s) (crashed s) (log s) (panics s) (begun s).
Definition set_slt (x : slot) (s : state) : state :=
  mkState (ctx s) (wg s) x (taskQueue s) (isClosed s) (finalErr s)
          (workers s) (calls s) (crashed s) (log s) (panics s) (begun s).
Definition set_taskQueue (x : chan Task) (s : state) : state :=
  mkState (ctx s) (wg s) (slt s) x (isClosed s) (finalErr s)
          (workers s) (calls s) (crashed s) (log s) (panics s) (begun s).
Definition set_isClosed (x : bool) (s : state) : state :=
  mkState (ctx s) (wg s) (slt s) (taskQueue s) x (finalErr s)
          (workers s) (calls s) (crashed s) (log s) (panics s) (begun s).
Definition set_finalErr (x : option error) (s : state) : state :=
  mkState (ctx s) (wg s) (slt s) (taskQueue s) (isClosed s) x
          (workers s) (calls s) (crashed s) (log s) (panics s) (begun s).
Definition set_workers (x : list worker_pc) (s : state) : state :=
  mkState (ctx s) (wg s) (slt s) (taskQueue s) (isClosed s) (finalErr s)
          x (calls s) (crashed s) (log s) (panics s) (begun s).
Definition set_calls (x : list call_pc) (s : state) : state :=
  mkState (ctx s) (wg s) (slt s) (taskQueue s) (isClosed s) (finalErr s)
          (workers s) x (crashed s) (log s) (panics s) (begun s).
Definition crash (s : state) : state :=
  mkState (ctx s) (wg s) (slt s) (taskQueue s) (isClosed s) (finalErr s)
          (workers s) (calls s) true (log s) (panics s) (begun s).
Definition add_log (es : list error) (s : state) : state :=
  mkState (ctx s) (wg s) (slt s) (taskQueue s) (isClosed s) (finalErr s)
          (workers s) (calls s) (crashed s) (log s ++ es) (panics s) (begun s).
Definition add_panic (p : string) (s : state) : state :=
  mkState (ctx s) (wg s) (slt s) (taskQueue s) (isClosed s) (finalErr s)
          (workers s) (calls s) (crashed s) (log s) (panics s ++ [p]) (begun s).
Definition add_begun (s : state) : state :=
  mkState (ctx s) (wg s) (slt s) (taskQueue s) (isClosed s) (finalErr s)
          (workers s) (calls s) (crashed s) (log s) (panics s) (S (begun s)).

Definition set_worker (i : nat) (p : worker_pc) (s : state) : state :=
  set_workers (<[i := p]> (workers s)) s.
Definition set_call (j : nat) (p : call_pc) (s : state) : state :=
  set_calls (<[j := p]> (calls s)) s.

(** The pool that [NewWeaver] builds for a positive [concurrency]:
    [workerCtx] is a child of [ctx] (so it is cancelled when [ctx] is),
    both channels are made, [w.wg.Add(concurrency)] is done and the loop has
    started [concurrency] workers. *)
Definition pool (c : option error) (n : nat) : state :=
  mkState c n new_slot (make_chan n) false None
          (replicate n WSelect) [] false [] [] 0.

(** [func NewWeaver(ctx context.Context, concurrency int)], which returns a
    pool and an error; [c] is [ctx.Err()] at the call. *)
Definition NewWeaver (c : option error) (concurrency : Z)
  : option state * option error :=
  if (concurrency <=? 0)%Z then (None, Some errConcurrency)
  else (Some (pool c (Z.to_nat concurrency)), None).

(** The workers a call of [NewWeaver] has started when it returns. *)
Definition spawned (r : option state * option error) : nat :=
  match fst r with
  | Some w => List.length (workers w)
  | None => 0
  end.

(** [w.cancel()], the cancel function of [context.WithCancel]. *)
Definition cancel (s : state) : state :=
  match ctx s with
  | None => set_ctx (Some Canceled) s
  | Some _ => s
  end.

Inductive label : Type :=
  | Cancel (e : error)   (* the parent context is cancelled with error [e] *)
  | Pull (i : nat)       (* worker [i]: the select takes [<-w.taskQueue] *)
  | Quit (i : nat)       (* worker [i]: the select takes [<-ctx.Done()] *)
  | Work (i : nat)       (* worker [i]: its next step outside the select *)
  | CallAdd (t : Task)   (* a user calls [w.Add(t)] *)
  | CallWait             (* a user calls [w.Wait()] *)
  | Caller (j : nat).    (* the [j]-th call takes its next step *)

(** The end of [execute]: the task that worker [i] runs comes to its end
    with outcome [o], the error or the recovered panic goes to [w.sendErr],
    and the worker returns to its loop. *)
Definition finish (i : nat) (o : outcome) (s : state) : option state :=
  match o with
  | Return None => Some (set_worker i WSelect s)
  | Return (Some e) =>
      match sendErr (slt s) e with
      | SendOk x => Some (add_log [e] (set_slt x (set_worker i WSelect s)))
      | SendBlocks => None
      | SendPanics x =>
          (* recovered by the deferred function of execute, whose own
             sendErr finds the once done *)
          Some (add_log [e; panicError sendOnClosed]
                  (set_slt x (set_worker i WSelect s)))
      end
  | Panic p =>
      match sendErr (slt s) (panicError p) with
      | SendOk x =>
          Some (add_panic p (add_log [panicError p]
                  (set_slt x (set_worker i WSelect s))))
      | SendBlocks => None
      | SendPanics x =>
          Some (crash (add_panic p (add_log [panicError p] (set_slt x s))))
      end
  end.

(** [func (w *Weaver) execute(ctx context.Context, task Task)], run by
    worker [i] standing at program point [p]: the test of [ctx.Err()], which
    either returns to the loop or begins the call of the task; and the end of
    that call. *)
Definition execute (i : nat) (p : worker_pc) (s : state) : option state :=
  match p with
  | WExecute t =>
      (* if ctx.Err() != nil { return } *)
      match ctx s with
      | Some _ => Some (set_worker i WSelect s)
      | None => Some (add_begun (set_worker i (WRun t) s))
      end
  | WRun t => finish i (t (ctx s)) s
  | _ => None
  end.

(** The two cases of the select in the loop of a worker. *)
Inductive select_case : Type :=
  | FromQueue    (* case task, ok := <-w.taskQueue *)
  | FromDone.    (* case <-ctx.Done() *)

(** [func (w *Weaver) worker(ctx context.Context)], for worker [i] at its
    select, when the runtime takes case [k]. *)
Definition worker_select (k : select_case) (i : nat) (s : state) : option state :=
  match workers s !! i with
  | Some WSelect =>
      match k with
      | FromQueue =>
          match chan_recv (taskQueue s) with
          | Done (Some t, q) =>
              Some (set_worker i (WExecute t) (set_taskQueue q s))
          | Done (None, q) => (* if !ok { return } *)
              Some (set_worker i WDefer (set_taskQueue q s))
          | _ => None
          end
      | FromDone =>
          match ctx s with
          | Some _ => Some (set_worker i WDefer s)
          | None => None
          end
      end
  | _ => None
  end.

(** [func (w *Weaver) worker(ctx context.Context)], for worker [i] outside
    its select: inside [w.execute(ctx, task)], or at the deferred
    [w.wg.Done()]. *)
Definition worker (i : nat) (s : state) : option state :=
  match workers s !! i with
  | Some WDefer =>
      match wg_done (wg s) with
      | Done n => Some (set_worker i WExit (set_wg n s))
      | _ => Some (crash s)
      end
  | Some p => execute i p s
  | None => None
  end.

(** [func (w *Weaver) Add(task Task) (err error)], for call [j] at program
    point [p]. *)
Definition Add (j : nat) (p : call_pc) (s : state) : option state :=
  match p with
  | AddLoad t =>
      if isClosed s then Some (set_call j (AddReturn (Some errClosed)) s)
      else Some (set_call j (AddSend t) s)
  | AddSend t =>
      match chan_send (taskQueue s) t with
      | Done q => Some (set_call j (AddReturn None) (set_taskQueue q s))
      | Blocks => None
      | Panics => (* recovered by the deferred function of Add *)
          Some (set_call j (AddReturn (Some errCannotAdd)) s)
      end
  | _ => None
  end.

(** [func (w *Weaver) Wait() error], for call [j] at program point [p]. *)
Definition Wait (j : nat) (p : call_pc) (s : state) : option state :=
  match p with
  | WaitLoad =>
      if isClosed s then Some (set_call j WaitRecv s)
      else Some (set_call j WaitCAS s)
  | WaitCAS =>
      if isClosed s then Some (set_call j WaitRecv s)
      else Some (set_call j WaitCloseQueue (set_isClosed true s))
  | WaitRecv =>
      match chan_recv (errChan (slt s)) with
      | Done (_, c) =>
          Some (set_call j WaitFinal (set_slt (mkSlot (once (slt s)) c) s))
      | _ => None
      end
  | WaitFinal => Some (set_call j (WaitReturn false (finalErr s)) s)
  | WaitCloseQueue =>
      match chan_close (taskQueue s) with
      | Done q => Some (set_call j WaitWg (set_taskQueue q s))
      | _ =>
          (* the deferred function: w.cancel(), w.finalErr = ...,
             close(w.errChan), panic(r) *)
          let s1 := set_finalErr (Some (waitPanicError closeOfClosed)) (cancel s) in
          match chan_close (errChan (slt s1)) with
          | Done c => Some (crash (set_slt (mkSlot (once (slt s1)) c) s1))
          | _ => Some (crash s1)
          end
      end
  | WaitWg =>
      if (wg s =? 0)%nat then Some (set_call j WaitSelect s) else None
  | WaitSelect =>
      match chan_recv (errChan (slt s)) with
      | Done (v, c) =>
          Some (set_call j (WaitCancel v)
                  (set_finalErr v (set_slt (mkSlot (once (slt s)) c) s)))
      | _ => Some (set_call j (WaitCancel (finalErr s)) s)
      end
  | WaitCancel r => Some (set_call j (WaitCloseErr r) (cancel s))
  | WaitCloseErr r =>
      match chan_close (errChan (slt s)) with
      | Done c =>
          Some (set_call j (WaitReturn true r)
                  (set_slt (mkSlot (once (slt s)) c) s))
      | _ => Some (crash s)
      end
  | _ => None
  end.

(** The next step of call [j], inside [Add] or inside [Wait]. *)
Definition caller (j : nat) (s : state) : option state :=
  match calls s !! j with
  | Some (AddLoad t) => Add j (AddLoad t) s
  | Some (AddSend t) => Add j (AddSend t) s
  | Some p => Wait j p s
  | None => None
  end.

Definition step (l : label) (s : state) : option state :=
  if crashed s then None else
  match l with
  | Cancel e =>
      match ctx s with
      | None => Some (set_ctx (Some e) s)
      | Some _ => None
      end
  | Pull i => worker_select FromQueue i s
  | Quit i => worker_select FromDone i s
  | Work i => worker i s
  | CallAdd t => Some (set_calls (calls s ++ [AddLoad t]) s)
  | CallWait => Some (set_calls (calls s ++ [WaitLoad]) s)
  | Caller j => caller j s
  end.

Fixpoint run (ls : list label) (s : state) : option state :=
  match ls with
  | [] => Some s
  | l :: ls' =>
      match step l s with
      | Some s' => run ls' s'
      | None => None
      end
  end.

Definition is_running (p : worker_pc) : bool :=
  match p with
  | WRun _ => true
  | _ => false
  end.

(** The number of tasks in execution. *)
Definition running (s : state) : nat := count is_running (workers s).

End Weaver.

(** ** Invariants of [Sail] *)

(** The history of [sendErr] and the slot agree: nothing was sent and the
    slot is untouched, or the once is done and the channel holds the first
    error sent unless it was already taken out. *)
Definition slot_ok (x : slot) (lg : list error) : Prop :=
  cap (errChan x) = 1 /\
  match lg with
  | [] => once x = false /\ buf (errChan x) = []
  | e :: _ => once x = true /\ (buf (errChan x) = [e] \/ buf (errChan x) = [])
  end.

Definition sail_live (g : Sail.go_pc) : bool :=
  match g with
  | Sail.GExit => false
  | _ => true
  end.

Definition sail_pending (m : Sail.main_pc) : nat :=
  match m with
  | Sail.MLoop rest => List.length rest
  | _ => 0
  end.

Definition sail_in_loop (m : Sail.main_pc) : bool :=
  match m with
  | Sail.MLoop _ => true
  | _ => false
  end.

Definition sail_closer_none (c : Sail.closer_pc) : bool :=
  match c with
  | Sail.CNone => true
  | _ => false
  end.

Definition sail_closer_waited (c : Sail.closer_pc) : bool :=
  match c with
  | Sail.CClose | Sail.CExit => true
  | _ => false
  end.

Definition sail_closer_exit (c : Sail.closer_pc) : bool :=
  match c with
  | Sail.CExit => true
  | _ => false
  end.

Record sail_inv (s : Sail.state) : Prop := mkSailInv {
  si_crashed : Sail.crashed s = false;
  si_wg : Sail.wg s = sail_pending (Sail.main s) + count sail_live (Sail.gos s);
  si_loop : sail_in_loop (Sail.main s) = sail_closer_none (Sail.closer s);
  si_waited : sail_closer_waited (Sail.closer s) = true -> Sail.wg s = 0;
  si_closed : closed (errChan (Sail.slt s)) = sail_closer_exit (Sail.closer s);
  si_slot : slot_ok (Sail.slt s) (Sail.log s);
  si_taken : forall e l, Sail.log s = e :: l ->
             buf (errChan (Sail.slt s)) = [] -> Sail.main s = Sail.MReturn (Some e);
  si_result : forall r, Sail.main s = Sail.MReturn r ->
              (r = None /\ Sail.log s = [] /\ Sail.wg s = 0) \/
              (r <> None /\ (r = head (Sail.log s) \/ r = Sail.ctx s));
  si_panics : forall p, p ∈ Sail.panics s -> panicError p ∈ Sail.log s
}.

(** ** Invariants of [Weaver] *)

Definition weaver_live (p : Weaver.worker_pc) : bool :=
  match p with
  | Weaver.WExit => false
  | _ => true
  end.

(** The call of [Wait] that won the compare-and-swap, at any of its later
    program points. *)
Definition winner (c : Weaver.call_pc) : bool :=
  match c with
  | Weaver.WaitCloseQueue | Weaver.WaitWg | Weaver.WaitSelect
  | Weaver.WaitCancel _ | Weaver.WaitCloseErr _ | Weaver.WaitReturn true _ => true
  | _ => false
  end.

Definition queue_closed_at (c : Weaver.call_pc) : bool :=
  match c with
  | Weaver.WaitCloseQueue => false
  | _ => true
  end.

Definition waited_at (c : Weaver.call_pc) : bool :=
  match c with
  | Weaver.WaitSelect | Weaver.WaitCancel _ | Weaver.WaitCloseErr _
  | Weaver.WaitReturn _ _ => true
  | _ => false
  end.

Definition err_closed_at (c : Weaver.call_pc) : bool :=
  match c with
  | Weaver.WaitReturn _ _ => true
  | _ => false
  end.

(** The value a call of [Wait] holds for its return. *)
Definition call_value (c : Weaver.call_pc) : option (option error) :=
  match c with
  | Weaver.WaitCancel r | Weaver.WaitCloseErr r | Weaver.WaitReturn _ r => Some r
  | _ => None
  end.

Record weaver_inv (s : Weaver.state) : Prop := mkWeaverInv {
  wi_crashed : Weaver.crashed s = false;
  wi_wg : Weaver.wg s = count weaver_live (Weaver.workers s);
  wi_win : count winner (Weaver.calls s) = Nat.b2n (Weaver.isClosed s);
  wi_phase : forall j c, Weaver.calls s !! j = Some c -> winner c = true ->
             closed (Weaver.taskQueue s) = queue_closed_at c /\
             closed (errChan (Weaver.slt s)) = err_closed_at c /\
             (waited_at c = true -> Weaver.wg s = 0);
  wi_open : Weaver.isClosed s = false ->
            closed (Weaver.taskQueue s) = false /\
            closed (errChan (Weaver.slt s)) = false;
  wi_errclosed : closed (errChan (Weaver.slt s)) = true -> Weaver.wg s = 0;
  wi_slot : slot_ok (Weaver.slt s) (Weaver.log s);
  wi_final : Weaver.finalErr s = None \/ Weaver.finalErr s = head (Weaver.log s);
  wi_values : forall j c r, Weaver.calls s !! j = Some c -> call_value c = Some r ->
              r = None \/ r = head (Weaver.log s);
  wi_panics : forall p, p ∈ Weaver.panics s -> panicError p ∈ Weaver.log s
}.

(** Nothing will be put into [finalErr] any more: [errChan] is closed, or
    the one error it ever held has been taken out. *)
Definition frozen (s : Weaver.state) : Prop :=
  closed (errChan (Weaver.slt s)) = true \/
  (once (Weaver.slt s) = true /\ buf (errChan (Weaver.slt s)) = []).

(** A losing call of [Wait] that is past its receive from [errChan]. *)
Definition loser_read (c : Weaver.call_pc) : bool :=
  match c with
  | Weaver.WaitFinal | Weaver.WaitReturn false _ => true
  | _ => false
  end.

Record weaver_same (s : Weaver.state) : Prop := mkWeaverSame {
  ws_values : forall j c r, Weaver.calls s !! j = Some c ->
              call_value c = Some r -> r = Weaver.finalErr s;
  ws_frozen : forall j c, Weaver.calls s !! j = Some c ->
              loser_read c = true -> frozen s
}.

(** ** Tasks and schedules of the test suite *)

Definition taskOK : Task := fun _ => Return None.
Definition taskFail (e : error) : Task := fun _ => Return (Some e).
Definition taskPanic (p : string) : Task := fun _ => Panic p.
Definition expectedErr : error := errorString "task failed".

(** [Sail(ctx, taskOK, taskFail, taskOK)]: the three tasks are dispatched,
    the closing goroutine is started, and [taskFail] returns its error. *)
Definition sail_failure_recorded : list Sail.label :=
  [Sail.Dispatch; Sail.Dispatch; Sail.Dispatch; Sail.Dispatch; Sail.Go 1].

(** [cancel(); Sail(ctx, task, task)]: both tasks are skipped, the closing
    goroutine runs to its end, and only then the select is evaluated. *)
Definition sail_cancelled_before : list Sail.label :=
  [Sail.Dispatch; Sail.Dispatch; Sail.Dispatch; Sail.Closer; Sail.Closer;
   Sail.SelectErr].

(** A pool of two workers; [w.Add(taskFail)] is called, worker 0 runs the
    task, which fails. *)
Definition weaver_failure_recorded : list Weaver.label :=
  [Weaver.CallAdd (taskFail expectedErr); Weaver.Caller 0; Weaver.Caller 0;
   Weaver.Pull 0; Weaver.Work 0; Weaver.Work 0].

(** Two goroutines call [w.Wait()].  Call 1 wins the compare-and-swap; call 2
    then finds the flag set, receives from [errChan] and returns
    [w.finalErr]; after that call 1 closes the queue, the workers leave, and
    call 1 finishes. *)
Definition weaver_two_waits : list Weaver.label :=
  [Weaver.CallWait; Weaver.CallWait;
   Weaver.Caller 1; Weaver.Caller 1;
   Weaver.Caller 2; Weaver.Caller 2; Weaver.Caller 2;
   Weaver.Caller 1; Weaver.Pull 0; Weaver.Pull 1; Weaver.Work 0; Weaver.Work 1;
   Weaver.Caller 1; Weaver.Caller 1; Weaver.Caller 1; Weaver.Caller 1].

(** A pool of one worker with one task in its queue, then cancellation. *)
Definition weaver_queued_then_cancelled : list Weaver.label :=
  [Weaver.CallAdd taskOK; Weaver.Caller 0; Weaver.Caller 0;
   Weaver.Cancel Canceled].


(** The one schedule of [Sail] without tasks and without cancellation. *)
Definition sail_empty_schedule : list Sail.label :=
  [Sail.Dispatch; Sail.Closer; Sail.Closer; Sail.SelectErr].

(** The state a schedule leads to (the state itself when the schedule cannot
    be replayed). *)
Definition sail_after (ls : list Sail.label) (s : Sail.state) : Sail.state :=
  match Sail.run ls s with
  | Some s' => s'
  | None => s
  end.

Definition weaver_after (ls : list Weaver.label) (s : Weaver.state) : Weaver.state :=
  match Weaver.run ls s with
  | Some s' => s'
  | None => s
  end.

(** [w.Wait()] is called and wins the compare-and-swap. *)
Definition weaver_drain_begun : list Weaver.label :=
  [Weaver.CallWait; Weaver.Caller 0; Weaver.Caller 0].

(** [w.Add(taskPanic)] is called and worker 0 has begun the task. *)
Definition weaver_panic_running : list Weaver.label :=
  [Weaver.CallAdd (taskPanic "worker panic"); Weaver.Caller 0; Weaver.Caller 0;
   Weaver.Pull 0; Weaver.Work 0].

(** ** Weights and further invariants *)

(** The sum of the weights of the elements of a list. *)
Fixpoint total {A : Type} (w : A -> nat) (l : list A) : nat :=
  match l with
  | [] => 0
  | x :: r => w x + total w r
  end.

(** The steps a goroutine of [Sail] still has to take. *)
Definition sail_go_weight (g : Sail.go_pc) : nat :=
  match g with
  | Sail.GRun _ => 2
  | Sail.GDefer => 1
  | Sail.GExit => 0
  end.

Definition sail_main_weight (m : Sail.main_pc) : nat :=
  match m with
  | Sail.MLoop rest => 3 * List.length rest + 2
  | Sail.MSelect => 1
  | Sail.MReturn _ => 0
  end.

Definition sail_closer_weight (c : Sail.closer_pc) : nat :=
  match c with
  | Sail.CNone | Sail.CWait => 2
  | Sail.CClose => 1
  | Sail.CExit => 0
  end.

Definition sail_weight (s : Sail.state) : nat :=
  sail_main_weight (Sail.main s) + total sail_go_weight (Sail.gos s) +
  sail_closer_weight (Sail.closer s).

(** How a run of [Sail] relates to the task list it was called with: every
    task is dispatched at most once, in a run without cancellation exactly
    once; only tasks of the list run; and [nil] is returned only from the
    closed channel. *)
Record sail_more (tasks : list Task) (s : Sail.state) : Prop := mkSailMore {
  sm_count : Sail.started s + sail_pending (Sail.main s) <= List.length tasks;
  sm_exact : Sail.ctx s = None ->
             Sail.started s + sail_pending (Sail.main s) = List.length tasks;
  sm_rest : forall rest t, Sail.main s = Sail.MLoop rest -> t ∈ rest -> t ∈ tasks;
  sm_from : forall i t, Sail.gos s !! i = Some (Sail.GRun t) -> t ∈ tasks;
  sm_nil : Sail.main s = Sail.MReturn None -> closed (errChan (Sail.slt s)) = true
}.

(** A call of [Add] that has returned [nil]: its task was put into the queue. *)
Definition is_accepted (c : Weaver.call_pc) : bool :=
  match c with
  | Weaver.AddReturn None => true
  | _ => false
  end.

(** A worker that has received a task and stands before the test in
    [execute]. *)
Definition is_handed (p : Weaver.worker_pc) : bool :=
  match p with
  | Weaver.WExecute _ => true
  | _ => false
  end.


(** The closing call of [Wait] after its deferred [w.cancel()]. *)
Definition after_cancel (c : Weaver.call_pc) : bool :=
  match c with
  | Weaver.WaitCloseErr _ | Weaver.WaitReturn true _ => true
  | _ => false
  end.

(** A call of [Wait] on one of the two losing paths. *)
Definition is_loser (c : Weaver.call_pc) : bool :=
  match c with
  | Weaver.WaitRecv | Weaver.WaitFinal | Weaver.WaitReturn false _ => true
  | _ => false
  end.

(** Facts about the queue, the accepted tasks and the context that hold along
    every schedule of a pool of [n] workers. *)
Record weaver_more (n : nat) (s : Weaver.state) : Prop := mkWeaverMore {
  wm_cap : cap (Weaver.taskQueue s) = n;
  wm_len : List.length (buf (Weaver.taskQueue s)) <= n;
  wm_ctx : forall j c, Weaver.calls s !! j = Some c -> after_cancel c = true ->
           Weaver.ctx s <> None;
  wm_loser : forall j c, Weaver.calls s !! j = Some c -> is_loser c = true ->
             Weaver.isClosed s = true;
  wm_le : List.length (buf (Weaver.taskQueue s)) +
          count is_handed (Weaver.workers s) + Weaver.begun s
          <= count is_accepted (Weaver.calls s)
}.



(** A call of [Wait] that has not returned yet. *)
Definition wait_pending (c : Weaver.call_pc) : bool :=
  match c with
  | Weaver.WaitLoad | Weaver.WaitCAS | Weaver.WaitRecv | Weaver.WaitFinal
  | Weaver.WaitCloseQueue | Weaver.WaitWg | Weaver.WaitSelect
  | Weaver.WaitCancel _ | Weaver.WaitCloseErr _ => true
  | _ => false
  end.

(** The schedules in which the calls of [Wait] do not overlap: a new call of
    [Wait] is made only when every earlier one has returned. *)
Fixpoint one_wait_at_a_time (ls : list Weaver.label) (s : Weaver.state) : bool :=
  match ls with
  | [] => true
  | l :: ls' =>
      match l with
      | Weaver.CallWait => (count wait_pending (Weaver.calls s) =? 0)%nat
      | _ => true
      end &&
      match Weaver.step l s with
      | Some s' => one_wait_at_a_time ls' s'
      | None => true
      end
  end.

(** The closing call of [Wait] after its [select] on [errChan]. *)
Definition past_select (c : Weaver.call_pc) : bool :=
  match c with
  | Weaver.WaitCancel _ | Weaver.WaitCloseErr _ | Weaver.WaitReturn true _ => true
  | _ => false
  end.

(** What holds along the schedules in which the calls of [Wait] do not
    overlap. *)
Record weaver_seq (s : Weaver.state) : Prop := mkWeaverSeq {
  sq_one : count wait_pending (Weaver.calls s) <= 1;
  sq_loser : forall j c, Weaver.calls s !! j = Some c -> is_loser c = true ->
             closed (errChan (Weaver.slt s)) = true;
  sq_pre : count past_select (Weaver.calls s) = 0 ->
           Weaver.finalErr s = None /\
           (forall e l, Weaver.log s = e :: l ->
                        buf (errChan (Weaver.slt s)) = [e]);
  sq_post : forall j c, Weaver.calls s !! j = Some c -> past_select c = true ->
            Weaver.finalErr s = head (Weaver.log s);
  sq_val : forall j c r, Weaver.calls s !! j = Some c -> call_value c = Some r ->
           r = head (Weaver.log s)
}.

(** The steps of the pool itself: of its workers and of the calls that were
    made; no cancellation of the parent context and no new call. *)
Definition pool_step (l : Weaver.label) : bool :=
  match l with
  | Weaver.Pull _ | Weaver.Quit _ | Weaver.Work _ | Weaver.Caller _ => true
  | _ => false
  end.

(** The steps a worker still has to take once the queue is closed, not
    counting the tasks that are still in the queue. *)
Definition worker_weight (p : Weaver.worker_pc) : nat :=
  match p with
  | Weaver.WExecute _ => 4
  | Weaver.WRun _ => 3
  | Weaver.WSelect => 2
  | Weaver.WDefer => 1
  | Weaver.WExit => 0
  end.

(** The steps a call of [Wait] still has to take. *)
Definition wait_weight (c : Weaver.call_pc) : nat :=
  match c with
  | Weaver.WaitLoad => 7
  | Weaver.WaitCAS => 6
  | Weaver.WaitCloseQueue => 5
  | Weaver.WaitWg => 4
  | Weaver.WaitSelect => 3
  | Weaver.WaitCancel _ => 2
  | Weaver.WaitCloseErr _ => 1
  | Weaver.WaitRecv => 2
  | Weaver.WaitFinal => 1
  | _ => 0
  end.

Definition weaver_weight (s : Weaver.state) : nat :=
  total wait_weight (Weaver.calls s) +
  total worker_weight (Weaver.workers s) +
  3 * List.length (buf (Weaver.taskQueue s)).

(** A call of [Wait], at any of its program points. *)
Definition is_wait (c : Weaver.call_pc) : bool :=
  match c with
  | Weaver.AddLoad _ | Weaver.AddSend _ | Weaver.AddReturn _ => false
  | _ => true
  end.

(** A task that returns [nil] whatever the context is. *)
Definition task_succeeds (t : Task) : Prop := forall c, t c = Return None.

(** The task a call of [Add] carries, and the task a worker holds. *)
Definition call_task (c : Weaver.call_pc) : option Task :=
  match c with
  | Weaver.AddLoad t | Weaver.AddSend t => Some t
  | _ => None
  end.

Definition worker_task (p : Weaver.worker_pc) : option Task :=
  match p with
  | Weaver.WExecute t | Weaver.WRun t => Some t
  | _ => None
  end.

(** Every task in the pool succeeds and nothing was recorded. *)
Record weaver_quiet (s : Weaver.state) : Prop := mkWeaverQuiet {
  wq_calls : forall j c t, Weaver.calls s !! j = Some c -> call_task c = Some t ->
             task_succeeds t;
  wq_queue : forall t, t ∈ buf (Weaver.taskQueue s) -> task_succeeds t;
  wq_workers : forall i p t, Weaver.workers s !! i = Some p ->
               worker_task p = Some t -> task_succeeds t;
  wq_log : Weaver.log s = [];
  wq_panics : Weaver.panics s = []
}.

(** The tasks that a schedule submits. *)
Fixpoint submitted (ls : list Weaver.label) : list Task :=
  match ls with
  | [] => []
  | Weaver.CallAdd t :: ls' => t :: submitted ls'
  | _ :: ls' => submitted ls'
  end.

(** ** [Limiter]

    The middleware of [middleware/limiter.go]: a buffered channel used as a
    semaphore around the next handler. *)
Module Limiter.

(** How the call [next.ServeHTTP(w, r)] ends. *)
Inductive handler : Type :=
  | Returns
  | Panicking (payload : string).

(** Program points of one request inside the handler that [Wrap] returns:
    the send [l.semaphore <- struct{}{}]; the call of the next handler, with
    the deferred function registered; the deferred [<-l.semaphore]; and the
    end of the handler, by return or with the panic of the next handler (or
    of the send) going on to its caller. *)
Inductive req_pc : Type :=
  | Acquire (h : handler)
  | Serve (h : handler)
  | Release (h : handler)
  | Left (h : handler).

Record state : Type := mkState {
  semaphore : chan unit;
  reqs : list req_pc
}.

Definition panicText : string :=
  "middleware.NewLimiter: maxConcurrency must be greater than 0".

(** [func NewLimiter(maxConcurrency int) *Limiter]; [inl] is a panic with
    its payload. *)
Definition NewLimiter (maxConcurrency : Z) : string + state :=
  if (maxConcurrency <=? 0)%Z then inl panicText
  else inr (mkState (make_chan (Z.to_nat maxConcurrency)) []).

Inductive label : Type :=
  | Arrive (h : handler)  (* a request comes in; [h] is how its handler will end *)
  | Req (i : nat).        (* request [i] takes its next step *)

(** The handler that [func (l *Limiter) Wrap(next http.Handler)] returns, for
    request [i]. *)
Definition Wrap (i : nat) (s : state) : option state :=
  match reqs s !! i with
  | Some (Acquire h) =>
      match chan_send (semaphore s) tt with
      | Done q => Some (mkState q (<[i := Serve h]> (reqs s)))
      | Blocks => None
      | Panics => (* before the defer statement: nothing is released *)
          Some (mkState (semaphore s) (<[i := Left (Panicking sendOnClosed)]> (reqs s)))
      end
  | Some (Serve h) => Some (mkState (semaphore s) (<[i := Release h]> (reqs s)))
  | Some (Release h) =>
      match chan_recv (semaphore s) with
      | Done (_, q) => Some (mkState q (<[i := Left h]> (reqs s)))
      | _ => None
      end
  | _ => None
  end.

Definition step (l : label) (s : state) : option state :=
  match l with
  | Arrive h => Some (mkState (semaphore s) (reqs s ++ [Acquire h]))
  | Req i => Wrap i s
  end.

Fixpoint run (ls : list label) (s : state) : option state :=
  match ls with
  | [] => Some s
  | l :: ls' =>
      match step l s with
      | Some s' => run ls' s'
      | None => None
      end
  end.

(** A request that has taken a slot and not given it back. *)
Definition holding (p : req_pc) : bool :=
  match p with
  | Serve _ | Release _ => true
  | _ => false
  end.

(** A request inside [next.ServeHTTP]. *)
Definition serving (p : req_pc) : bool :=
  match p with
  | Serve _ => true
  | _ => false
  end.

Definition is_req (l : label) : bool :=
  match l with
  | Req _ => true
  | _ => false
  end.

Definition weight (p : req_pc) : nat :=
  match p with
  | Acquire _ => 3
  | Serve _ => 2
  | Release _ => 1
  | Left _ => 0
  end.

End Limiter.

Record limiter_inv (m : nat) (s : Limiter.state) : Prop := mkLimiterInv {
  li_cap : cap (Limiter.semaphore s) = m;
  li_open : closed (Limiter.semaphore s) = false;
  li_len : List.length (buf (Limiter.semaphore s)) = count Limiter.holding (Limiter.reqs s);
  li_le : List.length (buf (Limiter.semaphore s)) <= m
}.

(** ** Further schedules of the test suite *)

(** [Sail(ctx, taskOK, taskOK)] of [TestSail_Success], run to its end: both
    tasks are dispatched and return, the closing goroutine closes [errChan],
    and the select receives from the closed channel. *)
Definition sail_two_succeed : list Sail.label :=
  [Sail.Dispatch; Sail.Dispatch; Sail.Dispatch; Sail.Go 0; Sail.Go 0;
   Sail.Go 1; Sail.Go 1; Sail.Closer; Sail.Closer; Sail.SelectErr].

(** One call of [w.Wait()] on a fresh pool of one worker, run to its end. *)
Definition weaver_wait_alone : list Weaver.label :=
  [Weaver.CallWait; Weaver.Caller 0; Weaver.Caller 0; Weaver.Caller 0;
   Weaver.Pull 0; Weaver.Work 0;
   Weaver.Caller 0; Weaver.Caller 0; Weaver.Caller 0; Weaver.Caller 0].

(** [w.Add(t); w.Wait()] on a pool of one worker: the task is queued, [Wait]
    closes the queue, the worker runs the task and leaves, [Wait] returns. *)
Definition weaver_add_then_wait (t : Task) : list Weaver.label :=
  [Weaver.CallAdd t; Weaver.Caller 0; Weaver.Caller 0;
   Weaver.CallWait; Weaver.Caller 1; Weaver.Caller 1; Weaver.Caller 1;
   Weaver.Pull 0; Weaver.Work 0; Weaver.Work 0; Weaver.Pull 0; Weaver.Work 0;
   Weaver.Caller 1; Weaver.Caller 1; Weaver.Caller 1; Weaver.Caller 1].

(** [w.Add(taskFail); err1 := w.Wait(); err2 := w.Wait()] of
    [TestWeaver_Wait_Idempotent]. *)
Definition weaver_wait_twice : list Weaver.label :=
  weaver_add_then_wait (taskFail expectedErr) ++
  [Weaver.CallWait; Weaver.Caller 2; Weaver.Caller 2; Weaver.Caller 2].

(** A call of [w.Add] has passed its test of [isClosed] when a call of
    [w.Wait] closes the queue. *)
Definition weaver_add_meets_close : list Weaver.label :=
  [Weaver.CallAdd taskOK; Weaver.Caller 0;
   Weaver.CallWait; Weaver.Caller 1; Weaver.Caller 1; Weaver.Caller 1].

(** [w.Wait()] has won the compare-and-swap; then [w.Add] is called and
    returns. *)
Definition weaver_add_after_wait : list Weaver.label :=
  weaver_drain_begun ++ [Weaver.CallAdd taskOK; Weaver.Caller 1].

(** Three requests to a limiter of two slots, as in [TestLimiter]: two have
    their slot, the handler of the second has panicked, the third waits. *)
Definition limiter_three_requests : list Limiter.label :=
  [Limiter.Arrive Limiter.Returns; Limiter.Arrive (Limiter.Panicking "boom");
   Limiter.Arrive Limiter.Returns;
   Limiter.Req 0; Limiter.Req 1; Limiter.Req 1].

Definition limiter_after (ls : list Limiter.label) (s : Limiter.state)
  : Limiter.state :=
  match Limiter.run ls s with
  | Some s' => s'
  | None => s
  end.

(** The limiter that [NewLimiter(2)] returns. *)
Definition limiter_of_two : Limiter.state :=
  Limiter.mkState (make_chan 2) [].

(** What a task that was called with a context that is not cancelled has
    left in the history of [sendErr] when it has come to its end. *)
Definition task_done (t : Task) (lg : list error) : Prop :=
  match t None with
  | Return None => True
  | Return (Some e) => e ∈ lg
  | Panic p => panicError p ∈ lg
  end.

(** The error [e] is what task [t] hands to [sendErr]: the error it returns,
    or the error made from its panic. *)
Definition task_error (t : Task) (e : error) : Prop :=
  t None = Return (Some e) \/ exists p, t None = Panic p /\ e = panicError p.

(** What holds along the schedules of [Sail] in which the context is never
    cancelled: goroutine [i] belongs to the [i]-th task of the list, the loop
    has the tasks after those that were started still before it, and every
    recorded error comes from a task of the list. *)
Record sail_order (tasks : list Task) (s : Sail.state) : Prop := mkSailOrder {
  so_ctx : Sail.ctx s = None;
  so_loop : forall rest, Sail.main s = Sail.MLoop rest ->
            drop (List.length (Sail.gos s)) tasks = rest;
  so_gos : forall i g, Sail.gos s !! i = Some g ->
           exists t, tasks !! i = Some t /\
                     match g with
                     | Sail.GRun t' => t' = t
                     | _ => task_done t (Sail.log s)
                     end;
  so_log : forall e, e ∈ Sail.log s -> exists t, t ∈ tasks /\ task_error t e
}.

(** Every task in the pool (carried by a call of [Add], waiting in the queue
    or held by a worker) satisfies [P]. *)
Record weaver_tasks (P : Task -> Prop) (s : Weaver.state) : Prop := mkWeaverTasks {
  wt_calls : forall j c t, Weaver.calls s !! j = Some c -> call_task c = Some t -> P t;
  wt_queue : forall t, t ∈ buf (Weaver.taskQueue s) -> P t;
  wt_workers : forall i p t, Weaver.workers s !! i = Some p ->
               worker_task p = Some t -> P t
}.

(** The error [e] is what a call of task [t] hands to [sendErr]: the error it
    returns, or the error made from its panic. *)
Definition task_gives (t : Task) (e : error) : Prop :=
  exists c, t c = Return (Some e) \/ exists p, t c = Panic p /\ e = panicError p.

(** Every recorded error was given by a task of the list [ts]. *)
Definition log_from (ts : list Task) (lg : list error) : Prop :=
  forall e, e ∈ lg -> exists t, t ∈ ts /\ task_gives t e.


(** Labels other than a new call of [Wait]. *)
Definition no_call_wait (l : Weaver.label) : bool :=
  match l with
  | Weaver.CallWait => false
  | _ => true
  end.

(** A pool without workers and without room: every worker has left, the queue
    is open and full, and [Wait] was never called. *)
Record weaver_stuck (s : Weaver.state) : Prop := mkWeaverStuck {
  wk_workers : forall i p, Weaver.workers s !! i = Some p -> p = Weaver.WExit;
  wk_open : closed (Weaver.taskQueue s) = false;
  wk_full : List.length (buf (Weaver.taskQueue s)) = cap (Weaver.taskQueue s);
  wk_nowait : count is_wait (Weaver.calls s) = 0
}.

(** A pool of one worker with a full queue: the context is cancelled, the
    worker leaves, and a further call of [w.Add] comes to its send. *)
Definition weaver_abandoned : list Weaver.label :=
  weaver_queued_then_cancelled ++
  [Weaver.Quit 0; Weaver.Work 0; Weaver.CallAdd taskOK; Weaver.Caller 1].

(** ** Counting lemmas *)

Lemma count_app {A : Type} (f : A -> bool) (l1 l2 : list A) :
  count f (l1 ++ l2) = count f l1 + count f l2.
Proof.
  induction l1 as [|x l1 IH]; simpl; [reflexivity|]. rewrite IH. lia.
Qed.

Lemma count_insert {A : Type} (f : A -> bool) (l : list A) (i : nat) (x y : A) :
  l !! i = Some x ->
  count f (<[i := y]> l) + Nat.b2n (f x) = count f l + Nat.b2n (f y).
Proof.
  revert i. induction l as [|a l IH]; intros i Hi; [discriminate|].
  destruct i as [|i]; simpl in *.
  - injection Hi as ->. lia.
  - specialize (IH i Hi). lia.
Qed.

Lemma count_zero {A : Type} (f : A -> bool) (l : list A) (i : nat) (x : A) :
  count f l = 0 -> l !! i = Some x -> f x = false.
Proof.
  revert i. induction l as [|a l IH]; intros i H0 Hi; [discriminate|].
  simpl in H0. destruct i as [|i]; simpl in Hi.
  - injection Hi as ->. destruct (f x); simpl in H0; [lia|reflexivity].
  - apply (IH i); [lia|exact Hi].
Qed.

Lemma count_unique {A : Type} (f : A -> bool) (l : list A) (i k : nat) (x y : A) :
  count f l <= 1 -> l !! i = Some x -> f x = true ->
  l !! k = Some y -> f y = true -> i = k.
Proof.
  revert i k. induction l as [|a l IH]; intros i k H1 Hi Hx Hk Hy; [discriminate|].
  simpl in H1. destruct i as [|i], k as [|k]; simpl in Hi, Hk.
  - reflexivity.
  - injection Hi as ->. rewrite Hx in H1. simpl in H1.
    assert (count f l = 0) as H0 by lia.
    rewrite (count_zero f l k y H0 Hk) in Hy. discriminate.
  - injection Hk as ->. rewrite Hy in H1. simpl in H1.
    assert (count f l = 0) as H0 by lia.
    rewrite (count_zero f l i x H0 Hi) in Hx. discriminate.
  - f_equal. apply (IH i k); [lia|assumption..].
Qed.

Lemma count_le_length {A : Type} (f : A -> bool) (l : list A) :
  count f l <= List.length l.
Proof.
  induction l as [|a l IH]; simpl; [lia|]. destruct (f a); simpl; lia.
Qed.

Lemma count_replicate {A : Type} (f : A -> bool) (n : nat) (x : A) :
  count f (replicate n x) = if f x then n else 0.
Proof.
  induction n as [|n IH]; simpl; [destruct (f x); reflexivity|].
  rewrite IH. destruct (f x); simpl; lia.
Qed.

(** ** Tactics for the case analysis of a step *)

Ltac break_all H :=
  repeat match type of H with
         | context [match ?x with _ => _ end] => destruct x eqn:?; try discriminate H
         end;
  injection H as <-.

(** ** [Sail]: the invariant holds along every schedule *)

Lemma sail_inv_init (c : option error) (tasks : list Task) :
  sail_inv (Sail.init c tasks).
Proof.
  split; simpl; try reflexivity; try discriminate.
  - lia.
  - split; [reflexivity|split; reflexivity].
  - intros p Hp. inversion Hp.
Qed.

Lemma sail_live_zero (s : Sail.state) (i : nat) (g : Sail.go_pc) :
  sail_inv s -> Sail.wg s = 0 -> Sail.gos s !! i = Some g -> g = Sail.GExit.
Proof.
  intros I H0 Hi. pose proof (si_wg s I) as Hw.
  assert (count sail_live (Sail.gos s) = 0) as Hc by lia.
  pose proof (count_zero sail_live _ i g Hc Hi) as Hg.
  destruct g; simpl in Hg; congruence.
Qed.

Lemma panics_log_mono (ps : list string) (lg es : list error) :
  (forall p, p ∈ ps -> panicError p ∈ lg) ->
  forall p, p ∈ ps -> panicError p ∈ lg ++ es.
Proof. intros H p Hp. apply elem_of_app. left. apply H, Hp. Qed.

Lemma panics_log_add (ps : list string) (lg : list error) (p0 : string) :
  (forall p, p ∈ ps -> panicError p ∈ lg) ->
  forall p, p ∈ ps ++ [p0] -> panicError p ∈ lg ++ [panicError p0].
Proof.
  intros H p Hp. apply elem_of_app. apply elem_of_app in Hp.
  destruct Hp as [Hp|Hp]; [left; apply H, Hp|right].
  apply list_elem_of_singleton in Hp. subst p. apply list_elem_of_singleton.
  reflexivity.
Qed.

Ltac solve_field :=
  match goal with
  | |- slot_ok _ _ => split; simpl; auto
  | |- forall (e : error) (l : list error), _ = _ :: _ -> _ =>
      first [ discriminate
            | intros ? ? [= <- <-]; simpl; eauto; discriminate
            | let Hl := fresh in let Hb := fresh in
              intros ? ? Hl Hb;
              match goal with
              | T : forall (e : error) (l : list error), _ |- _ =>
                  specialize (T _ _ Hl Hb); discriminate
              end ]
  | T : (forall r, ?m = Sail.MReturn r -> r <> None /\ _)
    |- forall r, ?m = Sail.MReturn r -> _ =>
      let Hr := fresh in
      intros ? Hr; right; destruct (T _ Hr) as [? [?|?]];
      [simpl in *; split; [assumption|congruence] | auto]
  | T : (forall p, p ∈ ?ps -> panicError p ∈ ?lg)
    |- forall p : string, p ∈ ?ps ++ [?p0] -> _ =>
      exact (panics_log_add ps lg p0 T)
  | T : (forall p, p ∈ ?ps -> panicError p ∈ ?lg)
    |- forall p : string, p ∈ ?ps -> _ =>
      first [ exact T | exact (panics_log_mono ps lg _ T) ]
  | _ => idtac
  end.

Lemma sail_inv_step (l : Sail.label) (s s' : Sail.state) :
  sail_inv s -> Sail.step l s = Some s' -> sail_inv s'.
Proof.
  intros I H. unfold Sail.step in H.
  rewrite (si_crashed s I) in H.
  pose proof (sail_live_zero s) as Hz. specialize (fun i g => Hz i g I).
  destruct I as [Icr Iwg Iloop Iwt Icl Islot Itk Ires Ipan].
  destruct s as [c w x m gs cl cr lg ps]. simpl in *. subst cr.
  destruct l.
  - (* Cancel *)
    destruct c; [discriminate|]. injection H as <-.
    split; simpl; auto.
    intros r Hr. destruct (Ires r Hr) as [?|[? [?|?]]]; auto.
    subst r. congruence.
  - (* Dispatch *)
    destruct m as [[|t rest]| |]; try discriminate.
    + injection H as <-. destruct cl; try discriminate.
      split; simpl; auto; try congruence.
      intros e' l' Hl Hb. specialize (Itk e' l' Hl Hb). discriminate.
    + destruct cl; try discriminate. simpl in *.
      destruct c.
      * subst w. simpl in H. injection H as <-.
        split; simpl; auto; try congruence; try lia.
        intros e' l' Hl Hb. specialize (Itk e' l' Hl Hb). discriminate.
      * injection H as <-.
        split; simpl; auto; try congruence; try lia.
        -- rewrite count_app. simpl. lia.
        -- intros e' l' Hl Hb. specialize (Itk e' l' Hl Hb). discriminate.
  - (* SelectErr *)
    destruct m; try discriminate.
    destruct x as [on [cp bf co]]. unfold chan_recv in H. simpl in *.
    destruct Islot as [Hcap Hlog].
    destruct bf as [|e bf].
    + destruct co; [|discriminate]. simpl in H. injection H as <-.
      destruct cl; try discriminate.
      assert (lg = []) as ->.
      { destruct lg as [|e l]; [reflexivity|].
        specialize (Itk e l eq_refl eq_refl). discriminate. }
      split; simpl; auto; try discriminate.
      * split; assumption.
      * intros r [= <-]. left. auto.
    + destruct lg as [|e' l]; [destruct Hlog; discriminate|].
      destruct Hlog as [Hon [[= -> ->]|?]]; [|discriminate].
      simpl in H. injection H as <-.
      split; simpl; auto.
      * split; [assumption|]. simpl. auto.
      * intros e l' [= -> ->] _. reflexivity.
      * intros r [= <-]. right. split; [discriminate|]. left. reflexivity.
  - (* SelectDone *)
    destruct m; try discriminate. destruct c as [e|]; [|discriminate].
    injection H as <-.
    split; simpl; auto.
    + intros e' l' Hl Hb. specialize (Itk e' l' Hl Hb). discriminate.
    + intros r [= <-]. right. split; [discriminate|]. right. reflexivity.
  - (* Go *)
    destruct (gs !! i) as [g|] eqn:Hi; [|discriminate].
    assert (sail_live g = true -> w <> 0 /\ closed (errChan x) = false) as Hlive.
    { intros Hg. assert (w <> 0) as Hw.
      { intros H0. rewrite (Hz i g H0 Hi) in Hg. discriminate. }
      split; [exact Hw|]. rewrite Icl.
      destruct cl; try reflexivity; exfalso; apply Hw, Iwt; reflexivity. }
    pose proof (count_insert sail_live gs i g) as Hcnt.
    destruct g as [t| |]; [| |discriminate].
    + destruct (Hlive eq_refl) as [Hw Hco]. clear Hlive.
      specialize (Hcnt Sail.GDefer Hi). simpl in Hcnt.
      assert (forall r, m = Sail.MReturn r -> r <> None /\ (r = head lg \/ r = c))
        as Ires'.
      { intros r Hr. destruct (Ires r Hr) as [(_ & _ & ?)|?]; [lia|assumption]. }
      unfold Sail.finish in H.
      destruct (t c) as [[e|]|p].
      * (* the task returns an error *)
        destruct x as [on [cp bf co]]. unfold sendErr, chan_send in H.
        destruct Islot as [Hcap Hlog]. simpl in *. subst co cp.
        destruct on.
        -- injection H as <-.
           destruct lg as [|e0 l0]; [destruct Hlog; discriminate|].
           split; simpl; auto; try lia; solve_field.
        -- destruct lg as [|e0 l0]; [|destruct Hlog; discriminate].
           destruct Hlog as [_ ->]. rewrite Hco in H. simpl in H. injection H as <-.
           split; simpl; auto; try lia; solve_field.
      * (* the task returns nil *)
        injection H as <-.
        split; simpl; auto; try lia.
      * (* the task panics *)
        destruct x as [on [cp bf co]]. unfold sendErr, chan_send in H.
        destruct Islot as [Hcap Hlog]. simpl in *. subst co cp.
        destruct on.
        -- injection H as <-.
           destruct lg as [|e0 l0]; [destruct Hlog; discriminate|].
           split; simpl; auto; try lia; solve_field.
        -- destruct lg as [|e0 l0]; [|destruct Hlog; discriminate].
           destruct Hlog as [_ ->]. rewrite Hco in H. simpl in H. injection H as <-.
           split; simpl; auto; try lia; solve_field.
    + (* the deferred wg.Done() *)
      simpl in H. destruct w as [|n]; [destruct (Hlive eq_refl); congruence|].
      simpl in H. injection H as <-.
      specialize (Hcnt Sail.GExit Hi). simpl in Hcnt.
      assert (sail_closer_waited cl = false) as Hcw.
      { destruct cl; try reflexivity; specialize (Iwt eq_refl); discriminate. }
      split; simpl; auto; try lia; solve_field.
      * rewrite Hcw. discriminate.
      * intros r Hr. destruct (Ires r Hr) as [(_ & _ & ?)|?]; [lia|auto].
  - (* Closer *)
    destruct cl; try discriminate.
    + destruct w; [|discriminate]. simpl in H. injection H as <-.
      destruct m; try discriminate.
      all: split; simpl; auto.
    + unfold chan_close in H. rewrite Icl in H. simpl in H. injection H as <-.
      destruct m; try discriminate.
      all: split; simpl; auto.
      all: destruct Islot; split; auto.
Qed.

Lemma sail_inv_run (ls : list Sail.label) (s s' : Sail.state) :
  sail_inv s -> Sail.run ls s = Some s' -> sail_inv s'.
Proof.
  revert s. induction ls as [|l ls IH]; intros s I H; simpl in H.
  - injection H as <-. exact I.
  - destruct (Sail.step l s) as [s1|] eqn:Hs; [|discriminate].
    apply (IH s1); [exact (sail_inv_step l s s1 I Hs)|exact H].
Qed.

(** ** [Weaver]: the invariant holds along every schedule *)

Lemma lookup_insert_cases {A : Type} (l : list A) (i k : nat) (y z : A) :
  <[i := y]> l !! k = Some z ->
  (k = i /\ z = y) \/ (k <> i /\ l !! k = Some z).
Proof.
  intros H. destruct (decide (k = i)) as [->|Hne].
  - left. split; [reflexivity|].
    destruct (decide (i < List.length l)) as [Hlt|Hge].
    + rewrite list_lookup_insert_eq in H by exact Hlt. congruence.
    + rewrite list_insert_ge in H by lia.
      apply lookup_lt_Some in H. lia.
  - right. split; [exact Hne|].
    rewrite list_lookup_insert_ne in H by congruence. exact H.
Qed.

Lemma lookup_snoc_cases {A : Type} (l : list A) (k : nat) (x z : A) :
  (l ++ [x]) !! k = Some z -> l !! k = Some z \/ z = x.
Proof.
  intros H. destruct (decide (k < List.length l)) as [Hlt|Hge].
  - left. rewrite lookup_app_l in H by exact Hlt. exact H.
  - right. rewrite lookup_app_r in H by lia.
    destruct (k - List.length l) as [|n]; simpl in H; [congruence|discriminate].
Qed.

Lemma weaver_inv_pool (c : option error) (n : nat) : weaver_inv (Weaver.pool c n).
Proof.
  split; simpl; auto; try discriminate.
  - rewrite count_replicate. reflexivity.
  - split; [reflexivity|]. simpl. auto.
  - intros p Hp. inversion Hp.
Qed.

Lemma weaver_live_zero (s : Weaver.state) (i : nat) (p : Weaver.worker_pc) :
  weaver_inv s -> Weaver.wg s = 0 -> Weaver.workers s !! i = Some p ->
  p = Weaver.WExit.
Proof.
  intros I H0 Hi. pose proof (wi_wg s I) as Hw.
  assert (count weaver_live (Weaver.workers s) = 0) as Hc by lia.
  pose proof (count_zero weaver_live _ i p Hc Hi) as Hp.
  destruct p; simpl in Hp; congruence.
Qed.

Lemma weaver_inv_step (l : Weaver.label) (s s' : Weaver.state) :
  weaver_inv s -> Weaver.step l s = Some s' -> weaver_inv s'.
Proof.
  intros I H. unfold Weaver.step in H.
  rewrite (wi_crashed s I) in H.
  pose proof (weaver_live_zero s) as Hz. specialize (fun i g => Hz i g I).
  destruct I as [Icr Iwg Iwin Iph Iop Iec Islot Ifin Ival Ipan].
  destruct s as [c w x q ic fe ws cs cr lg ps bg]. simpl in *. subst cr.
  destruct l.
  - (* Cancel *)
    destruct c; [discriminate|]. injection H as <-.
    split; simpl; auto.
  - (* Pull *)
    unfold Weaver.worker_select in H. simpl in H.
    destruct (ws !! i) as [p|] eqn:Hi; [|discriminate].
    destruct p; try discriminate.
    pose proof (count_insert weaver_live ws i _ Weaver.WDefer Hi) as Hcnt2.
    destruct q as [qc qb qo]. unfold chan_recv in H. simpl in *.
    destruct qb as [|t qb].
    + destruct qo; [|discriminate]. simpl in H. injection H as <-.
      split; simpl; auto; try lia.
    + simpl in H. injection H as <-.
      pose proof (count_insert weaver_live ws i _ (Weaver.WExecute t) Hi) as Hcnt.
      simpl in Hcnt. split; simpl; auto; try lia.
  - (* Quit *)
    unfold Weaver.worker_select in H. simpl in H.
    destruct (ws !! i) as [p|] eqn:Hi; [|discriminate].
    destruct p; try discriminate. destruct c; [|discriminate].
    injection H as <-.
    pose proof (count_insert weaver_live ws i _ Weaver.WDefer Hi) as Hcnt.
    simpl in Hcnt. split; simpl; auto; try lia.
  - (* Work *)
    unfold Weaver.worker, Weaver.execute in H. simpl in H.
    destruct (ws !! i) as [p|] eqn:Hi; [|discriminate].
    assert (weaver_live p = true -> w <> 0 /\ closed (errChan x) = false) as Hlive.
    { intros Hp. assert (w <> 0) as Hw.
      { intros H0. rewrite (Hz i p H0 Hi) in Hp. discriminate. }
      split; [exact Hw|].
      destruct (closed (errChan x)); [|reflexivity]. exfalso. auto. }
    pose proof (count_insert weaver_live ws i p) as Hcnt.
    destruct p as [|t|t| |]; try discriminate.
    + (* execute: the test of ctx.Err() *)
      destruct c.
      * injection H as <-. specialize (Hcnt Weaver.WSelect Hi). simpl in Hcnt.
        split; simpl; auto; try lia.
      * injection H as <-. specialize (Hcnt (Weaver.WRun t) Hi). simpl in Hcnt.
        split; simpl; auto; try lia.
    + (* the task comes to its end *)
      destruct (Hlive eq_refl) as [Hw Hco]. clear Hlive.
      specialize (Hcnt Weaver.WSelect Hi). simpl in Hcnt.
      unfold Weaver.finish in H.
      destruct (t c) as [[e|]|p].
      * destruct x as [on [cp bf co]]. unfold sendErr, chan_send in H.
        destruct Islot as [Hcap Hlog]. simpl in *. subst co cp.
        destruct on.
        -- injection H as <-.
           destruct lg as [|e0 l0]; [destruct Hlog; discriminate|].
           split; simpl; auto; try lia; solve_field.
        -- destruct lg as [|e0 l0]; [|destruct Hlog; discriminate].
           destruct Hlog as [_ ->]. simpl in H. injection H as <-.
           split; simpl; auto; try lia; solve_field.
           ++ destruct Ifin as [?|?]; auto.
           ++ intros j c0 r Hj Hv. destruct (Ival j c0 r Hj Hv); auto.
      * injection H as <-.
        split; simpl; auto; try lia.
      * destruct x as [on [cp bf co]]. unfold sendErr, chan_send in H.
        destruct Islot as [Hcap Hlog]. simpl in *. subst co cp.
        destruct on.
        -- injection H as <-.
           destruct lg as [|e0 l0]; [destruct Hlog; discriminate|].
           split; simpl; auto; try lia; solve_field.
        -- destruct lg as [|e0 l0]; [|destruct Hlog; discriminate].
           destruct Hlog as [_ ->]. simpl in H. injection H as <-.
           split; simpl; auto; try lia; solve_field.
           ++ destruct Ifin as [?|?]; auto.
           ++ intros j c0 r Hj Hv. destruct (Ival j c0 r Hj Hv); auto.
    + (* the deferred wg.Done() *)
      simpl in H. destruct w as [|n]; [destruct (Hlive eq_refl); congruence|].
      simpl in H. injection H as <-.
      specialize (Hcnt Weaver.WExit Hi). simpl in Hcnt.
      split; simpl; auto; try lia; solve_field.
      * intros j c0 Hj Hw0. destruct (Iph j c0 Hj Hw0) as (? & ? & Hx).
        repeat split; auto. intros Hy. specialize (Hx Hy). discriminate.
      * intros Hco. destruct (Hlive eq_refl). congruence.
  - (* CallAdd *)
    injection H as <-.
    split; simpl; auto.
    + rewrite count_app. simpl. lia.
    + intros j c0 Hj Hw. apply lookup_snoc_cases in Hj. destruct Hj as [Hj| ->].
      * exact (Iph j c0 Hj Hw).
      * discriminate.
    + intros j c0 r Hj Hv. apply lookup_snoc_cases in Hj. destruct Hj as [Hj| ->].
      * exact (Ival j c0 r Hj Hv).
      * discriminate.
  - (* CallWait *)
    injection H as <-.
    split; simpl; auto.
    + rewrite count_app. simpl. lia.
    + intros j c0 Hj Hw. apply lookup_snoc_cases in Hj. destruct Hj as [Hj| ->].
      * exact (Iph j c0 Hj Hw).
      * discriminate.
    + intros j c0 r Hj Hv. apply lookup_snoc_cases in Hj. destruct Hj as [Hj| ->].
      * exact (Ival j c0 r Hj Hv).
      * discriminate.
  - (* Caller *)
    unfold Weaver.caller, Weaver.Add, Weaver.Wait in H. simpl in H.
    destruct (cs !! j) as [p|] eqn:Hj; [|discriminate].
    pose proof (count_insert winner cs j p) as Hcnt.
    assert (count winner cs <= 1) as Hle by (rewrite Iwin; destruct ic; simpl; lia).
    assert (winner p = true -> ic = true /\
            forall k c0, cs !! k = Some c0 -> winner c0 = true -> k = j) as Hwin.
    { intros Hp. split.
      - destruct ic; [reflexivity|]. simpl in Iwin.
        rewrite (count_zero winner cs j p Iwin Hj) in Hp. discriminate.
      - intros k c0 Hk Hc0. exact (count_unique winner cs k j c0 p Hle Hk Hc0 Hj Hp). }
    assert (winner p = false -> forall p', winner p' = false ->
            (forall k c0, <[j := p']> cs !! k = Some c0 -> winner c0 = true ->
                          cs !! k = Some c0)) as Hother.
    { intros _ p' Hp' k c0 Hk Hc0. apply lookup_insert_cases in Hk.
      destruct Hk as [[-> ->]|[_ Hk]]; [congruence|exact Hk]. }
    assert (forall p', call_value p' = None ->
            forall k c0 r, <[j := p']> cs !! k = Some c0 -> call_value c0 = Some r ->
                           cs !! k = Some c0) as Hval.
    { intros p' Hp' k c0 r Hk Hc0. apply lookup_insert_cases in Hk.
      destruct Hk as [[-> ->]|[_ Hk]]; [congruence|exact Hk]. }
    destruct p.
    + (* Add: the load of isClosed *)
      specialize (Hother eq_refl).
      destruct ic; injection H as <-; simpl in Iwin.
      * specialize (Hcnt (Weaver.AddReturn (Some errClosed)) Hj).
        specialize (Hother (Weaver.AddReturn (Some errClosed)) eq_refl).
        specialize (Hval (Weaver.AddReturn (Some errClosed)) eq_refl).
        simpl in Hcnt. split; simpl; auto; try lia; eauto.
      * specialize (Hcnt (Weaver.AddSend t) Hj).
        specialize (Hother (Weaver.AddSend t) eq_refl).
        specialize (Hval (Weaver.AddSend t) eq_refl).
        simpl in Hcnt. split; simpl; auto; try lia; eauto.
    + (* Add: the send *)
      specialize (Hother eq_refl).
      destruct q as [qc qb qo]. unfold chan_send in H. simpl in *.
      destruct qo.
      * injection H as <-.
        specialize (Hcnt (Weaver.AddReturn (Some errCannotAdd)) Hj).
        specialize (Hother (Weaver.AddReturn (Some errCannotAdd)) eq_refl).
        specialize (Hval (Weaver.AddReturn (Some errCannotAdd)) eq_refl).
        simpl in Hcnt. split; simpl; auto; try lia; eauto.
      * destruct (List.length qb <? qc)%nat; [|discriminate]. injection H as <-.
        specialize (Hcnt (Weaver.AddReturn None) Hj).
        specialize (Hother (Weaver.AddReturn None) eq_refl).
        specialize (Hval (Weaver.AddReturn None) eq_refl).
        simpl in Hcnt. split; simpl; auto; try lia; eauto.
    + discriminate.
    + (* Wait: the load of isClosed *)
      specialize (Hother eq_refl).
      destruct ic; injection H as <-; simpl in Iwin.
      * specialize (Hcnt Weaver.WaitRecv Hj).
        specialize (Hother Weaver.WaitRecv eq_refl).
        specialize (Hval Weaver.WaitRecv eq_refl).
        simpl in Hcnt. split; simpl; auto; try lia; eauto.
      * specialize (Hcnt Weaver.WaitCAS Hj).
        specialize (Hother Weaver.WaitCAS eq_refl).
        specialize (Hval Weaver.WaitCAS eq_refl).
        simpl in Hcnt. split; simpl; auto; try lia; eauto.
    + (* Wait: the compare-and-swap *)
      destruct ic; injection H as <-; simpl in Iwin.
      * specialize (Hcnt Weaver.WaitRecv Hj).
        specialize (Hother eq_refl Weaver.WaitRecv eq_refl).
        specialize (Hval Weaver.WaitRecv eq_refl).
        simpl in Hcnt. split; simpl; auto; try lia; eauto.
      * specialize (Hcnt Weaver.WaitCloseQueue Hj).
        specialize (Hval Weaver.WaitCloseQueue eq_refl).
        destruct (Iop eq_refl) as [Hq Hx].
        simpl in Hcnt. split; simpl; auto; try lia; eauto; try discriminate.
        intros k c0 Hk Hc0. apply lookup_insert_cases in Hk.
        destruct Hk as [[-> ->]|[_ Hk]].
        -- simpl. repeat split; auto. discriminate.
        -- rewrite (count_zero winner cs k c0 Iwin Hk) in Hc0. discriminate.
    + (* Wait, losing: the receive from errChan *)
      specialize (Hother eq_refl Weaver.WaitFinal eq_refl).
      specialize (Hval Weaver.WaitFinal eq_refl).
      specialize (Hcnt Weaver.WaitFinal Hj). simpl in Hcnt.
      destruct x as [on [cp bf co]]. unfold chan_recv in H.
      destruct Islot as [Hcap Hlog]. simpl in *.
      destruct bf as [|e bf].
      * destruct co; [|discriminate]. injection H as <-.
        split; simpl; auto; try lia; eauto. split; auto.
      * injection H as <-.
        destruct lg as [|e0 l0]; [destruct Hlog; discriminate|].
        destruct Hlog as [Hon [[= -> ->]|?]]; [|discriminate].
        split; simpl; auto; try lia; eauto. split; simpl; auto.
    + (* Wait, losing: the read of finalErr *)
      specialize (Hother eq_refl (Weaver.WaitReturn false fe) eq_refl).
      specialize (Hcnt (Weaver.WaitReturn false fe) Hj). simpl in Hcnt.
      injection H as <-.
      split; simpl; auto; try lia; eauto.
      intros k c0 r Hk Hc0. apply lookup_insert_cases in Hk.
      destruct Hk as [[-> ->]|[_ Hk]]; [|eauto].
      injection Hc0 as <-. exact Ifin.
    + (* Wait, winning: close(w.taskQueue) *)
      destruct (Hwin eq_refl) as [-> Huniq]. clear Hwin Hother.
      destruct (Iph j _ Hj eq_refl) as (Hq & Hx & Hwt).
      specialize (Hcnt Weaver.WaitWg Hj).
      specialize (Hval Weaver.WaitWg eq_refl).
      destruct q as [qc qb qo]. unfold chan_close in H. simpl in *. subst qo.
      injection H as <-.
      split; simpl; auto; try lia; eauto; try discriminate.
      intros k c0 Hk Hc0. apply lookup_insert_cases in Hk.
      destruct Hk as [[-> ->]|[Hne Hk]]; [|destruct (Hne (Huniq k c0 Hk Hc0))].
      simpl. repeat split; auto.
    + (* Wait, winning: w.wg.Wait() *)
      destruct (Hwin eq_refl) as [-> Huniq]. clear Hwin Hother.
      destruct (Iph j _ Hj eq_refl) as (Hq & Hx & Hwt).
      specialize (Hcnt Weaver.WaitSelect Hj).
      specialize (Hval Weaver.WaitSelect eq_refl).
      destruct w; [|discriminate]. simpl in *. injection H as <-.
      split; simpl; auto; try lia; eauto; try discriminate.
      intros k c0 Hk Hc0. apply lookup_insert_cases in Hk.
      destruct Hk as [[-> ->]|[Hne Hk]]; [|destruct (Hne (Huniq k c0 Hk Hc0))].
      simpl. repeat split; auto.
    + (* Wait, winning: the select with default *)
      destruct (Hwin eq_refl) as [-> Huniq]. clear Hwin Hother Hval.
      destruct (Iph j _ Hj eq_refl) as (Hq & Hx & Hwt).
      specialize (Hwt eq_refl).
      destruct x as [on [cp bf co]]. unfold chan_recv in H.
      destruct Islot as [Hcap Hlog]. simpl in *. subst co.
      destruct bf as [|e bf].
      * injection H as <-.
        specialize (Hcnt (Weaver.WaitCancel fe) Hj). simpl in Hcnt.
        split; simpl; auto; try lia; try discriminate.
        -- intros k c0 Hk Hc0. apply lookup_insert_cases in Hk.
           destruct Hk as [[-> ->]|[Hne Hk]]; [|destruct (Hne (Huniq k c0 Hk Hc0))].
           simpl. repeat split; auto.
        -- split; auto.
        -- intros k c0 r Hk Hc0. apply lookup_insert_cases in Hk.
           destruct Hk as [[-> ->]|[_ Hk]]; [|eauto].
           injection Hc0 as <-. exact Ifin.
      * injection H as <-.
        destruct lg as [|e0 l0]; [destruct Hlog; discriminate|].
        destruct Hlog as [Hon [[= -> ->]|?]]; [|discriminate].
        specialize (Hcnt (Weaver.WaitCancel (Some e0)) Hj). simpl in Hcnt.
        split; simpl; auto; try lia; try discriminate.
        -- intros k c0 Hk Hc0. apply lookup_insert_cases in Hk.
           destruct Hk as [[-> ->]|[Hne Hk]]; [|destruct (Hne (Huniq k c0 Hk Hc0))].
           simpl. repeat split; auto.
        -- split; simpl; auto.
        -- intros k c0 r Hk Hc0. apply lookup_insert_cases in Hk.
           destruct Hk as [[-> ->]|[_ Hk]]; [|eauto].
           injection Hc0 as <-. right. reflexivity.
    + (* Wait, winning, deferred: w.cancel() *)
      destruct (Hwin eq_refl) as [-> Huniq]. clear Hwin Hother Hval.
      destruct (Iph j _ Hj eq_refl) as (Hq & Hx & Hwt).
      specialize (Hwt eq_refl).
      specialize (Hcnt (Weaver.WaitCloseErr r) Hj). simpl in Hcnt, Iwin.
      injection H as <-. unfold Weaver.cancel. simpl.
      destruct c; split; simpl; auto; try lia; try discriminate.
      all: try (intros k c0 Hk Hc0; apply lookup_insert_cases in Hk;
                destruct Hk as [[-> ->]|[Hne Hk]];
                [|destruct (Hne (Huniq k c0 Hk Hc0))];
                simpl; repeat split; auto; fail).
      all: intros k c0 r0 Hk Hc0; apply lookup_insert_cases in Hk;
           destruct Hk as [[-> ->]|[_ Hk]]; [|eauto];
           injection Hc0 as <-; apply (Ival j _ r Hj eq_refl).
    + (* Wait, winning, deferred: close(w.errChan) *)
      destruct (Hwin eq_refl) as [-> Huniq]. clear Hwin Hother Hval.
      destruct (Iph j _ Hj eq_refl) as (Hq & Hx & Hwt).
      specialize (Hwt eq_refl).
      specialize (Hcnt (Weaver.WaitReturn true r) Hj). simpl in Hcnt.
      destruct x as [on [cp bf co]]. unfold chan_close in H.
      destruct Islot as [Hcap Hlog]. simpl in *. subst co.
      injection H as <-.
      split; simpl; auto; try lia; try discriminate.
      * intros k c0 Hk Hc0. apply lookup_insert_cases in Hk.
        destruct Hk as [[-> ->]|[Hne Hk]]; [|destruct (Hne (Huniq k c0 Hk Hc0))].
        simpl. repeat split; auto.
      * split; auto.
      * intros k c0 r0 Hk Hc0. apply lookup_insert_cases in Hk.
        destruct Hk as [[-> ->]|[_ Hk]]; [|eauto].
        injection Hc0 as <-. apply (Ival j _ r Hj eq_refl).
    + discriminate.
Qed.

Lemma weaver_inv_run (ls : list Weaver.label) (s s' : Weaver.state) :
  weaver_inv s -> Weaver.run ls s = Some s' -> weaver_inv s'.
Proof.
  revert s. induction ls as [|l ls IH]; intros s I H; simpl in H.
  - injection H as <-. exact I.
  - destruct (Weaver.step l s) as [s1|] eqn:Hs; [|discriminate].
    apply (IH s1); [exact (weaver_inv_step l s s1 I Hs)|exact H].
Qed.

(** ** What a step of [Weaver] leaves unchanged *)

Ltac weaver_step_cases H :=
  unfold Weaver.step, Weaver.caller, Weaver.Add, Weaver.Wait, Weaver.worker,
    Weaver.worker_select, Weaver.execute, Weaver.finish in H;
  cbv zeta in H;
  repeat (cbv beta iota in H;
          match type of H with
          | context [match ?x with _ => _ end] => destruct x eqn:?; try discriminate H
          end);
  cbv beta iota in H; injection H as <-; simpl.

Lemma weaver_cancel_fields (s : Weaver.state) :
  Weaver.workers (Weaver.cancel s) = Weaver.workers s /\
  Weaver.calls (Weaver.cancel s) = Weaver.calls s /\
  Weaver.isClosed (Weaver.cancel s) = Weaver.isClosed s /\
  Weaver.begun (Weaver.cancel s) = Weaver.begun s /\
  Weaver.ctx (Weaver.cancel s) <> None.
Proof.
  unfold Weaver.cancel. destruct (Weaver.ctx s) eqn:Hc; simpl; rewrite ?Hc; auto.
Qed.

Lemma weaver_step_workers_length (l : Weaver.label) (s s' : Weaver.state) :
  Weaver.step l s = Some s' ->
  List.length (Weaver.workers s') = List.length (Weaver.workers s).
Proof.
  intros H. pose proof (weaver_cancel_fields s) as (Hw & _).
  weaver_step_cases H; rewrite ?length_insert, ?Hw; reflexivity.
Qed.

Lemma weaver_step_isClosed (l : Weaver.label) (s s' : Weaver.state) :
  Weaver.step l s = Some s' -> Weaver.isClosed s = true ->
  Weaver.isClosed s' = true.
Proof.
  intros H Hc. pose proof (weaver_cancel_fields s) as (_ & _ & Hi & _).
  weaver_step_cases H; rewrite ?Hi; congruence.
Qed.




Lemma weaver_step_calls_other (l : Weaver.label) (s s' : Weaver.state)
      (j : nat) (c : Weaver.call_pc) :
  Weaver.step l s = Some s' -> l <> Weaver.Caller j ->
  Weaver.calls s !! j = Some c -> Weaver.calls s' !! j = Some c.
Proof.
  intros H Hl Hj. pose proof (weaver_cancel_fields s) as (_ & Hc & _).
  assert (forall x, (Weaver.calls s ++ [x]) !! j = Some c) as Happ.
  { intros x. rewrite lookup_app_l; [exact Hj|]. apply lookup_lt_Some in Hj. exact Hj. }
  destruct l as [e|k|k|k|t'| |k];
    try (weaver_step_cases H; rewrite ?Hc; first [exact Hj|apply Happ]).
  assert (k <> j) as Hne by congruence.
  weaver_step_cases H;
    rewrite ?list_lookup_insert_ne by exact Hne; rewrite ?Hc; exact Hj.
Qed.

(** ** The failure slot *)


Lemma slot_ok_send_ready (x : slot) (lg : list error) (e : error) :
  slot_ok x lg -> closed (errChan x) = false ->
  exists x', sendErr x e = SendOk x'.
Proof.
  intros [Hcap H] Hco. unfold sendErr, chan_send. rewrite Hco.
  destruct (once x) eqn:Hon; [eauto|].
  destruct lg as [|e0 l0]; [|destruct H; congruence].
  destruct H as [_ ->]. rewrite Hcap. simpl. eauto.
Qed.






(** ** Panics of tasks *)

Lemma sail_live_open (s : Sail.state) (i : nat) (g : Sail.go_pc) :
  sail_inv s -> Sail.gos s !! i = Some g -> sail_live g = true ->
  closed (errChan (Sail.slt s)) = false.
Proof.
  intros I Hi Hg. rewrite (si_closed s I).
  destruct (Sail.closer s) eqn:Hc; try reflexivity.
  pose proof (si_waited s I) as Hw. rewrite Hc in Hw. specialize (Hw eq_refl).
  rewrite (sail_live_zero s i g I Hw Hi) in Hg. discriminate.
Qed.

Lemma weaver_live_open (s : Weaver.state) (i : nat) (p : Weaver.worker_pc) :
  weaver_inv s -> Weaver.workers s !! i = Some p -> weaver_live p = true ->
  closed (errChan (Weaver.slt s)) = false.
Proof.
  intros I Hi Hp. destruct (closed (errChan (Weaver.slt s))) eqn:Hc; [|reflexivity].
  rewrite (weaver_live_zero s i p I (wi_errclosed s I Hc) Hi) in Hp. discriminate.
Qed.

Lemma sail_panic_recovered (s : Sail.state) (i : nat) (t : Task) (p : string) :
  sail_inv s -> Sail.gos s !! i = Some (Sail.GRun t) -> t (Sail.ctx s) = Panic p ->
  exists s', Sail.step (Sail.Go i) s = Some s' /\ Sail.crashed s' = false /\
             Sail.gos s' !! i = Some Sail.GDefer /\
             p ∈ Sail.panics s' /\ panicError p ∈ Sail.log s'.
Proof.
  intros I Hi Ht.
  pose proof (sail_live_open s i _ I Hi eq_refl) as Hco.
  destruct (slot_ok_send_ready _ _ (panicError p) (si_slot s I) Hco) as [x' Hx].
  assert (exists s', Sail.step (Sail.Go i) s = Some s' /\
                     Sail.gos s' = <[i := Sail.GDefer]> (Sail.gos s) /\
                     Sail.panics s' = Sail.panics s ++ [p] /\
                     Sail.log s' = Sail.log s ++ [panicError p]) as (s' & Hs & Hg & Hp & Hl).
  { unfold Sail.step. rewrite (si_crashed s I), Hi, Ht. unfold Sail.finish.
    rewrite Hx. eexists. split; [reflexivity|]. simpl. auto. }
  exists s'. split; [exact Hs|].
  split; [exact (si_crashed s' (sail_inv_step _ s s' I Hs))|].
  split; [|split].
  - rewrite Hg. apply list_lookup_insert_eq. apply lookup_lt_Some in Hi. exact Hi.
  - rewrite Hp. apply elem_of_app. right. apply list_elem_of_singleton. reflexivity.
  - rewrite Hl. apply elem_of_app. right. apply list_elem_of_singleton. reflexivity.
Qed.

Lemma weaver_panic_recovered (s : Weaver.state) (i : nat) (t : Task) (p : string) :
  weaver_inv s -> Weaver.workers s !! i = Some (Weaver.WRun t) ->
  t (Weaver.ctx s) = Panic p ->
  exists s', Weaver.step (Weaver.Work i) s = Some s' /\ Weaver.crashed s' = false /\
             Weaver.workers s' !! i = Some Weaver.WSelect /\
             p ∈ Weaver.panics s' /\ panicError p ∈ Weaver.log s'.
Proof.
  intros I Hi Ht.
  pose proof (weaver_live_open s i _ I Hi eq_refl) as Hco.
  destruct (slot_ok_send_ready _ _ (panicError p) (wi_slot s I) Hco) as [x' Hx].
  assert (exists s', Weaver.step (Weaver.Work i) s = Some s' /\
                     Weaver.workers s' = <[i := Weaver.WSelect]> (Weaver.workers s) /\
                     Weaver.panics s' = Weaver.panics s ++ [p] /\
                     Weaver.log s' = Weaver.log s ++ [panicError p])
    as (s' & Hs & Hg & Hp & Hl).
  { unfold Weaver.step, Weaver.worker.
    rewrite (wi_crashed s I), Hi. unfold Weaver.execute.
    rewrite Ht. unfold Weaver.finish.
    rewrite Hx. eexists. split; [reflexivity|]. simpl. auto. }
  exists s'. split; [exact Hs|].
  split; [exact (wi_crashed s' (weaver_inv_step _ s s' I Hs))|].
  split; [|split].
  - rewrite Hg. apply list_lookup_insert_eq. apply lookup_lt_Some in Hi. exact Hi.
  - rewrite Hp. apply elem_of_app. right. apply list_elem_of_singleton. reflexivity.
  - rewrite Hl. apply elem_of_app. right. apply list_elem_of_singleton. reflexivity.
Qed.

Lemma panicError_text (p : string) :
  Error (panicError p) = panic_prefix +:+ p /\
  String.prefix panic_prefix (Error (panicError p)) = true.
Proof.
  split; [reflexivity|]. destruct p; reflexivity.
Qed.

(** C7. A task that panics under [Sail] or [Weaver] does not crash the
    program.  The error built from a panic reads "panic recovered: " followed
    by the payload.  Along every schedule no panic leaves a goroutine, and
    the error of every panic that occurred was passed to [sendErr].  Whenever
    a running task ends in a panic, the step that recovers it can be taken:
    it leaves the program uncrashed, passes the error of the panic to
    [sendErr], and the goroutine goes on (to its deferred [wg.Done()] in
    [Sail], back to the loop of the worker in [Weaver]). *)
Theorem panic_containment :
  (forall p, Error (panicError p) = panic_prefix +:+ p /\
             String.prefix panic_prefix (Error (panicError p)) = true) /\
  (forall c tasks ls s,
      Sail.run ls (Sail.init c tasks) = Some s ->
      Sail.crashed s = false /\
      (forall p, p ∈ Sail.panics s -> panicError p ∈ Sail.log s) /\
      (forall i t p, Sail.gos s !! i = Some (Sail.GRun t) ->
                     t (Sail.ctx s) = Panic p ->
                     exists s', Sail.step (Sail.Go i) s = Some s' /\
                                Sail.crashed s' = false /\
                                Sail.gos s' !! i = Some Sail.GDefer /\
                                p ∈ Sail.panics s' /\
                                panicError p ∈ Sail.log s')) /\
  (forall c n ls s,
      Weaver.run ls (Weaver.pool c n) = Some s ->
      Weaver.crashed s = false /\
      (forall p, p ∈ Weaver.panics s -> panicError p ∈ Weaver.log s) /\
      (forall i t p, Weaver.workers s !! i = Some (Weaver.WRun t) ->
                     t (Weaver.ctx s) = Panic p ->
                     exists s', Weaver.step (Weaver.Work i) s = Some s' /\
                                Weaver.crashed s' = false /\
                                Weaver.workers s' !! i = Some Weaver.WSelect /\
                                p ∈ Weaver.panics s' /\
                                panicError p ∈ Weaver.log s')).
Proof.
  split; [exact panicError_text|]. split.
  - intros c tasks ls s H.
    pose proof (sail_inv_run ls _ s (sail_inv_init c tasks) H) as I.
    split; [exact (si_crashed s I)|]. split; [exact (si_panics s I)|].
    intros i t p. exact (sail_panic_recovered s i t p I).
  - intros c n ls s H.
    pose proof (weaver_inv_run ls _ s (weaver_inv_pool c n) H) as I.
    split; [exact (wi_crashed s I)|]. split; [exact (wi_panics s I)|].
    intros i t p. exact (weaver_panic_recovered s i t p I).
Qed.

(** The panics of [TestSail_Panic] and [TestWeaver_Panic], at the moment
    the panicking task is running. *)
Lemma panic_containment_witness :
  let s := sail_after [Sail.Dispatch] (Sail.init None [taskPanic "something went wrong"]) in
  let w := weaver_after weaver_panic_running (Weaver.pool None 1) in
  (exists s', Sail.step (Sail.Go 0) s = Some s' /\
              Sail.crashed s' = false /\
              Sail.gos s' !! 0 = Some Sail.GDefer /\
              "something went wrong" ∈ Sail.panics s' /\
              panicError "something went wrong" ∈ Sail.log s') /\
  (exists w', Weaver.step (Weaver.Work 0) w = Some w' /\
              Weaver.crashed w' = false /\
              Weaver.workers w' !! 0 = Some Weaver.WSelect /\
              "worker panic" ∈ Weaver.panics w' /\
              panicError "worker panic" ∈ Weaver.log w').
Proof.
  intros s w.
  assert (Sail.run [Sail.Dispatch] (Sail.init None [taskPanic "something went wrong"])
          = Some s) as Hs by (vm_compute; reflexivity).
  assert (Weaver.run weaver_panic_running (Weaver.pool None 1) = Some w) as Hw
    by (vm_compute; reflexivity).
  assert (Sail.gos s !! 0 = Some (Sail.GRun (taskPanic "something went wrong")))
    as Hs0 by (vm_compute; reflexivity).
  assert (Weaver.workers w !! 0 = Some (Weaver.WRun (taskPanic "worker panic")))
    as Hw0 by (vm_compute; reflexivity).
  destruct panic_containment as (_ & H2 & H3).
  split.
  - destruct (H2 None [taskPanic "something went wrong"] [Sail.Dispatch] s Hs)
      as (_ & _ & H).
    exact (H 0 (taskPanic "something went wrong") "something went wrong" Hs0 eq_refl).
  - destruct (H3 None 1 weaver_panic_running w Hw) as (_ & _ & H).
    exact (H 0 (taskPanic "worker panic") "worker panic" Hw0 eq_refl).
Defined.

(** ** [Sail] without tasks *)

Lemma sail_empty_prefix (ls : list Sail.label) (s : Sail.state) :
  forallb Sail.no_cancel ls = true ->
  Sail.run ls (Sail.init None []) = Some s ->
  exists k, k <= 4 /\ ls = take k sail_empty_schedule.
Proof.
  intros Hnc Hrun.
  destruct ls as [|l ls]; [exists 0; split; [lia|reflexivity]|].
  destruct l; simpl in Hnc, Hrun; try discriminate.
  destruct ls as [|l ls]; [exists 1; split; [lia|reflexivity]|].
  destruct l; simpl in Hnc, Hrun; try discriminate.
  destruct ls as [|l ls]; [exists 2; split; [lia|reflexivity]|].
  destruct l; simpl in Hnc, Hrun; try discriminate.
  destruct ls as [|l ls]; [exists 3; split; [lia|reflexivity]|].
  destruct l; simpl in Hnc, Hrun; try discriminate.
  destruct ls as [|l ls]; [exists 4; split; [lia|reflexivity]|].
  destruct l; simpl in Hnc, Hrun; discriminate.
Qed.

(** C10. Called with no task and a context that is not cancelled before or
    during the call, [Sail] returns [nil].  Every schedule without
    cancellation is a beginning of the one schedule there is (at most four
    steps); it starts no task, a result it has reached is [nil], and it can
    always be continued, without cancellation, until [Sail] has returned
    [nil]. *)
Theorem sail_empty_returns_success (ls : list Sail.label) (s : Sail.state) :
  forallb Sail.no_cancel ls = true ->
  Sail.run ls (Sail.init None []) = Some s ->
  List.length ls <= 4 /\
  Sail.started s = 0 /\
  (forall r, Sail.result s = Some r -> r = None) /\
  exists ls' s', forallb Sail.no_cancel ls' = true /\
                 Sail.run ls' s = Some s' /\ Sail.result s' = Some None.
Proof.
  intros Hnc Hrun.
  destruct (sail_empty_prefix ls s Hnc Hrun) as (k & Hk & ->).
  assert (k = 0 \/ k = 1 \/ k = 2 \/ k = 3 \/ k = 4) as Hcases by lia.
  destruct Hcases as [->|[->|[->|[->| ->]]]];
    simpl in Hrun; injection Hrun as <-;
    (split; [simpl; lia|]); (split; [reflexivity|]);
    (split; [intros r Hr; vm_compute in Hr; first [discriminate|congruence]|]).
  - exists sail_empty_schedule. eexists. repeat split; reflexivity.
  - exists (drop 1 sail_empty_schedule). eexists. repeat split; reflexivity.
  - exists (drop 2 sail_empty_schedule). eexists. repeat split; reflexivity.
  - exists (drop 3 sail_empty_schedule). eexists. repeat split; reflexivity.
  - exists []. eexists. repeat split; reflexivity.
Qed.

(** [Sail(ctx)] after the closing goroutine has passed [wg.Wait()]. *)
Lemma sail_empty_returns_success_witness :
  let s := sail_after [Sail.Dispatch; Sail.Closer] (Sail.init None []) in
  forallb Sail.no_cancel [Sail.Dispatch; Sail.Closer] = true /\
  Sail.run [Sail.Dispatch; Sail.Closer] (Sail.init None []) = Some s /\
  List.length [Sail.Dispatch; Sail.Closer] <= 4 /\
  Sail.started s = 0 /\
  (forall r, Sail.result s = Some r -> r = None) /\
  exists ls' s', forallb Sail.no_cancel ls' = true /\
                 Sail.run ls' s = Some s' /\ Sail.result s' = Some None.
Proof.
  intros s.
  assert (forallb Sail.no_cancel [Sail.Dispatch; Sail.Closer] = true) as H1
    by reflexivity.
  assert (Sail.run [Sail.Dispatch; Sail.Closer] (Sail.init None []) = Some s) as H2
    by (vm_compute; reflexivity).
  split; [exact H1|]. split; [exact H2|].
  exact (sail_empty_returns_success [Sail.Dispatch; Sail.Closer] s H1 H2).
Defined.

(** ** What [Sail] does keep of its contract *)

Lemma sail_cancelled_step (e : error) (l : Sail.label) (s s' : Sail.state) :
  Sail.ctx s = Some e /\ Sail.gos s = [] /\ Sail.log s = [] ->
  Sail.step l s = Some s' ->
  Sail.ctx s' = Some e /\ Sail.gos s' = [] /\ Sail.log s' = [].
Proof.
  intros (Hc & Hg & Hl) H. unfold Sail.step in H.
  destruct s as [c w x m gs cl cr lg ps]. simpl in *. subst c gs lg.
  destruct l; simpl in H; break_all H; simpl; auto.
Qed.

Lemma sail_cancelled_run (e : error) (ls : list Sail.label) (s s' : Sail.state) :
  Sail.ctx s = Some e /\ Sail.gos s = [] /\ Sail.log s = [] ->
  Sail.run ls s = Some s' ->
  Sail.ctx s' = Some e /\ Sail.gos s' = [] /\ Sail.log s' = [].
Proof.
  revert s. induction ls as [|l ls IH]; intros s H0 H; simpl in H.
  - injection H as <-. exact H0.
  - destruct (Sail.step l s) as [s1|] eqn:Hs; [|discriminate].
    exact (IH s1 (sail_cancelled_step e l s s1 H0 Hs) H).
Qed.

(** X1. When the context is cancelled before the call, no task is started,
    whatever the schedule, and what [Sail] returns is the error of the
    context or [nil]. *)
Lemma sail_cancelled_starts_nothing
      (e : error) (tasks : list Task) (ls : list Sail.label) (s : Sail.state) :
  Sail.run ls (Sail.init (Some e) tasks) = Some s ->
  Sail.started s = 0 /\
  (forall r, Sail.result s = Some r -> r = Some e \/ r = None).
Proof.
  intros H.
  pose proof (sail_inv_run ls _ s (sail_inv_init (Some e) tasks) H) as I.
  assert (Sail.ctx (Sail.init (Some e) tasks) = Some e /\
          Sail.gos (Sail.init (Some e) tasks) = [] /\
          Sail.log (Sail.init (Some e) tasks) = []) as H0 by (simpl; auto).
  destruct (sail_cancelled_run e ls _ s H0 H) as (Hc & Hg & Hl).
  split; [unfold Sail.started; rewrite Hg; reflexivity|].
  intros r Hr. unfold Sail.result in Hr.
  destruct (Sail.main s) eqn:Hm; try discriminate. injection Hr as ->.
  destruct (si_result s I r Hm) as [(-> & _)|(Hn & [Hh|Hx])]; [auto| |].
  - rewrite Hl in Hh. simpl in Hh. contradiction.
  - left. congruence.
Qed.

(** [cancel(); Sail(ctx, task, task)] of [TestSail_ContextCancel]. *)
Lemma sail_cancelled_starts_nothing_witness :
  let s := sail_after sail_cancelled_before
             (Sail.init (Some Canceled) [taskOK; taskOK]) in
  Sail.run sail_cancelled_before (Sail.init (Some Canceled) [taskOK; taskOK])
  = Some s /\
  Sail.started s = 0 /\
  (forall r, Sail.result s = Some r -> r = Some Canceled \/ r = None).
Proof.
  intros s.
  assert (Sail.run sail_cancelled_before
            (Sail.init (Some Canceled) [taskOK; taskOK]) = Some s) as H1
    by (vm_compute; reflexivity).
  split; [exact H1|].
  exact (sail_cancelled_starts_nothing Canceled [taskOK; taskOK]
           sail_cancelled_before s H1).
Defined.

(** As long as the context is not cancelled, what [Sail] returns is the first
    recorded error, and [nil] only when no error was recorded. *)
Lemma sail_failure_returned_without_cancel
      (c : option error) (tasks : list Task) (ls : list Sail.label)
      (s : Sail.state) (r : option error) :
  Sail.run ls (Sail.init c tasks) = Some s ->
  Sail.ctx s = None -> Sail.result s = Some r -> r = head (Sail.log s).
Proof.
  intros H Hc Hr.
  pose proof (sail_inv_run ls _ s (sail_inv_init c tasks) H) as I.
  unfold Sail.result in Hr.
  destruct (Sail.main s) eqn:Hm; try discriminate. injection Hr as ->.
  destruct (si_result s I r Hm) as [(-> & -> & _)|(Hn & [Hh|Hx])].
  - reflexivity.
  - exact Hh.
  - congruence.
Qed.

(** C1, on the code.  In [Sail(ctx, taskOK, taskFail, taskOK)] let [taskFail]
    return its error, so that it is recorded in the slot, and let the context
    be cancelled after that.  Both cases of the select are then ready, and
    when the runtime takes [<-ctx.Done()], [Sail] returns [context.Canceled]
    and not the recorded error. *)
Theorem sail_recorded_failure_not_returned :
  exists s1 s2,
    Sail.run sail_failure_recorded
             (Sail.init None [taskOK; taskFail expectedErr; taskOK]) = Some s1 /\
    Sail.ctx s1 = None /\
    Sail.log s1 = [expectedErr] /\
    buf (errChan (Sail.slt s1)) = [expectedErr] /\
    Sail.run [Sail.Cancel Canceled; Sail.SelectDone] s1 = Some s2 /\
    Sail.result s2 = Some (Some Canceled).
Proof.
  eexists. eexists.
  split; [vm_compute; reflexivity|].
  split; [reflexivity|]. split; [reflexivity|]. split; [reflexivity|].
  split; [vm_compute; reflexivity|]. reflexivity.
Qed.

(** C3, on the code.  Let the context be cancelled before [Sail(ctx, task,
    task)] is called.  No task is started, but when the closing goroutine
    has closed [errChan] before the select is evaluated and the runtime takes
    [<-errChan], [Sail] returns [nil]. *)
Theorem sail_cancelled_may_return_success :
  exists s,
    Sail.run sail_cancelled_before
             (Sail.init (Some Canceled) [taskOK; taskOK]) = Some s /\
    Sail.started s = 0 /\
    Sail.ctx s = Some Canceled /\
    Sail.result s = Some None.
Proof.
  eexists. split; [vm_compute; reflexivity|].
  split; [reflexivity|]. split; reflexivity.
Qed.

(** ** [NewWeaver] *)

(** C9. [NewWeaver] returns an error exactly when [concurrency <= 0]; then it
    returns no pool and has started no worker.  For every positive
    [concurrency] it returns the initialized pool, with that many workers
    started, and no error. *)
Theorem NewWeaver_error_iff (c : option error) (concurrency : Z) :
  (snd (Weaver.NewWeaver c concurrency) <> None <-> (concurrency <= 0)%Z) /\
  ((concurrency <= 0)%Z ->
     Weaver.NewWeaver c concurrency = (None, Some errConcurrency) /\
     Weaver.spawned (Weaver.NewWeaver c concurrency) = 0) /\
  ((0 < concurrency)%Z ->
     Weaver.NewWeaver c concurrency =
       (Some (Weaver.pool c (Z.to_nat concurrency)), None) /\
     Weaver.spawned (Weaver.NewWeaver c concurrency) = Z.to_nat concurrency /\
     Weaver.workers (Weaver.pool c (Z.to_nat concurrency)) =
       replicate (Z.to_nat concurrency) Weaver.WSelect /\
     cap (Weaver.taskQueue (Weaver.pool c (Z.to_nat concurrency))) =
       Z.to_nat concurrency).
Proof.
  unfold Weaver.NewWeaver, Weaver.spawned.
  destruct (Z.leb_spec concurrency 0) as [Hle|Hgt]; simpl.
  - split; [split; [intros _; exact Hle|intros _; discriminate]|].
    split; [intros _; split; reflexivity|]. intros Hpos. lia.
  - split; [split; [intros Hn; congruence|intros Hle; lia]|].
    split; [intros Hle; lia|]. intros _.
    rewrite length_replicate. repeat split; reflexivity.
Qed.

(** The calls of [TestWeaver_New_InvalidConcurrency] and of
    [TestWeaver_Success]. *)
Lemma NewWeaver_error_iff_witness :
  (Weaver.NewWeaver None 0 = (None, Some errConcurrency) /\
   Weaver.spawned (Weaver.NewWeaver None 0) = 0) /\
  (Weaver.NewWeaver None (-1) = (None, Some errConcurrency) /\
   Weaver.spawned (Weaver.NewWeaver None (-1)) = 0) /\
  (Weaver.NewWeaver None 4 = (Some (Weaver.pool None (Z.to_nat 4)), None) /\
   Weaver.spawned (Weaver.NewWeaver None 4) = Z.to_nat 4 /\
   Weaver.workers (Weaver.pool None (Z.to_nat 4)) =
     replicate (Z.to_nat 4) Weaver.WSelect /\
   cap (Weaver.taskQueue (Weaver.pool None (Z.to_nat 4))) = Z.to_nat 4).
Proof.
  split; [|split].
  - apply (NewWeaver_error_iff None 0). lia.
  - apply (NewWeaver_error_iff None (-1)). lia.
  - apply (NewWeaver_error_iff None 4). lia.
Defined.

(** ** The bound on running tasks *)

Lemma weaver_run_workers_length (ls : list Weaver.label) (s s' : Weaver.state) :
  Weaver.run ls s = Some s' ->
  List.length (Weaver.workers s') = List.length (Weaver.workers s).
Proof.
  revert s. induction ls as [|l ls IH]; intros s H; simpl in H.
  - injection H as <-. reflexivity.
  - destruct (Weaver.step l s) as [s1|] eqn:Hs; [|discriminate].
    rewrite (IH s1 H). exact (weaver_step_workers_length l s s1 Hs).
Qed.

(** C5. A pool built by [NewWeaver] with limit [concurrency] starts with
    exactly [concurrency] workers, all at the select of their loop; along
    every schedule the number of workers stays [concurrency] and the number
    of tasks in execution never exceeds it (a worker is at one program point,
    so it runs at most one task). *)
Theorem weaver_concurrency_ceiling
        (c : option error) (concurrency : Z) (w : Weaver.state)
        (ls : list Weaver.label) (s : Weaver.state) :
  Weaver.NewWeaver c concurrency = (Some w, None) ->
  Weaver.run ls w = Some s ->
  Weaver.workers w = replicate (Z.to_nat concurrency) Weaver.WSelect /\
  List.length (Weaver.workers s) = Z.to_nat concurrency /\
  (Z.of_nat (Weaver.running s) <= concurrency)%Z.
Proof.
  intros Hnew Hrun. unfold Weaver.NewWeaver in Hnew.
  destruct (Z.leb_spec concurrency 0) as [Hle|Hgt]; [discriminate|].
  injection Hnew as <-.
  pose proof (weaver_run_workers_length ls _ s Hrun) as Hlen.
  simpl in Hlen. rewrite length_replicate in Hlen.
  split; [reflexivity|]. split; [exact Hlen|].
  unfold Weaver.running.
  pose proof (count_le_length Weaver.is_running (Weaver.workers s)). lia.
Qed.

(** A pool of two workers after one task has run. *)
Lemma weaver_concurrency_ceiling_witness :
  let s := weaver_after weaver_failure_recorded (Weaver.pool None 2) in
  Weaver.NewWeaver None 2 = (Some (Weaver.pool None 2), None) /\
  Weaver.run weaver_failure_recorded (Weaver.pool None 2) = Some s /\
  Weaver.workers (Weaver.pool None 2) = replicate (Z.to_nat 2) Weaver.WSelect /\
  List.length (Weaver.workers s) = Z.to_nat 2 /\
  (Z.of_nat (Weaver.running s) <= 2)%Z.
Proof.
  intros s.
  assert (Weaver.NewWeaver None 2 = (Some (Weaver.pool None 2), None)) as H1
    by reflexivity.
  assert (Weaver.run weaver_failure_recorded (Weaver.pool None 2) = Some s) as H2
    by (vm_compute; reflexivity).
  split; [exact H1|]. split; [exact H2|].
  exact (weaver_concurrency_ceiling None 2 (Weaver.pool None 2)
           weaver_failure_recorded s H1 H2).
Defined.

(** ** [Add] on a closed pool *)

Lemma weaver_add_closed_step (l : Weaver.label) (s s' : Weaver.state)
      (j : nat) (t : Task) :
  Weaver.isClosed s = true ->
  Weaver.calls s !! j = Some (Weaver.AddLoad t) \/
  Weaver.calls s !! j = Some (Weaver.AddReturn (Some errClosed)) ->
  Weaver.step l s = Some s' ->
  Weaver.calls s' !! j = Some (Weaver.AddLoad t) \/
  Weaver.calls s' !! j = Some (Weaver.AddReturn (Some errClosed)).
Proof.
  intros Hc Hj H.
  assert (l <> Weaver.Caller j ->
          Weaver.calls s' !! j = Some (Weaver.AddLoad t) \/
          Weaver.calls s' !! j = Some (Weaver.AddReturn (Some errClosed))) as Hother.
  { intros Hl. destruct Hj as [Hj|Hj];
      [left|right]; exact (weaver_step_calls_other l s s' j _ H Hl Hj). }
  destruct l as [e|k|k|k|t'| |k]; try (apply Hother; discriminate).
  destruct (decide (k = j)) as [->|Hne]; [|apply Hother; congruence].
  unfold Weaver.step, Weaver.caller, Weaver.Add in H.
  destruct (Weaver.crashed s); [discriminate|].
  destruct Hj as [Hj|Hj]; rewrite Hj in H; [|discriminate].
  rewrite Hc in H. injection H as <-. right. simpl.
  apply list_lookup_insert_eq. apply lookup_lt_Some in Hj. exact Hj.
Qed.

Lemma weaver_add_closed_run (ls : list Weaver.label) (s s' : Weaver.state)
      (j : nat) (t : Task) :
  Weaver.isClosed s = true ->
  Weaver.calls s !! j = Some (Weaver.AddLoad t) \/
  Weaver.calls s !! j = Some (Weaver.AddReturn (Some errClosed)) ->
  Weaver.run ls s = Some s' ->
  Weaver.isClosed s' = true /\
  (Weaver.calls s' !! j = Some (Weaver.AddLoad t) \/
   Weaver.calls s' !! j = Some (Weaver.AddReturn (Some errClosed))).
Proof.
  revert s. induction ls as [|l ls IH]; intros s Hc Hj H; simpl in H.
  - injection H as <-. auto.
  - destruct (Weaver.step l s) as [s1|] eqn:Hs; [|discriminate].
    apply (IH s1); [|exact (weaver_add_closed_step l s s1 j t Hc Hj Hs)|exact H].
    exact (weaver_step_isClosed l s s1 Hs Hc).
Qed.

(** X2. A call of [Add] that had passed its test of [isClosed] before the
    draining began and stands at its send when the queue is closed does not
    stay blocked: the send panics, [Add] recovers and returns its second
    error. *)
Lemma weaver_add_send_closed
      (c : option error) (n : nat) (ls : list Weaver.label) (s : Weaver.state)
      (j : nat) (t : Task) :
  Weaver.run ls (Weaver.pool c n) = Some s ->
  Weaver.calls s !! j = Some (Weaver.AddSend t) ->
  closed (Weaver.taskQueue s) = true ->
  exists s', Weaver.step (Weaver.Caller j) s = Some s' /\
             Weaver.crashed s' = false /\
             Weaver.calls s' !! j = Some (Weaver.AddReturn (Some errCannotAdd)).
Proof.
  intros H Hj Hq.
  pose proof (weaver_inv_run ls _ s (weaver_inv_pool c n) H) as I.
  assert (Weaver.step (Weaver.Caller j) s =
          Some (Weaver.set_call j (Weaver.AddReturn (Some errCannotAdd)) s)) as Hs.
  { unfold Weaver.step, Weaver.caller, Weaver.Add, chan_send.
    rewrite (wi_crashed s I), Hj, Hq. reflexivity. }
  eexists. split; [exact Hs|]. split.
  - exact (wi_crashed _ (weaver_inv_step _ _ _ I Hs)).
  - simpl. apply list_lookup_insert_eq. apply lookup_lt_Some in Hj. exact Hj.
Qed.

(** A call of [w.Add] that stands at its send when [w.Wait] closes the
    queue. *)
Lemma weaver_add_send_closed_witness :
  let s := weaver_after weaver_add_meets_close (Weaver.pool None 1) in
  Weaver.run weaver_add_meets_close (Weaver.pool None 1) = Some s /\
  Weaver.calls s !! 0 = Some (Weaver.AddSend taskOK) /\
  closed (Weaver.taskQueue s) = true /\
  exists s', Weaver.step (Weaver.Caller 0) s = Some s' /\
             Weaver.crashed s' = false /\
             Weaver.calls s' !! 0 = Some (Weaver.AddReturn (Some errCannotAdd)).
Proof.
  intros s.
  assert (Weaver.run weaver_add_meets_close (Weaver.pool None 1) = Some s) as H1
    by (vm_compute; reflexivity).
  assert (Weaver.calls s !! 0 = Some (Weaver.AddSend taskOK)) as H2
    by (vm_compute; reflexivity).
  assert (closed (Weaver.taskQueue s) = true) as H3 by (vm_compute; reflexivity).
  split; [exact H1|]. split; [exact H2|]. split; [exact H3|].
  exact (weaver_add_send_closed None 1 weaver_add_meets_close s 0 taskOK H1 H2 H3).
Defined.

(** C4. Let a call [w.Add(t)] be made on a pool whose draining has begun (the
    flag [isClosed] is set).  Whatever the other goroutines do meanwhile, the
    call is either still at its first statement or has returned the error
    "weave: weaver is closed"; it never reaches the send on the queue, the
    only place where [Add] can block or panic.  At its first statement its
    step can always be taken, it returns that error, and the program has not
    crashed. *)
Theorem Add_after_drain_fails
        (c : option error) (n : nat) (ls0 : list Weaver.label) (s : Weaver.state)
        (t : Task) (ls : list Weaver.label) (s' : Weaver.state) :
  Weaver.run ls0 (Weaver.pool c n) = Some s ->
  Weaver.isClosed s = true ->
  Weaver.run (Weaver.CallAdd t :: ls) s = Some s' ->
  let j := List.length (Weaver.calls s) in
  Weaver.calls s' !! j = Some (Weaver.AddReturn (Some errClosed)) \/
  (Weaver.calls s' !! j = Some (Weaver.AddLoad t) /\
   exists s'', Weaver.step (Weaver.Caller j) s' = Some s'' /\
               Weaver.crashed s'' = false /\
               Weaver.calls s'' !! j = Some (Weaver.AddReturn (Some errClosed))).
Proof.
  intros Hreach Hc Hrun j.
  pose proof (weaver_inv_run ls0 _ s (weaver_inv_pool c n) Hreach) as I.
  pose proof (weaver_inv_run _ s s' I Hrun) as I'.
  simpl in Hrun. unfold Weaver.step in Hrun at 1.
  rewrite (wi_crashed s I) in Hrun.
  set (s1 := Weaver.set_calls (Weaver.calls s ++ [Weaver.AddLoad t]) s) in Hrun.
  assert (Weaver.calls s1 !! j = Some (Weaver.AddLoad t)) as Hj.
  { simpl. unfold j. rewrite lookup_app_r by lia.
    rewrite Nat.sub_diag. reflexivity. }
  destruct (weaver_add_closed_run ls s1 s' j t Hc (or_introl Hj) Hrun) as [Hc' [Hl|Hr]].
  - right. split; [exact Hl|].
    assert (Weaver.step (Weaver.Caller j) s' =
            Some (Weaver.set_call j (Weaver.AddReturn (Some errClosed)) s')) as Hs.
    { unfold Weaver.step, Weaver.caller, Weaver.Add.
      rewrite (wi_crashed s' I'), Hl, Hc'. reflexivity. }
    eexists. split; [exact Hs|]. split.
    + exact (wi_crashed _ (weaver_inv_step _ _ _ I' Hs)).
    + simpl. apply list_lookup_insert_eq. apply lookup_lt_Some in Hl. exact Hl.
  - left. exact Hr.
Qed.

(** [w.Add] called right after a call of [w.Wait] has won the
    compare-and-swap. *)
Lemma Add_after_drain_fails_witness :
  let s := weaver_after weaver_drain_begun (Weaver.pool None 1) in
  let s' := weaver_after [Weaver.CallAdd taskOK] s in
  Weaver.run weaver_drain_begun (Weaver.pool None 1) = Some s /\
  Weaver.isClosed s = true /\
  Weaver.run [Weaver.CallAdd taskOK] s = Some s' /\
  (Weaver.calls s' !! 1 = Some (Weaver.AddReturn (Some errClosed)) \/
   (Weaver.calls s' !! 1 = Some (Weaver.AddLoad taskOK) /\
    exists s'', Weaver.step (Weaver.Caller 1) s' = Some s'' /\
                Weaver.crashed s'' = false /\
                Weaver.calls s'' !! 1 = Some (Weaver.AddReturn (Some errClosed)))).
Proof.
  intros s s'.
  assert (Weaver.run weaver_drain_begun (Weaver.pool None 1) = Some s) as H1
    by (vm_compute; reflexivity).
  assert (Weaver.isClosed s = true) as H2 by (vm_compute; reflexivity).
  assert (Weaver.run [Weaver.CallAdd taskOK] s = Some s') as H3
    by (vm_compute; reflexivity).
  split; [exact H1|]. split; [exact H2|]. split; [exact H3|].
  exact (Add_after_drain_fails None 1 weaver_drain_begun s taskOK [] s' H1 H2 H3).
Defined.

(** ** Cancellation and the workers *)





(** ** What all calls of [Wait] agree on *)

Lemma weaver_same_pool (c : option error) (n : nat) : weaver_same (Weaver.pool c n).
Proof. split; intros j c0; simpl; intros; discriminate. Qed.

Ltac same_values Sv :=
  let k := fresh "k" in let c0 := fresh "c0" in let r0 := fresh "r0" in
  let Hk := fresh "Hk" in let Hv := fresh "Hv" in
  intros k c0 r0 Hk Hv; apply lookup_insert_cases in Hk;
  destruct Hk as [[-> ->]|[_ Hk]];
  [simpl in Hv; try discriminate Hv; try (injection Hv as <-)
  |try exact (Sv k c0 r0 Hk Hv)].

Ltac same_frozen Sf :=
  let k := fresh "k" in let c0 := fresh "c0" in
  let Hk := fresh "Hk" in let Hv := fresh "Hv" in
  intros k c0 Hk Hv; apply lookup_insert_cases in Hk;
  destruct Hk as [[-> ->]|[_ Hk]];
  [simpl in Hv; try discriminate Hv
  |try exact (Sf k c0 Hk Hv)].

Lemma weaver_same_step (l : Weaver.label) (s s' : Weaver.state) :
  weaver_inv s -> weaver_same s -> Weaver.step l s = Some s' -> weaver_same s'.
Proof.
  intros I [Sv Sf] H.
  pose proof (weaver_live_open s) as Hopen. specialize (fun i p => Hopen i p I).
  destruct I as [Icr Iwg Iwin Iph Iop Iec Islot Ifin Ival Ipan].
  unfold frozen in *.
  destruct s as [c w x q ic fe ws cs cr lg ps bg]. simpl in *. subst cr.
  unfold Weaver.step in H. simpl in H.
  destruct l as [e|i|i|i|t| |j].
  - (* Cancel *)
    break_all H. split; simpl; auto.
  - (* Pull *)
    unfold Weaver.worker_select in H. simpl in H.
    break_all H; split; simpl; auto.
  - (* Quit *)
    unfold Weaver.worker_select in H. simpl in H.
    break_all H. split; simpl; auto.
  - (* Work *)
    unfold Weaver.worker, Weaver.execute in H. simpl in H.
    destruct (ws !! i) as [p|] eqn:Hi; [|discriminate].
    destruct p as [|t|t| |]; try discriminate.
    + break_all H; split; simpl; auto.
    + specialize (Hopen i _ Hi eq_refl).
      unfold Weaver.finish in H.
      destruct x as [on [cp bf co]]. unfold sendErr, chan_send in H.
      simpl in *. subst co.
      assert (on = false -> forall k c0, cs !! k = Some c0 ->
                                          loser_read c0 = true -> False) as Hno.
      { intros -> k c0 Hk Hc0. destruct (Sf k c0 Hk Hc0) as [?|[? _]]; discriminate. }
      destruct on; break_all H; split; simpl; auto;
        intros k c0 Hk Hc0; destruct (Hno eq_refl k c0 Hk Hc0).
    + break_all H; split; simpl; auto.
  - (* CallAdd *)
    injection H as <-. split; simpl.
    + intros k c0 r Hk Hv. apply lookup_snoc_cases in Hk.
      destruct Hk as [Hk| ->]; [exact (Sv k c0 r Hk Hv)|discriminate].
    + intros k c0 Hk Hv. apply lookup_snoc_cases in Hk.
      destruct Hk as [Hk| ->]; [exact (Sf k c0 Hk Hv)|discriminate].
  - (* CallWait *)
    injection H as <-. split; simpl.
    + intros k c0 r Hk Hv. apply lookup_snoc_cases in Hk.
      destruct Hk as [Hk| ->]; [exact (Sv k c0 r Hk Hv)|discriminate].
    + intros k c0 Hk Hv. apply lookup_snoc_cases in Hk.
      destruct Hk as [Hk| ->]; [exact (Sf k c0 Hk Hv)|discriminate].
  - (* Caller *)
    unfold Weaver.caller, Weaver.Add, Weaver.Wait in H. simpl in H.
    destruct (cs !! j) as [p|] eqn:Hj; [|discriminate].
    assert (count winner cs <= 1) as Hle by (rewrite Iwin; destruct ic; simpl; lia).
    pose proof (fun k c0 Hk Hc0 HP => count_unique winner cs k j c0 p Hle Hk Hc0 Hj HP)
      as Huniq.
    destruct p.
    + (* Add: load *)
      break_all H; split; simpl; [same_values Sv|same_frozen Sf|same_values Sv|same_frozen Sf].
    + (* Add: send *)
      unfold chan_send in H.
      break_all H; split; simpl;
        [same_values Sv|same_frozen Sf|same_values Sv|same_frozen Sf].
    + discriminate.
    + (* Wait: load *)
      break_all H; split; simpl; [same_values Sv|same_frozen Sf|same_values Sv|same_frozen Sf].
    + (* Wait: compare-and-swap *)
      break_all H; split; simpl; [same_values Sv|same_frozen Sf|same_values Sv|same_frozen Sf].
    + (* Wait, losing: receive *)
      destruct x as [on [cp bf co]]. unfold chan_recv in H.
      destruct Islot as [Hcap Hlog]. simpl in *.
      destruct bf as [|e bf].
      * destruct co; [|discriminate]. injection H as <-.
        split; simpl; [same_values Sv|]. intros; left; reflexivity.
      * injection H as <-.
        destruct lg as [|e0 l0]; [destruct Hlog; discriminate|].
        destruct Hlog as [Hon [[= -> ->]|?]]; [|discriminate].
        split; simpl; [same_values Sv|]. intros; right; auto.
    + (* Wait, losing: read of finalErr *)
      injection H as <-. split; simpl.
      * same_values Sv. reflexivity.
      * same_frozen Sf. exact (Sf j _ Hj eq_refl).
    + (* Wait, winning: close(w.taskQueue) *)
      unfold chan_close in H. destruct (Iph j _ Hj eq_refl) as (Hq & _).
      simpl in Hq. rewrite Hq in H. injection H as <-.
      split; simpl; [same_values Sv|same_frozen Sf].
    + (* Wait, winning: w.wg.Wait() *)
      break_all H. split; simpl; [same_values Sv|same_frozen Sf].
    + (* Wait, winning: select *)
      destruct (Iph j _ Hj eq_refl) as (_ & Hx & _). simpl in Hx.
      destruct x as [on [cp bf co]]. unfold chan_recv in H. simpl in *. subst co.
      destruct bf as [|e bf].
      * injection H as <-. split; simpl; [|same_frozen Sf].
        same_values Sv. reflexivity.
      * injection H as <-.
        assert (forall k c0, cs !! k = Some c0 -> loser_read c0 = true -> False) as Hno.
        { intros k c0 Hk Hc0. destruct (Sf k c0 Hk Hc0) as [?|[_ ?]]; discriminate. }
        split; simpl.
        -- intros k c0 r Hk Hv. apply lookup_insert_cases in Hk.
           destruct Hk as [[-> ->]|[Hne Hk]]; [simpl in Hv; congruence|].
           exfalso. destruct c0; try discriminate Hv.
           ++ exact (Hne (Huniq k _ Hk eq_refl eq_refl)).
           ++ exact (Hne (Huniq k _ Hk eq_refl eq_refl)).
           ++ destruct closer.
              ** exact (Hne (Huniq k _ Hk eq_refl eq_refl)).
              ** exact (Hno k _ Hk eq_refl).
        -- intros k c0 Hk Hc0. apply lookup_insert_cases in Hk.
           destruct Hk as [[-> ->]|[_ Hk]]; [discriminate|].
           destruct (Hno k c0 Hk Hc0).
    + (* Wait, winning, deferred: w.cancel() *)
      injection H as <-. unfold Weaver.cancel. simpl.
      destruct c; split; simpl; [same_values Sv|same_frozen Sf|same_values Sv|same_frozen Sf];
        exact (Sv j _ _ Hj eq_refl).
    + (* Wait, winning, deferred: close(w.errChan) *)
      destruct (Iph j _ Hj eq_refl) as (_ & Hx & _). simpl in Hx.
      destruct x as [on [cp bf co]]. unfold chan_close in H. simpl in *. subst co.
      injection H as <-. split; simpl.
      * same_values Sv. exact (Sv j _ _ Hj eq_refl).
      * intros; left; reflexivity.
    + discriminate.
Qed.

Lemma weaver_same_run (ls : list Weaver.label) (s s' : Weaver.state) :
  weaver_inv s -> weaver_same s -> Weaver.run ls s = Some s' -> weaver_same s'.
Proof.
  revert s. induction ls as [|l ls IH]; intros s I S H; simpl in H.
  - injection H as <-. exact S.
  - destruct (Weaver.step l s) as [s1|] eqn:Hs; [|discriminate].
    apply (IH s1); [|exact (weaver_same_step l s s1 I S Hs)|exact H].
    exact (weaver_inv_step l s s1 I Hs).
Qed.

(** X3. The part of the contract of [Wait] that the code keeps: along every
    schedule of a pool at most one call of [Wait] is the closer, and all the
    calls of [Wait] that have returned have returned the same value, which is
    [nil] or the first recorded error. *)
Lemma weaver_wait_results_agree
      (c : option error) (n : nat) (ls : list Weaver.label) (s : Weaver.state) :
  Weaver.run ls (Weaver.pool c n) = Some s ->
  count winner (Weaver.calls s) <= 1 /\
  (forall j k b b' r r',
      Weaver.calls s !! j = Some (Weaver.WaitReturn b r) ->
      Weaver.calls s !! k = Some (Weaver.WaitReturn b' r') ->
      r = r' /\ (r = None \/ r = head (Weaver.log s))).
Proof.
  intros H.
  pose proof (weaver_inv_run ls _ s (weaver_inv_pool c n) H) as I.
  pose proof (weaver_same_run ls _ s (weaver_inv_pool c n) (weaver_same_pool c n) H)
    as S.
  split.
  - rewrite (wi_win s I). destruct (Weaver.isClosed s); simpl; lia.
  - intros j k b b' r r' Hj Hk.
    rewrite (ws_values s S j _ r Hj eq_refl), (ws_values s S k _ r' Hk eq_refl).
    split; [reflexivity|]. exact (wi_final s I).
Qed.

(** The two calls of [w.Wait()] in [TestWeaver_Wait_Idempotent]. *)
Lemma weaver_wait_results_agree_witness :
  let s := weaver_after weaver_wait_twice (Weaver.pool None 1) in
  Weaver.run weaver_wait_twice (Weaver.pool None 1) = Some s /\
  count winner (Weaver.calls s) <= 1 /\
  (forall j k b b' r r',
      Weaver.calls s !! j = Some (Weaver.WaitReturn b r) ->
      Weaver.calls s !! k = Some (Weaver.WaitReturn b' r') ->
      r = r' /\ (r = None \/ r = head (Weaver.log s))).
Proof.
  intros s.
  assert (Weaver.run weaver_wait_twice (Weaver.pool None 1) = Some s) as H1
    by (vm_compute; reflexivity).
  split; [exact H1|].
  exact (weaver_wait_results_agree None 1 weaver_wait_twice s H1).
Defined.

(** C2, on the code.  A pool of two workers runs one task, which fails; the
    error is recorded in the slot.  Then two goroutines call [Wait].  The
    losing call receives from [errChan] before the winning call has come to
    its select, takes the recorded error out of the channel and drops it;
    both calls return [nil]. *)
Theorem weaver_concurrent_wait_loses_failure :
  exists s1 s2,
    Weaver.NewWeaver None 2 = (Some (Weaver.pool None 2), None) /\
    Weaver.run weaver_failure_recorded (Weaver.pool None 2) = Some s1 /\
    Weaver.log s1 = [expectedErr] /\
    buf (errChan (Weaver.slt s1)) = [expectedErr] /\
    Weaver.run weaver_two_waits s1 = Some s2 /\
    Weaver.log s2 = [expectedErr] /\
    Weaver.crashed s2 = false /\
    Weaver.calls s2 = [Weaver.AddReturn None;
                       Weaver.WaitReturn true None;
                       Weaver.WaitReturn false None].
Proof.
  eexists. eexists. split; [reflexivity|].
  split; [vm_compute; reflexivity|].
  split; [reflexivity|]. split; [reflexivity|].
  split; [vm_compute; reflexivity|].
  split; [reflexivity|]. split; reflexivity.
Qed.

(** ** Weights *)

Lemma total_app {A : Type} (w : A -> nat) (l1 l2 : list A) :
  total w (l1 ++ l2) = total w l1 + total w l2.
Proof.
  induction l1 as [|x l1 IH]; simpl; [reflexivity|]. rewrite IH. lia.
Qed.

Lemma total_insert {A : Type} (w : A -> nat) (l : list A) (i : nat) (x y : A) :
  l !! i = Some x -> total w (<[i := y]> l) + w x = total w l + w y.
Proof.
  revert i. induction l as [|a l IH]; intros i Hi; [discriminate|].
  destruct i as [|i]; simpl in *.
  - injection Hi as ->. lia.
  - specialize (IH i Hi). lia.
Qed.

Lemma total_zero {A : Type} (w : A -> nat) (l : list A) (i : nat) (x : A) :
  total w l = 0 -> l !! i = Some x -> w x = 0.
Proof.
  revert i. induction l as [|a l IH]; intros i H0 Hi; [discriminate|].
  simpl in H0. destruct i as [|i]; simpl in Hi.
  - injection Hi as ->. lia.
  - apply (IH i); [lia|exact Hi].
Qed.

Lemma total_pos {A : Type} (w : A -> nat) (l : list A) :
  0 < total w l -> exists i x, l !! i = Some x /\ 0 < w x.
Proof.
  induction l as [|a l IH]; simpl; intros H; [lia|].
  destruct (w a) as [|n] eqn:Ha.
  - destruct (IH H) as (i & x & Hi & Hx). exists (S i), x. auto.
  - exists 0, a. split; [reflexivity|lia].
Qed.

(** ** [Sail] and its task list *)

Lemma sail_more_init (c : option error) (tasks : list Task) :
  sail_more tasks (Sail.init c tasks).
Proof.
  split; simpl; try discriminate.
  - unfold Sail.started. simpl. lia.
  - intros _. unfold Sail.started. simpl. lia.
  - intros rest t [= <-] Ht. exact Ht.
Qed.

Lemma sendErr_closed (x : slot) (e : error) :
  closed (errChan x) = true ->
  match sendErr x e with
  | SendOk x' | SendPanics x' => closed (errChan x') = true
  | SendBlocks => True
  end.
Proof.
  intros H. unfold sendErr, chan_send. rewrite H.
  destruct (once x); simpl; exact H.
Qed.

Ltac sm_split :=
  split; unfold Sail.started; simpl; rewrite ?length_app, ?length_insert; simpl.

Lemma sail_more_step (tasks : list Task) (l : Sail.label) (s s' : Sail.state) :
  sail_more tasks s -> Sail.step l s = Some s' -> sail_more tasks s'.
Proof.
  intros [Mc Me Mr Mf Mn] H. unfold Sail.step in H.
  unfold Sail.started in *.
  destruct s as [c w x m gs cl cr lg ps]. simpl in *.
  destruct cr; [discriminate|].
  destruct l.
  - (* Cancel *)
    break_all H. sm_split; auto; try discriminate.
  - (* Dispatch *)
    destruct m as [[|t rest]| |]; try discriminate.
    + injection H as <-. sm_split; simpl in *; auto; try lia; try discriminate.
    + assert (forall t', t' ∈ rest -> t' ∈ tasks) as Hrest.
      { intros t' Ht'. apply (Mr (t :: rest) t' eq_refl). apply elem_of_cons. auto. }
      assert (t ∈ tasks) as Ht.
      { apply (Mr (t :: rest) t eq_refl). apply elem_of_cons. auto. }
      simpl in *. break_all H; sm_split; try lia; try discriminate; auto.
      all: try (intros rest' t' [= <-]; apply Hrest).
      * intros _. specialize (Me eq_refl). lia.
      * intros i t' Hi. apply lookup_snoc_cases in Hi.
        destruct Hi as [Hi|[= <-]]; [exact (Mf i t' Hi)|exact Ht].
  - (* SelectErr *)
    destruct m; try discriminate.
    destruct x as [on [cp bf co]]. unfold chan_recv in H. simpl in *.
    destruct bf as [|e bf].
    + destruct co; [|discriminate]. injection H as <-.
      sm_split; auto; try discriminate.
    + injection H as <-. sm_split; auto; try discriminate.
  - (* SelectDone *)
    break_all H. sm_split; auto; try discriminate.
  - (* Go *)
    destruct (gs !! i) as [g|] eqn:Hi; [|discriminate].
    assert (forall g', (forall t, g' <> Sail.GRun t) ->
              forall k t, <[i := g']> gs !! k = Some (Sail.GRun t) -> t ∈ tasks) as Hf.
    { intros g' Hg' k t Hk. apply lookup_insert_cases in Hk.
      destruct Hk as [[_ Hk]|[_ Hk]]; [|exact (Mf k t Hk)].
      destruct (Hg' t). congruence. }
    destruct g as [t| |]; [| |discriminate].
    + unfold Sail.finish in H.
      destruct (t c) as [[e|]|p]; simpl in H.
      * pose proof (fun Hc => sendErr_closed x e Hc) as Hcl.
        destruct (sendErr x e); cbv beta iota in H; [| discriminate H |]; injection H as <-;
          sm_split; auto; try (apply Hf; intros; discriminate).
      * injection H as <-.
        sm_split; auto; apply Hf; intros; discriminate.
      * pose proof (fun Hc => sendErr_closed x (panicError p) Hc) as Hcl.
        destruct (sendErr x (panicError p)); cbv beta iota in H;
          [| discriminate H |]; injection H as <-;
          sm_split; auto; try (apply Hf; intros; discriminate).
    + break_all H; sm_split; auto; apply Hf; intros; discriminate.
  - (* Closer *)
    unfold chan_close in H.
    destruct cl; try discriminate.
    + break_all H. sm_split; auto.
    + destruct (closed (errChan x)) eqn:Hco; injection H as <-; sm_split; auto.
Qed.

Lemma sail_more_run (tasks : list Task) (ls : list Sail.label) (s s' : Sail.state) :
  sail_more tasks s -> Sail.run ls s = Some s' -> sail_more tasks s'.
Proof.
  revert s. induction ls as [|l ls IH]; intros s M H; simpl in H.
  - injection H as <-. exact M.
  - destruct (Sail.step l s) as [s1|] eqn:Hs; [|discriminate].
    exact (IH s1 (sail_more_step tasks l s s1 M Hs) H).
Qed.

(** ** [Sail]: success, dispatch and cancellation *)

Lemma sail_all_exited (s : Sail.state) :
  sail_inv s -> Sail.wg s = 0 ->
  forall i g, Sail.gos s !! i = Some g -> g = Sail.GExit.
Proof. intros I H0 i g Hi. exact (sail_live_zero s i g I H0 Hi). Qed.



Lemma sail_quiet_step (tasks : list Task) (l : Sail.label) (s s' : Sail.state) :
  (forall t, t ∈ tasks -> forall c, t c = Return None) ->
  sail_more tasks s -> Sail.log s = [] /\ Sail.panics s = [] ->
  Sail.step l s = Some s' -> Sail.log s' = [] /\ Sail.panics s' = [].
Proof.
  intros Hok M [Hl Hp] H. unfold Sail.step in H.
  destruct (Sail.crashed s); [discriminate|].
  destruct l; try (break_all H; simpl; auto; fail).
  destruct (Sail.gos s !! i) as [g|] eqn:Hi; [|discriminate].
  destruct g as [t| |]; [| |discriminate].
  - rewrite (Hok t (sm_from tasks s M i t Hi)) in H. simpl in H.
    injection H as <-. simpl. auto.
  - break_all H; simpl; auto.
Qed.

Lemma sail_quiet_run (tasks : list Task) (ls : list Sail.label) (s s' : Sail.state) :
  (forall t, t ∈ tasks -> forall c, t c = Return None) ->
  sail_more tasks s -> Sail.log s = [] /\ Sail.panics s = [] ->
  Sail.run ls s = Some s' -> Sail.log s' = [] /\ Sail.panics s' = [].
Proof.
  intros Hok. revert s. induction ls as [|l ls IH]; intros s M Q H; simpl in H.
  - injection H as <-. exact Q.
  - destruct (Sail.step l s) as [s1|] eqn:Hs; [|discriminate].
    apply (IH s1); [exact (sail_more_step tasks l s s1 M Hs)| |exact H].
    exact (sail_quiet_step tasks l s s1 Hok M Q Hs).
Qed.

(** X5. When every task of the list succeeds, nothing is ever recorded in the
    slot, and what [Sail] returns is [nil] or the error of the context; if the
    context is not cancelled it returns [nil], with every task of the list
    started (the counter of [TestSail_Success]). *)
Theorem sail_all_succeed
        (c : option error) (tasks : list Task) (ls : list Sail.label)
        (s : Sail.state) (r : option error) :
  (forall t, t ∈ tasks -> forall c', t c' = Return None) ->
  Sail.run ls (Sail.init c tasks) = Some s ->
  Sail.result s = Some r ->
  Sail.log s = [] /\ Sail.panics s = [] /\
  (r = None \/ r = Sail.ctx s) /\
  (Sail.ctx s = None -> r = None /\ Sail.started s = List.length tasks).
Proof.
  intros Hok H Hr.
  pose proof (sail_inv_run ls _ s (sail_inv_init c tasks) H) as I.
  pose proof (sail_more_run tasks ls _ s (sail_more_init c tasks) H) as M.
  destruct (sail_quiet_run tasks ls _ s Hok (sail_more_init c tasks)
              (conj eq_refl eq_refl) H) as [Hl Hp].
  unfold Sail.result in Hr.
  destruct (Sail.main s) as [| |r0] eqn:Hm; try discriminate. injection Hr as ->.
  assert (r = None \/ r = Sail.ctx s) as Hres.
  { destruct (si_result s I r Hm) as [(-> & _)|(Hn & [Hh|Hx])]; auto.
    rewrite Hl in Hh. simpl in Hh. auto. }
  split; [exact Hl|]. split; [exact Hp|]. split; [exact Hres|].
  intros Hc. split.
  - destruct Hres as [?|?]; congruence.
  - pose proof (sm_exact tasks s M Hc) as He. rewrite Hm in He. simpl in He. lia.
Qed.

(** [Sail(ctx, taskOK, taskOK)] of [TestSail_Success]. *)
Lemma sail_all_succeed_witness :
  let s := sail_after sail_two_succeed (Sail.init None [taskOK; taskOK]) in
  (forall t, t ∈ [taskOK; taskOK] -> forall c', t c' = Return None) /\
  Sail.run sail_two_succeed (Sail.init None [taskOK; taskOK]) = Some s /\
  Sail.result s = Some None /\
  Sail.log s = [] /\ Sail.panics s = [] /\
  (@None error = None \/ None = Sail.ctx s) /\
  (Sail.ctx s = None ->
   @None error = None /\ Sail.started s = List.length [taskOK; taskOK]).
Proof.
  intros s.
  assert (forall t, t ∈ [taskOK; taskOK] -> forall c', t c' = Return None) as H0.
  { intros t Ht c'. apply elem_of_cons in Ht. destruct Ht as [->|Ht]; [reflexivity|].
    apply list_elem_of_singleton in Ht. subst t. reflexivity. }
  assert (Sail.run sail_two_succeed (Sail.init None [taskOK; taskOK]) = Some s)
    as H1 by (vm_compute; reflexivity).
  assert (Sail.result s = Some None) as H2 by (vm_compute; reflexivity).
  split; [exact H0|]. split; [exact H1|]. split; [exact H2|].
  exact (sail_all_succeed None [taskOK; taskOK] sail_two_succeed s None H0 H1 H2).
Defined.






(** ** [Sail] cannot deadlock *)

Lemma sail_weight_live (l : list Sail.go_pc) :
  total sail_go_weight l = 0 -> count sail_live l = 0.
Proof.
  induction l as [|g l IH]; simpl; [reflexivity|].
  destruct g; simpl; intros H; lia.
Qed.

Lemma sail_go_progress (s : Sail.state) (i : nat) (g : Sail.go_pc) :
  sail_inv s -> Sail.gos s !! i = Some g -> 0 < sail_go_weight g ->
  exists s', Sail.step (Sail.Go i) s = Some s' /\
             Sail.main s' = Sail.main s /\ Sail.closer s' = Sail.closer s /\
             total sail_go_weight (Sail.gos s') + 1 =
             total sail_go_weight (Sail.gos s).
Proof.
  intros I Hi Hg.
  assert (sail_live g = true) as Hlive by (destruct g; simpl in *; [auto|auto|lia]).
  pose proof (sail_live_open s i g I Hi Hlive) as Hco.
  pose proof (total_insert sail_go_weight (Sail.gos s) i g) as Hins.
  unfold Sail.step. rewrite (si_crashed s I), Hi.
  destruct g as [t| |]; [| |simpl in Hg; lia].
  - specialize (Hins Sail.GDefer Hi). simpl in Hins.
    unfold Sail.finish. destruct (t (Sail.ctx s)) as [[e|]|p].
    + destruct (slot_ok_send_ready _ _ e (si_slot s I) Hco) as [x' ->].
      eexists. split; [reflexivity|]. simpl. repeat split; lia.
    + eexists. split; [reflexivity|]. simpl. repeat split; lia.
    + destruct (slot_ok_send_ready _ _ (panicError p) (si_slot s I) Hco) as [x' ->].
      eexists. split; [reflexivity|]. simpl. repeat split; lia.
  - specialize (Hins Sail.GExit Hi). simpl in Hins.
    destruct (Sail.wg s) as [|n] eqn:Hw.
    + pose proof (sail_live_zero s i _ I Hw Hi). discriminate.
    + simpl. eexists. split; [reflexivity|]. simpl. repeat split; lia.
Qed.

Lemma sail_progress (s : Sail.state) :
  sail_inv s -> 0 < sail_weight s ->
  exists l s', Sail.no_cancel l = true /\ Sail.step l s = Some s' /\
               sail_weight s' < sail_weight s.
Proof.
  intros I Hpos.
  assert (sail_in_loop (Sail.main s) = false ->
          0 < total sail_go_weight (Sail.gos s) ->
          exists l s', Sail.no_cancel l = true /\ Sail.step l s = Some s' /\
                       sail_weight s' < sail_weight s) as Hgo.
  { intros _ Ht. destruct (total_pos _ _ Ht) as (i & g & Hi & Hg).
    destruct (sail_go_progress s i g I Hi Hg) as (s' & Hs & Hm & Hc & Hw).
    exists (Sail.Go i), s'. split; [reflexivity|]. split; [exact Hs|].
    unfold sail_weight. rewrite Hm, Hc. lia. }
  assert (total sail_go_weight (Sail.gos s) = 0 ->
          sail_pending (Sail.main s) = 0 -> Sail.wg s = 0) as Hwg.
  { intros Ht Hp. rewrite (si_wg s I), Hp, (sail_weight_live _ Ht). reflexivity. }
  destruct I as [Icr Iwg Iloop Iwt Icl Islot Itk Ires Ipan].
  unfold sail_weight in *. unfold Sail.step in *.
  destruct s as [c w x m gs cl cr lg ps]. simpl in *. subst cr.
  destruct m as [[|t rest]| |].
  - (* the go statement after the loop *)
    exists Sail.Dispatch. eexists. split; [reflexivity|]. split; [reflexivity|].
    destruct cl; try discriminate. simpl. lia.
  - (* one iteration of the loop *)
    exists Sail.Dispatch. simpl in *. subst w. simpl.
    destruct c; eexists; (split; [reflexivity|]); (split; [reflexivity|]);
      simpl; rewrite ?total_app; simpl; lia.
  - (* the main goroutine is at its select *)
    destruct (total sail_go_weight gs) as [|k] eqn:Ht; [|apply Hgo; [reflexivity|lia]].
    specialize (Hwg eq_refl eq_refl). clear Iwg. subst w.
    destruct cl; try discriminate.
    + exists Sail.Closer. eexists. split; [reflexivity|]. split; [reflexivity|].
      simpl. lia.
    + exists Sail.Closer. unfold chan_close. rewrite Icl. simpl.
      eexists. split; [reflexivity|]. split; [reflexivity|]. simpl. lia.
    + exists Sail.SelectErr. unfold chan_recv. rewrite Icl. simpl.
      destruct (buf (errChan x)); eexists; (split; [reflexivity|]);
        (split; [reflexivity|]); simpl; lia.
  - (* the main goroutine has returned *)
    destruct (total sail_go_weight gs) as [|k] eqn:Ht; [|apply Hgo; [reflexivity|lia]].
    specialize (Hwg eq_refl eq_refl). clear Iwg. subst w.
    destruct cl; try discriminate.
    + exists Sail.Closer. eexists. split; [reflexivity|]. split; [reflexivity|].
      simpl. lia.
    + exists Sail.Closer. unfold chan_close. rewrite Icl. simpl.
      eexists. split; [reflexivity|]. split; [reflexivity|]. simpl. lia.
    + simpl in Hpos. lia.
Qed.

Lemma sail_can_finish (n : nat) (s : Sail.state) :
  sail_weight s <= n -> sail_inv s ->
  exists ls s', forallb Sail.no_cancel ls = true /\ Sail.run ls s = Some s' /\
                sail_weight s' = 0.
Proof.
  revert s. induction n as [|n IH]; intros s Hn I.
  - exists [], s. split; [reflexivity|]. split; [reflexivity|]. lia.
  - destruct (sail_weight s) as [|k] eqn:Hw.
    + exists [], s. split; [reflexivity|]. split; [reflexivity|exact Hw].
    + destruct (sail_progress s I) as (l & s1 & Hl & Hs & Hlt); [lia|].
      destruct (IH s1) as (ls & s' & Hls & Hrun & H0);
        [lia|exact (sail_inv_step l s s1 I Hs)|].
      exists (l :: ls), s'. split; [simpl; rewrite Hl, Hls; reflexivity|].
      split; [simpl; rewrite Hs; exact Hrun|exact H0].
Qed.

(** X8. [Sail] cannot deadlock and leaves no goroutine behind, as long as the
    tasks themselves come to an end (a [Task] of the model ends at a step of
    the schedule; a task that waits for something that never happens is not
    covered).  Whatever has happened so far, the run can be continued,
    without any cancellation of the context, until [Sail] has returned, every
    goroutine of a task and the closing goroutine have run to their end, and
    [errChan] is closed. *)
Theorem sail_never_deadlocks
        (c : option error) (tasks : list Task) (ls : list Sail.label)
        (s : Sail.state) :
  Sail.run ls (Sail.init c tasks) = Some s ->
  exists ls' s',
    forallb Sail.no_cancel ls' = true /\ Sail.run ls' s = Some s' /\
    Sail.result s' <> None /\
    (forall i g, Sail.gos s' !! i = Some g -> g = Sail.GExit) /\
    Sail.closer s' = Sail.CExit /\
    closed (errChan (Sail.slt s')) = true /\
    Sail.crashed s' = false.
Proof.
  intros H.
  pose proof (sail_inv_run ls _ s (sail_inv_init c tasks) H) as I.
  destruct (sail_can_finish (sail_weight s) s (le_n _) I) as (ls' & s' & Hnc & Hrun & H0).
  pose proof (sail_inv_run ls' s s' I Hrun) as I'.
  exists ls', s'. split; [exact Hnc|]. split; [exact Hrun|].
  unfold sail_weight in H0.
  assert (sail_main_weight (Sail.main s') = 0) as Hm by lia.
  assert (total sail_go_weight (Sail.gos s') = 0) as Hg by lia.
  assert (sail_closer_weight (Sail.closer s') = 0) as Hc by lia.
  assert (Sail.closer s' = Sail.CExit) as Hcl.
  { destruct (Sail.closer s'); simpl in Hc; try lia. reflexivity. }
  split; [|split; [|split; [exact Hcl|split]]].
  - unfold Sail.result. destruct (Sail.main s'); simpl in Hm; try lia. discriminate.
  - intros i g Hi. pose proof (total_zero _ _ i g Hg Hi) as Hw.
    destruct g; simpl in Hw; try lia. reflexivity.
  - rewrite (si_closed s' I'), Hcl. reflexivity.
  - exact (si_crashed s' I').
Qed.

(** [Sail(ctx, taskOK, taskFail, taskOK)] after [taskFail] has failed. *)
Lemma sail_never_deadlocks_witness :
  let tasks := [taskOK; taskFail expectedErr; taskOK] in
  let s := sail_after sail_failure_recorded (Sail.init None tasks) in
  Sail.run sail_failure_recorded (Sail.init None tasks) = Some s /\
  exists ls' s',
    forallb Sail.no_cancel ls' = true /\ Sail.run ls' s = Some s' /\
    Sail.result s' <> None /\
    (forall i g, Sail.gos s' !! i = Some g -> g = Sail.GExit) /\
    Sail.closer s' = Sail.CExit /\
    closed (errChan (Sail.slt s')) = true /\
    Sail.crashed s' = false.
Proof.
  intros tasks s.
  assert (Sail.run sail_failure_recorded (Sail.init None tasks) = Some s) as H1
    by (vm_compute; reflexivity).
  split; [exact H1|].
  exact (sail_never_deadlocks None tasks sail_failure_recorded s H1).
Defined.

(** ** [Weaver]: the queue, the accepted tasks and the context *)

Lemma weaver_more_pool (c : option error) (n : nat) : weaver_more n (Weaver.pool c n).
Proof.
  split; simpl; try reflexivity; try lia; try discriminate.
  rewrite count_replicate. simpl. lia.
Qed.

Ltac call_other M :=
  let k := fresh "k" in let c0 := fresh "c0" in
  let Hk := fresh "Hk" in let Hv := fresh "Hv" in
  intros k c0 Hk Hv;
  first [ apply lookup_insert_cases in Hk; destruct Hk as [[-> ->]|[_ Hk]];
          [simpl in Hv; try discriminate Hv | try exact (M k c0 Hk Hv)]
        | apply lookup_snoc_cases in Hk; destruct Hk as [Hk| ->];
          [try exact (M k c0 Hk Hv) | simpl in Hv; try discriminate Hv]
        | exact (M k c0 Hk Hv) ].

Ltac break_inner H :=
  repeat match type of H with
         | context [match ?x with _ => _ end] =>
             lazymatch x with
             | context [match _ with _ => _ end] => fail
             | _ => destruct x eqn:?; try discriminate H
             end
         end;
  injection H as <-.

Lemma weaver_more_step (n : nat) (l : Weaver.label) (s s' : Weaver.state) :
  weaver_more n s -> Weaver.step l s = Some s' -> weaver_more n s'.
Proof.
  intros [Mcap Mlen Mctx Mlos Mle] H.
  destruct s as [c w x q ic fe ws cs cr lg ps bg]. simpl in *.
  unfold Weaver.step in H. simpl in H. destruct cr; [discriminate|].
  destruct l as [e|i|i|i|t| |j].
  - (* Cancel *)
    break_all H. split; simpl; auto; try (intros; discriminate).
  - (* Pull *)
    unfold Weaver.worker_select in H. simpl in H.
    destruct (ws !! i) as [p|] eqn:Hi; [|discriminate].
    destruct p; try discriminate.
    pose proof (count_insert is_handed ws i _ Weaver.WDefer Hi) as Hc1.
    destruct q as [qc qb qo]. unfold chan_recv in H. simpl in *.
    destruct qb as [|t qb].
    + destruct qo; [|discriminate]. injection H as <-.
      split; simpl; auto; lia.
    + injection H as <-.
      pose proof (count_insert is_handed ws i _ (Weaver.WExecute t) Hi) as Hc2.
      simpl in *. split; simpl; auto; lia.
  - (* Quit *)
    unfold Weaver.worker_select in H. simpl in H.
    destruct (ws !! i) as [p|] eqn:Hi; [|discriminate].
    destruct p; try discriminate.
    pose proof (count_insert is_handed ws i _ Weaver.WDefer Hi) as Hc1.
    break_all H. simpl in *. split; simpl; auto; lia.
  - (* Work *)
    unfold Weaver.worker, Weaver.execute, Weaver.finish in H. simpl in H.
    destruct (ws !! i) as [p|] eqn:Hi; [|discriminate].
    pose proof (count_insert is_handed ws i p) as Hcnt.
    destruct p as [|t|t| |]; try discriminate.
    + pose proof (Hcnt Weaver.WSelect Hi) as Hc1.
      pose proof (Hcnt (Weaver.WRun t) Hi) as Hc2.
      break_all H; simpl in *; split; simpl; auto; lia.
    + pose proof (Hcnt Weaver.WSelect Hi) as Hc1.
      break_all H; simpl in *; split; simpl; auto; lia.
    + pose proof (Hcnt Weaver.WExit Hi) as Hc1.
      break_all H; simpl in *; split; simpl; auto; lia.
  - (* CallAdd *)
    injection H as <-.
    split; simpl; auto; [call_other Mctx|call_other Mlos|].
    rewrite count_app. simpl. lia.
  - (* CallWait *)
    injection H as <-.
    split; simpl; auto; [call_other Mctx|call_other Mlos|].
    rewrite count_app. simpl. lia.
  - (* Caller *)
    unfold Weaver.caller, Weaver.Add, Weaver.Wait in H. simpl in H.
    destruct (cs !! j) as [p|] eqn:Hj; [|discriminate].
    pose proof (count_insert is_accepted cs j p) as Hcnt.
    destruct q as [qc qb qo]. destruct x as [on [ec eb eo]].
    unfold chan_send, chan_recv, chan_close, Weaver.cancel in H. simpl in *.
    destruct p; try discriminate H; break_inner H;
      try match goal with
          | |- context [Weaver.set_call _ ?new _] =>
              specialize (Hcnt new Hj); simpl in Hcnt
          end;
      try match goal with
          | E : (_ <? _)%nat = true |- _ => apply Nat.ltb_lt in E
          end;
      split; simpl; rewrite ?length_app; simpl; auto; try lia;
      try match goal with
          | |- forall j c, _ -> after_cancel c = true -> _ => call_other Mctx
          | |- forall j c, _ -> is_loser c = true -> _ => call_other Mlos
          end;
      try discriminate; try reflexivity;
      try exact (Mctx j _ Hj eq_refl); try exact (Mlos j _ Hj eq_refl).
Qed.

Lemma weaver_more_run (n : nat) (ls : list Weaver.label) (s s' : Weaver.state) :
  weaver_more n s -> Weaver.run ls s = Some s' -> weaver_more n s'.
Proof.
  revert s. induction ls as [|l ls IH]; intros s M H; simpl in H.
  - injection H as <-. exact M.
  - destruct (Weaver.step l s) as [s1|] eqn:Hs; [|discriminate].
    exact (IH s1 (weaver_more_step n l s s1 M Hs) H).
Qed.

(** X9. The queue of a pool of [n] workers is bounded: it never holds more than
    [n] tasks, and a call of [Add] that stands at its send while the queue is
    open and full cannot take its step (the producer blocks). *)
Theorem weaver_queue_bounded
        (c : option error) (n : nat) (ls : list Weaver.label) (s : Weaver.state) :
  Weaver.run ls (Weaver.pool c n) = Some s ->
  cap (Weaver.taskQueue s) = n /\
  List.length (buf (Weaver.taskQueue s)) <= n /\
  (forall j t, Weaver.calls s !! j = Some (Weaver.AddSend t) ->
               closed (Weaver.taskQueue s) = false ->
               List.length (buf (Weaver.taskQueue s)) = n ->
               Weaver.step (Weaver.Caller j) s = None).
Proof.
  intros H.
  pose proof (weaver_more_run n ls _ s (weaver_more_pool c n) H) as M.
  split; [exact (wm_cap n s M)|]. split; [exact (wm_len n s M)|].
  intros j t Hj Hq Hfull. unfold Weaver.step, Weaver.caller, Weaver.Add, chan_send.
  rewrite Hj, Hq, Hfull, (wm_cap n s M), Nat.ltb_irrefl.
  destruct (Weaver.crashed s); reflexivity.
Qed.

(** A pool of two workers after one task has run. *)
Lemma weaver_queue_bounded_witness :
  let s := weaver_after weaver_failure_recorded (Weaver.pool None 2) in
  Weaver.run weaver_failure_recorded (Weaver.pool None 2) = Some s /\
  cap (Weaver.taskQueue s) = 2 /\
  List.length (buf (Weaver.taskQueue s)) <= 2 /\
  (forall j t, Weaver.calls s !! j = Some (Weaver.AddSend t) ->
               closed (Weaver.taskQueue s) = false ->
               List.length (buf (Weaver.taskQueue s)) = 2 ->
               Weaver.step (Weaver.Caller j) s = None).
Proof.
  intros s.
  assert (Weaver.run weaver_failure_recorded (Weaver.pool None 2) = Some s) as H1
    by (vm_compute; reflexivity).
  split; [exact H1|].
  exact (weaver_queue_bounded None 2 weaver_failure_recorded s H1).
Defined.



(** X11. When the closing call of [Wait] has returned, the shutdown is complete:
    every worker has left, no task is running, the queue and [errChan] are
    closed, the pool is marked closed and the context of the workers is
    cancelled. *)
Theorem weaver_closer_leaves_nothing
        (c : option error) (n : nat) (ls : list Weaver.label) (s : Weaver.state)
        (j : nat) (r : option error) :
  Weaver.run ls (Weaver.pool c n) = Some s ->
  Weaver.calls s !! j = Some (Weaver.WaitReturn true r) ->
  (forall i p, Weaver.workers s !! i = Some p -> p = Weaver.WExit) /\
  Weaver.running s = 0 /\
  closed (Weaver.taskQueue s) = true /\
  closed (errChan (Weaver.slt s)) = true /\
  Weaver.isClosed s = true /\
  Weaver.ctx s <> None /\
  Weaver.crashed s = false.
Proof.
  intros H Hj.
  pose proof (weaver_inv_run ls _ s (weaver_inv_pool c n) H) as I.
  pose proof (weaver_more_run n ls _ s (weaver_more_pool c n) H) as M.
  destruct (wi_phase s I j _ Hj eq_refl) as (Hq & He & Hw). simpl in *.
  specialize (Hw eq_refl).
  assert (forall i p, Weaver.workers s !! i = Some p -> p = Weaver.WExit) as Hex.
  { intros i p Hi. exact (weaver_live_zero s i p I Hw Hi). }
  split; [exact Hex|]. split.
  - unfold Weaver.running.
    assert (forall l : list Weaver.worker_pc,
               (forall i p, l !! i = Some p -> p = Weaver.WExit) ->
               count Weaver.is_running l = 0) as Hall.
    { induction l as [|p l IH]; intros Hl; [reflexivity|]. simpl.
      rewrite (Hl 0 p eq_refl). simpl. apply IH. intros i p' Hi.
      exact (Hl (S i) p' Hi). }
    exact (Hall _ Hex).
  - split; [exact Hq|]. split; [exact He|]. split.
    + destruct (Weaver.isClosed s) eqn:Hc; [reflexivity|].
      destruct (wi_open s I Hc). congruence.
    + split; [exact (wm_ctx n s M j _ Hj eq_refl)|exact (wi_crashed s I)].
Qed.

(** A fresh pool of one worker after [w.Wait()] has returned. *)
Lemma weaver_closer_leaves_nothing_witness :
  let s := weaver_after weaver_wait_alone (Weaver.pool None 1) in
  Weaver.run weaver_wait_alone (Weaver.pool None 1) = Some s /\
  Weaver.calls s !! 0 = Some (Weaver.WaitReturn true None) /\
  (forall i p, Weaver.workers s !! i = Some p -> p = Weaver.WExit) /\
  Weaver.running s = 0 /\
  closed (Weaver.taskQueue s) = true /\
  closed (errChan (Weaver.slt s)) = true /\
  Weaver.isClosed s = true /\
  Weaver.ctx s <> None /\
  Weaver.crashed s = false.
Proof.
  intros s.
  assert (Weaver.run weaver_wait_alone (Weaver.pool None 1) = Some s) as H1
    by (vm_compute; reflexivity).
  assert (Weaver.calls s !! 0 = Some (Weaver.WaitReturn true None)) as H2
    by (vm_compute; reflexivity).
  split; [exact H1|]. split; [exact H2|].
  exact (weaver_closer_leaves_nothing None 1 weaver_wait_alone s 0 None H1 H2).
Defined.

(** ** [Weaver]: schedules without a cancellation of the parent context *)







(** ** [Weaver]: calls of [Wait] that do not overlap *)

Lemma count_pos_lookup {A : Type} (f : A -> bool) (l : list A) :
  0 < count f l -> exists i x, l !! i = Some x /\ f x = true.
Proof.
  induction l as [|a l IH]; simpl; intros H; [lia|].
  destruct (f a) eqn:Ha.
  - exists 0, a. split; [reflexivity|exact Ha].
  - simpl in H. destruct (IH H) as (i & x & Hi & Hx).
    exists (S i), x. split; assumption.
Qed.

Lemma weaver_isClosed_has_winner (s : Weaver.state) :
  weaver_inv s -> Weaver.isClosed s = true ->
  exists k c, Weaver.calls s !! k = Some c /\ winner c = true.
Proof.
  intros I Hc. apply count_pos_lookup. rewrite (wi_win s I), Hc. simpl. lia.
Qed.

Lemma weaver_closed_has_closer (s : Weaver.state) :
  weaver_inv s -> closed (errChan (Weaver.slt s)) = true ->
  exists k r, Weaver.calls s !! k = Some (Weaver.WaitReturn true r).
Proof.
  intros I He.
  assert (Weaver.isClosed s = true) as Hc.
  { destruct (Weaver.isClosed s) eqn:Hc; [reflexivity|].
    destruct (wi_open s I Hc) as [_ Ho]. congruence. }
  destruct (weaver_isClosed_has_winner s I Hc) as (k & c & Hk & Hw).
  destruct (wi_phase s I k c Hk Hw) as (_ & Hpe & _).
  rewrite He in Hpe. destruct c; simpl in Hpe, Hw; try discriminate.
  destruct closer; [|discriminate]. exists k, r. exact Hk.
Qed.

Lemma weaver_seq_pool (c : option error) (n : nat) : weaver_seq (Weaver.pool c n).
Proof.
  split; simpl; try lia; try discriminate.
  intros _. split; [reflexivity|]. intros e l H. discriminate H.
Qed.

Ltac val_other M :=
  let k := fresh "k" in let c0 := fresh "c0" in let r0 := fresh "r0" in
  let Hk := fresh "Hk" in let Hv := fresh "Hv" in
  intros k c0 r0 Hk Hv;
  apply lookup_insert_cases in Hk; destruct Hk as [[-> ->]|[_ Hk]];
  [simpl in Hv; try discriminate Hv | try exact (M k c0 r0 Hk Hv)].

Lemma weaver_seq_step (l : Weaver.label) (s s' : Weaver.state) :
  weaver_inv s -> weaver_seq s ->
  (l = Weaver.CallWait -> count wait_pending (Weaver.calls s) = 0) ->
  Weaver.step l s = Some s' -> weaver_seq s'.
Proof.
  intros I [Q1 Ql Qpre Qpost Qval] Hl H.
  pose proof (weaver_live_zero s) as Hlive. specialize (fun i p => Hlive i p I).
  pose proof (wi_phase s I) as Hphase.
  pose proof (wi_win s I) as Hwin.
  pose proof (wi_slot s I) as Hslot.
  pose proof (wi_errclosed s I) as Herr.
  pose proof (weaver_closed_has_closer s I) as Hcloser.
  pose proof (weaver_isClosed_has_winner s I) as Hwinner.
  destruct s as [c w x q ic fe ws cs cr lg ps bg]. simpl in *.
  unfold Weaver.step in H. simpl in H. destruct cr; [discriminate|].
  destruct l as [e|i|i|i|t| |j].
  - (* Cancel *)
    break_all H. split; simpl; auto.
  - (* Pull *)
    unfold Weaver.worker_select in H. simpl in H.
    break_all H; split; simpl; auto.
  - (* Quit *)
    unfold Weaver.worker_select in H. simpl in H.
    break_all H; split; simpl; auto.
  - (* Work *)
    unfold Weaver.worker, Weaver.execute in H. simpl in H.
    destruct (ws !! i) as [p|] eqn:Hi; [|discriminate].
    destruct p as [|t|t| |]; try discriminate.
    + break_all H; split; simpl; auto.
    + assert (w <> 0) as Hw.
      { intros Hw. pose proof (Hlive i _ Hw Hi) as Hp. discriminate Hp. }
      assert (closed (errChan x) = false) as Heo.
      { destruct (closed (errChan x)) eqn:He; [|reflexivity].
        contradiction Hw. apply Herr. reflexivity. }
      assert (forall k c0, cs !! k = Some c0 -> past_select c0 = false) as Hnp.
      { intros k c0 Hk. destruct (past_select c0) eqn:Hp; [|reflexivity].
        contradiction Hw.
        assert (winner c0 = true /\ waited_at c0 = true) as [Hwn Hwt].
        { destruct c0; try discriminate Hp; simpl; try (split; reflexivity).
          destruct closer; [split; reflexivity|discriminate Hp]. }
        exact (proj2 (proj2 (Hphase k c0 Hk Hwn)) Hwt). }
      assert (count past_select cs = 0) as Hc0.
      { destruct (count past_select cs) eqn:Hc; [reflexivity|].
        destruct (count_pos_lookup past_select cs) as (k & c0 & Hk & Hp); [lia|].
        rewrite (Hnp k c0 Hk) in Hp. discriminate Hp. }
      assert (forall k c0 r, cs !! k = Some c0 -> call_value c0 = Some r -> False)
        as Hnv.
      { intros k c0 r Hk Hv. pose proof (Hnp k c0 Hk) as Hp.
        destruct c0; try discriminate Hv; try discriminate Hp.
        destruct closer; [discriminate Hp|].
        rewrite (Ql k _ Hk eq_refl) in Heo. discriminate Heo. }
      destruct (Qpre Hc0) as [Hfe Hbuf].
      destruct x as [on [ec eb eo]]. simpl in *. subst eo.
      unfold Weaver.finish, sendErr, chan_send in H. simpl in H.
      unfold slot_ok in Hslot. simpl in Hslot.
      destruct Hslot as [Hcap Hslot]. subst ec.
      destruct lg as [|e0 lg].
      * destruct Hslot as [-> ->]. simpl in H.
        destruct (t c) as [[e|]|p]; simpl in H; injection H as <-;
          split; simpl; auto;
          try (intros k c0 Hk Hp; exact (Ql k c0 Hk Hp));
          try (intros k c0 Hk Hp; rewrite (Hnp k c0 Hk) in Hp; discriminate Hp);
          try (intros k c0 r Hk Hv; destruct (Hnv k c0 r Hk Hv));
          try (intros _; split; [exact Hfe|]; intros e1 l1 Hlg;
               injection Hlg as <- _; reflexivity).
      * destruct Hslot as [-> Hb]. pose proof (Hbuf e0 lg eq_refl) as ->.
        simpl in H.
        destruct (t c) as [[e|]|p]; simpl in H; injection H as <-;
          split; simpl; auto;
          try (intros k c0 Hk Hp; exact (Ql k c0 Hk Hp));
          try (intros k c0 Hk Hp; rewrite (Hnp k c0 Hk) in Hp; discriminate Hp);
          try (intros k c0 r Hk Hv; destruct (Hnv k c0 r Hk Hv));
          try (intros _; split; [exact Hfe|]; intros e1 l1 Hlg;
               injection Hlg as <- _; reflexivity).
    + break_all H; split; simpl; auto.
  - (* CallAdd *)
    injection H as <-.
    split; simpl; rewrite ?count_app; simpl;
      [lia|call_other Ql| |call_other Qpost|].
    + intros Hc. apply Qpre. lia.
    + intros k c0 r Hk Hv. apply lookup_snoc_cases in Hk.
      destruct Hk as [Hk| ->]; [exact (Qval k c0 r Hk Hv)|discriminate Hv].
  - (* CallWait *)
    injection H as <-. specialize (Hl eq_refl).
    split; simpl; rewrite ?count_app; simpl;
      [lia|call_other Ql| |call_other Qpost|].
    + intros Hc. apply Qpre. lia.
    + intros k c0 r Hk Hv. apply lookup_snoc_cases in Hk.
      destruct Hk as [Hk| ->]; [exact (Qval k c0 r Hk Hv)|discriminate Hv].
  - (* Caller *)
    unfold Weaver.caller in H. simpl in H.
    destruct (cs !! j) as [p|] eqn:Hj; [|discriminate].
    pose proof (count_insert wait_pending cs j p) as Hcw.
    pose proof (count_insert past_select cs j p) as Hcp.
    assert (ic = true -> wait_pending p = true -> winner p = false ->
            closed (errChan x) = true) as Hlose.
    { intros -> Hpp Hpw. destruct (Hwinner eq_refl) as (k & c0 & Hk & Hw0).
      destruct (Hphase k c0 Hk Hw0) as (_ & Hpe & _). rewrite Hpe.
      destruct (wait_pending c0) eqn:Hp0.
      - pose proof (count_unique wait_pending cs j k p c0 Q1 Hj Hpp Hk Hp0) as ->.
        rewrite Hj in Hk. injection Hk as ->. congruence.
      - destruct c0; try discriminate Hw0; try discriminate Hp0. reflexivity. }
    assert (forall new, wait_pending new = wait_pending p ->
              count wait_pending (<[j := new]> cs) <= 1) as Hq1.
    { intros new Hn. specialize (Hcw new Hj). rewrite Hn in Hcw. lia. }
    destruct p as [t|t|r| | | | | | | |r|r|b r].
    + (* AddLoad *)
      unfold Weaver.Add in H. simpl in H.
      specialize (Hcp (if ic then Weaver.AddReturn (Some errClosed)
                       else Weaver.AddSend t) Hj).
      destruct ic; injection H as <-; simpl in Hcp;
        (split; simpl;
         [apply Hq1; reflexivity|call_other Ql
         |intros Hc; apply Qpre; lia|call_other Qpost|val_other Qval]).
    + (* AddSend *)
      unfold Weaver.Add in H. simpl in H.
      destruct (chan_send q t) as [q'| |]; [|discriminate|]; injection H as <-;
        match goal with
        | |- context [Weaver.set_call _ ?new _] =>
            specialize (Hcp new Hj); simpl in Hcp
        end;
        (split; simpl;
         [apply Hq1; reflexivity|call_other Ql
         |intros Hc; apply Qpre; lia|call_other Qpost|val_other Qval]).
    + discriminate H.
    + (* WaitLoad *)
      unfold Weaver.Wait in H. simpl in H.
      specialize (Hcp (if ic then Weaver.WaitRecv else Weaver.WaitCAS) Hj).
      destruct ic; injection H as <-; simpl in Hcp;
        (split; simpl;
         [apply Hq1; reflexivity|call_other Ql
         |intros Hc; apply Qpre; lia|call_other Qpost|val_other Qval]).
      exact (Hlose eq_refl eq_refl eq_refl).
    + (* WaitCAS *)
      unfold Weaver.Wait in H. simpl in H.
      specialize (Hcp (if ic then Weaver.WaitRecv else Weaver.WaitCloseQueue) Hj).
      destruct ic; injection H as <-; simpl in Hcp;
        (split; simpl;
         [apply Hq1; reflexivity|call_other Ql
         |intros Hc; apply Qpre; lia|call_other Qpost|val_other Qval]).
      exact (Hlose eq_refl eq_refl eq_refl).
    + (* WaitRecv *)
      unfold Weaver.Wait in H. simpl in H.
      pose proof (Ql j _ Hj eq_refl) as He.
      destruct (Hcloser He) as (k & r & Hk).
      specialize (Hcp Weaver.WaitFinal Hj). simpl in Hcp.
      destruct x as [on [ec eb eo]]. simpl in *. subst eo.
      unfold chan_recv in H. simpl in H.
      destruct eb as [|e0 eb]; injection H as <-;
        (split; simpl;
         [apply Hq1; reflexivity|reflexivity| |call_other Qpost|val_other Qval]);
        intros Hc; assert (count past_select cs = 0) as Hc0 by lia;
        pose proof (count_zero past_select cs k _ Hc0 Hk) as Hp; discriminate Hp.
    + (* WaitFinal *)
      unfold Weaver.Wait in H. simpl in H.
      pose proof (Ql j _ Hj eq_refl) as He.
      destruct (Hcloser He) as (k & r & Hk).
      pose proof (Qpost k _ Hk eq_refl) as Hfe.
      specialize (Hcp (Weaver.WaitReturn false fe) Hj). simpl in Hcp.
      specialize (Hcw (Weaver.WaitReturn false fe) Hj). simpl in Hcw.
      injection H as <-.
      split; simpl;
        [lia|intros; exact He
        |intros Hc; apply Qpre; lia|call_other Qpost|val_other Qval].
      injection Hv as <-. exact Hfe.
    + (* WaitCloseQueue *)
      unfold Weaver.Wait in H. simpl in H.
      destruct (Hphase j _ Hj eq_refl) as (Hpq & _ & _). simpl in Hpq.
      unfold chan_close in H. rewrite Hpq in H. injection H as <-.
      specialize (Hcp Weaver.WaitWg Hj). simpl in Hcp.
      split; simpl;
        [apply Hq1; reflexivity|call_other Ql
        |intros Hc; apply Qpre; lia|call_other Qpost|val_other Qval].
    + (* WaitWg *)
      unfold Weaver.Wait in H. simpl in H.
      destruct (w =? 0)%nat; [|discriminate]. injection H as <-.
      specialize (Hcp Weaver.WaitSelect Hj). simpl in Hcp.
      split; simpl;
        [apply Hq1; reflexivity|call_other Ql
        |intros Hc; apply Qpre; lia|call_other Qpost|val_other Qval].
    + (* WaitSelect *)
      unfold Weaver.Wait in H. simpl in H.
      destruct (Hphase j _ Hj eq_refl) as (_ & Hpe & _). simpl in Hpe.
      assert (count past_select cs = 0) as Hc0.
      { destruct (count past_select cs) eqn:Hc; [reflexivity|].
        destruct (count_pos_lookup past_select cs) as (k & c0 & Hk & Hp); [lia|].
        assert (winner c0 = true) as Hw0.
        { destruct c0; try discriminate Hp; try reflexivity.
          destruct closer; [reflexivity|discriminate Hp]. }
        assert (count winner cs <= 1) as Hle
            by (rewrite Hwin; destruct ic; simpl; lia).
        pose proof (count_unique winner cs j k _ c0 Hle Hj eq_refl Hk Hw0) as ->.
        rewrite Hj in Hk. injection Hk as <-. discriminate Hp. }
      destruct (Qpre Hc0) as [-> Hbuf].
      unfold slot_ok in Hslot.
      destruct x as [on [ec eb eo]]. simpl in *. subst eo.
      destruct Hslot as [_ Hslot].
      unfold chan_recv in H. simpl in H.
      destruct lg as [|e0 lg].
      * destruct Hslot as [_ ->]. injection H as <-.
        specialize (Hcw (Weaver.WaitCancel None) Hj). simpl in Hcw.
        specialize (Hcp (Weaver.WaitCancel None) Hj). simpl in Hcp.
        split; simpl;
          [lia|call_other Ql|intros Hc; lia|reflexivity|val_other Qval].
        injection Hv as <-. reflexivity.
      * rewrite (Hbuf e0 lg eq_refl) in H. injection H as <-.
        specialize (Hcw (Weaver.WaitCancel (Some e0)) Hj). simpl in Hcw.
        specialize (Hcp (Weaver.WaitCancel (Some e0)) Hj). simpl in Hcp.
        split; simpl;
          [lia|call_other Ql|intros Hc; lia|reflexivity|val_other Qval].
        injection Hv as <-. reflexivity.
    + (* WaitCancel *)
      unfold Weaver.Wait, Weaver.cancel in H. simpl in H.
      specialize (Hcp (Weaver.WaitCloseErr r) Hj). simpl in Hcp.
      pose proof (Qpost j _ Hj eq_refl) as Hfe.
      pose proof (Qval j _ r Hj eq_refl) as Hr.
      destruct c; injection H as <-;
        (split; simpl;
         [apply Hq1; reflexivity|call_other Ql
         |intros Hc; apply Qpre; lia|intros; exact Hfe|val_other Qval]);
        injection Hv as <-; exact Hr.
    + (* WaitCloseErr *)
      unfold Weaver.Wait in H. simpl in H.
      destruct (Hphase j _ Hj eq_refl) as (_ & Hpe & _). simpl in Hpe.
      unfold chan_close in H. rewrite Hpe in H. injection H as <-.
      specialize (Hcw (Weaver.WaitReturn true r) Hj). simpl in Hcw.
      specialize (Hcp (Weaver.WaitReturn true r) Hj). simpl in Hcp.
      pose proof (Qpost j _ Hj eq_refl) as Hfe.
      pose proof (Qval j _ r Hj eq_refl) as Hr.
      split; simpl;
        [lia|reflexivity
        |intros Hc; apply Qpre; lia|intros; exact Hfe|val_other Qval].
      injection Hv as <-. exact Hr.
    + discriminate H.
Qed.

Lemma weaver_seq_run (ls : list Weaver.label) (s s' : Weaver.state) :
  weaver_inv s -> weaver_seq s -> one_wait_at_a_time ls s = true ->
  Weaver.run ls s = Some s' -> weaver_seq s'.
Proof.
  revert s. induction ls as [|l ls IH]; intros s I Q Hls H; simpl in H.
  - injection H as <-. exact Q.
  - simpl in Hls. apply andb_true_iff in Hls. destruct Hls as [Hl Hls].
    destruct (Weaver.step l s) as [s1|] eqn:Hs; [|discriminate].
    apply (IH s1 (weaver_inv_step l s s1 I Hs)); [|exact Hls|exact H].
    apply (weaver_seq_step l s s1 I Q); [|exact Hs].
    intros ->. apply Nat.eqb_eq. exact Hl.
Qed.

(** X13. When the calls of [Wait] do not overlap, every one of them returns the
    first error that a task passed to [sendErr], or [nil] when no task
    failed; the closing call and the later calls alike. *)
Theorem weaver_sequential_wait_returns_first_failure
        (c : option error) (n : nat) (ls : list Weaver.label) (s : Weaver.state)
        (j : nat) (b : bool) (r : option error) :
  Weaver.run ls (Weaver.pool c n) = Some s ->
  one_wait_at_a_time ls (Weaver.pool c n) = true ->
  Weaver.calls s !! j = Some (Weaver.WaitReturn b r) ->
  r = head (Weaver.log s).
Proof.
  intros H Hseq Hj.
  pose proof (weaver_seq_run ls _ s (weaver_inv_pool c n) (weaver_seq_pool c n)
                Hseq H) as Q.
  exact (sq_val s Q j _ r Hj eq_refl).
Qed.

(** The second call of [w.Wait()] in [TestWeaver_Wait_Idempotent]. *)
Lemma weaver_sequential_wait_returns_first_failure_witness :
  let s := weaver_after weaver_wait_twice (Weaver.pool None 1) in
  Weaver.run weaver_wait_twice (Weaver.pool None 1) = Some s /\
  one_wait_at_a_time weaver_wait_twice (Weaver.pool None 1) = true /\
  Weaver.calls s !! 2 = Some (Weaver.WaitReturn false (Some expectedErr)) /\
  Some expectedErr = head (Weaver.log s).
Proof.
  intros s.
  assert (Weaver.run weaver_wait_twice (Weaver.pool None 1) = Some s) as H1
    by (vm_compute; reflexivity).
  assert (one_wait_at_a_time weaver_wait_twice (Weaver.pool None 1) = true) as H2
    by (vm_compute; reflexivity).
  assert (Weaver.calls s !! 2 = Some (Weaver.WaitReturn false (Some expectedErr)))
    as H3 by (vm_compute; reflexivity).
  split; [exact H1|]. split; [exact H2|]. split; [exact H3|].
  exact (weaver_sequential_wait_returns_first_failure None 1 weaver_wait_twice s
           2 false (Some expectedErr) H1 H2 H3).
Defined.

(** ** [Weaver]: [Wait] cannot deadlock *)

Lemma weaver_worker_progress (s : Weaver.state) :
  weaver_inv s -> closed (Weaver.taskQueue s) = true ->
  closed (errChan (Weaver.slt s)) = false -> 0 < Weaver.wg s ->
  exists l s', pool_step l = true /\ Weaver.step l s = Some s' /\
               Weaver.calls s' = Weaver.calls s /\
               total worker_weight (Weaver.workers s') +
               3 * List.length (buf (Weaver.taskQueue s')) <
               total worker_weight (Weaver.workers s) +
               3 * List.length (buf (Weaver.taskQueue s)).
Proof.
  intros I Hq He Hw.
  destruct (count_pos_lookup weaver_live (Weaver.workers s)) as (i & p & Hi & Hp);
    [rewrite <- (wi_wg s I); exact Hw|].
  pose proof (total_insert worker_weight (Weaver.workers s) i p) as Hins.
  pose proof (wi_crashed s I) as Hcr. pose proof (wi_slot s I) as Hslot.
  destruct p as [|t|t| |]; [| | | |discriminate Hp].
  - (* at the select: the queue is closed, so the receive is ready *)
    exists (Weaver.Pull i). unfold Weaver.step, Weaver.worker_select, chan_recv.
    rewrite Hcr, Hi, Hq.
    destruct (buf (Weaver.taskQueue s)) as [|t rest] eqn:Hb.
    + specialize (Hins Weaver.WDefer Hi). simpl in Hins.
      eexists. split; [reflexivity|]. split; [reflexivity|]. simpl.
      split; [reflexivity|]. rewrite Hb. simpl. lia.
    + specialize (Hins (Weaver.WExecute t) Hi). simpl in Hins.
      eexists. split; [reflexivity|]. split; [reflexivity|]. simpl.
      split; [reflexivity|]. lia.
  - exists (Weaver.Work i). unfold Weaver.step, Weaver.worker, Weaver.execute.
    rewrite Hcr, Hi.
    destruct (Weaver.ctx s).
    + specialize (Hins Weaver.WSelect Hi). simpl in Hins.
      eexists. split; [reflexivity|]. split; [reflexivity|]. simpl.
      split; [reflexivity|]. lia.
    + specialize (Hins (Weaver.WRun t) Hi). simpl in Hins.
      eexists. split; [reflexivity|]. split; [reflexivity|]. simpl.
      split; [reflexivity|]. lia.
  - exists (Weaver.Work i). unfold Weaver.step, Weaver.worker, Weaver.execute,
      Weaver.finish.
    rewrite Hcr, Hi. specialize (Hins Weaver.WSelect Hi). simpl in Hins.
    destruct (t (Weaver.ctx s)) as [[e|]|p].
    + destruct (slot_ok_send_ready _ _ e Hslot He) as [x' ->].
      eexists. split; [reflexivity|]. split; [reflexivity|]. simpl.
      split; [reflexivity|]. lia.
    + eexists. split; [reflexivity|]. split; [reflexivity|]. simpl.
      split; [reflexivity|]. lia.
    + destruct (slot_ok_send_ready _ _ (panicError p) Hslot He) as [x' ->].
      eexists. split; [reflexivity|]. split; [reflexivity|]. simpl.
      split; [reflexivity|]. lia.
  - exists (Weaver.Work i). unfold Weaver.step, Weaver.worker.
    rewrite Hcr, Hi. specialize (Hins Weaver.WExit Hi). simpl in Hins.
    destruct (Weaver.wg s) as [|m]; [lia|]. simpl.
    eexists. split; [reflexivity|]. split; [reflexivity|]. simpl.
    split; [reflexivity|]. lia.
Qed.

(** The closing call of [Wait] can always be helped on. *)
Lemma weaver_winner_progress (s : Weaver.state) (k : nat) (c : Weaver.call_pc) :
  weaver_inv s -> Weaver.calls s !! k = Some c ->
  winner c = true -> wait_pending c = true ->
  exists l s', pool_step l = true /\ Weaver.step l s = Some s' /\
               weaver_weight s' < weaver_weight s.
Proof.
  intros I Hk Hw Hp.
  destruct (wi_phase s I k c Hk Hw) as (Hpq & Hpe & Hpw).
  pose proof (total_insert wait_weight (Weaver.calls s) k c) as Hins.
  pose proof (wi_crashed s I) as Hcr.
  unfold weaver_weight.
  destruct c; try discriminate Hw; try discriminate Hp; simpl in Hpq, Hpe.
  - (* WaitCloseQueue *)
    exists (Weaver.Caller k).
    unfold Weaver.step, Weaver.caller, Weaver.Wait, chan_close.
    rewrite Hcr, Hk, Hpq. specialize (Hins Weaver.WaitWg Hk). simpl in Hins.
    eexists. split; [reflexivity|]. split; [reflexivity|]. simpl. lia.
  - (* WaitWg *)
    destruct (Weaver.wg s) as [|m] eqn:Hwg.
    + exists (Weaver.Caller k).
      unfold Weaver.step, Weaver.caller, Weaver.Wait.
      rewrite Hcr, Hk, Hwg. specialize (Hins Weaver.WaitSelect Hk). simpl in Hins.
      eexists. split; [reflexivity|]. split; [reflexivity|]. simpl. lia.
    + destruct (weaver_worker_progress s I Hpq Hpe) as (l & s' & Hl & Hs & Hc & Hlt);
        [lia|].
      exists l, s'. split; [exact Hl|]. split; [exact Hs|]. rewrite Hc. lia.
  - (* WaitSelect *)
    exists (Weaver.Caller k).
    unfold Weaver.step, Weaver.caller, Weaver.Wait.
    rewrite Hcr, Hk.
    destruct (chan_recv (errChan (Weaver.slt s))) as [[v c']| |].
    + specialize (Hins (Weaver.WaitCancel v) Hk). simpl in Hins.
      eexists. split; [reflexivity|]. split; [reflexivity|]. simpl. lia.
    + specialize (Hins (Weaver.WaitCancel (Weaver.finalErr s)) Hk). simpl in Hins.
      eexists. split; [reflexivity|]. split; [reflexivity|]. simpl. lia.
    + specialize (Hins (Weaver.WaitCancel (Weaver.finalErr s)) Hk). simpl in Hins.
      eexists. split; [reflexivity|]. split; [reflexivity|]. simpl. lia.
  - (* WaitCancel *)
    exists (Weaver.Caller k).
    unfold Weaver.step, Weaver.caller, Weaver.Wait, Weaver.cancel.
    rewrite Hcr, Hk. specialize (Hins (Weaver.WaitCloseErr r) Hk). simpl in Hins.
    eexists. split; [reflexivity|]. split; [reflexivity|].
    destruct (Weaver.ctx s); simpl; lia.
  - (* WaitCloseErr *)
    exists (Weaver.Caller k).
    unfold Weaver.step, Weaver.caller, Weaver.Wait, chan_close.
    rewrite Hcr, Hk, Hpe. specialize (Hins (Weaver.WaitReturn true r) Hk).
    simpl in Hins.
    eexists. split; [reflexivity|]. split; [reflexivity|]. simpl. lia.
Qed.

Lemma weaver_progress (n : nat) (s : Weaver.state) :
  weaver_inv s -> weaver_more n s -> 0 < count wait_pending (Weaver.calls s) ->
  exists l s', pool_step l = true /\ Weaver.step l s = Some s' /\
               weaver_weight s' < weaver_weight s.
Proof.
  intros I M Hpos.
  destruct (count_pos_lookup _ _ Hpos) as (j & p & Hj & Hp).
  destruct (winner p) eqn:Hw; [exact (weaver_winner_progress s j p I Hj Hw Hp)|].
  pose proof (total_insert wait_weight (Weaver.calls s) j p) as Hins.
  pose proof (wi_crashed s I) as Hcr.
  destruct p; try discriminate Hw; try discriminate Hp.
  - (* WaitLoad *)
    exists (Weaver.Caller j).
    unfold weaver_weight, Weaver.step, Weaver.caller, Weaver.Wait.
    rewrite Hcr, Hj.
    destruct (Weaver.isClosed s).
    + specialize (Hins Weaver.WaitRecv Hj). simpl in Hins.
      eexists. split; [reflexivity|]. split; [reflexivity|]. simpl. lia.
    + specialize (Hins Weaver.WaitCAS Hj). simpl in Hins.
      eexists. split; [reflexivity|]. split; [reflexivity|]. simpl. lia.
  - (* WaitCAS *)
    exists (Weaver.Caller j).
    unfold weaver_weight, Weaver.step, Weaver.caller, Weaver.Wait.
    rewrite Hcr, Hj.
    destruct (Weaver.isClosed s).
    + specialize (Hins Weaver.WaitRecv Hj). simpl in Hins.
      eexists. split; [reflexivity|]. split; [reflexivity|]. simpl. lia.
    + specialize (Hins Weaver.WaitCloseQueue Hj). simpl in Hins.
      eexists. split; [reflexivity|]. split; [reflexivity|]. simpl. lia.
  - (* WaitRecv *)
    destruct (chan_recv (errChan (Weaver.slt s))) as [[v c']| |] eqn:Hrecv.
    + exists (Weaver.Caller j).
      unfold weaver_weight, Weaver.step, Weaver.caller, Weaver.Wait.
      rewrite Hcr, Hj, Hrecv. specialize (Hins Weaver.WaitFinal Hj). simpl in Hins.
      eexists. split; [reflexivity|]. split; [reflexivity|]. simpl. lia.
    + (* the receive blocks: the closing call has not closed errChan yet *)
      pose proof (wm_loser n s M j _ Hj eq_refl) as Hic.
      destruct (weaver_isClosed_has_winner s I Hic) as (k & c & Hk & Hwk).
      apply (weaver_winner_progress s k c I Hk Hwk).
      destruct (wait_pending c) eqn:Hpc; [reflexivity|].
      destruct (wi_phase s I k c Hk Hwk) as (_ & Hpe & _).
      destruct c; try discriminate Hwk; try discriminate Hpc.
      simpl in Hpe. unfold chan_recv in Hrecv. rewrite Hpe in Hrecv.
      destruct (buf (errChan (Weaver.slt s))); discriminate Hrecv.
    + unfold chan_recv in Hrecv.
      destruct (buf (errChan (Weaver.slt s))); [|discriminate Hrecv].
      destruct (closed (errChan (Weaver.slt s))); discriminate Hrecv.
  - (* WaitFinal *)
    exists (Weaver.Caller j).
    unfold weaver_weight, Weaver.step, Weaver.caller, Weaver.Wait.
    rewrite Hcr, Hj.
    specialize (Hins (Weaver.WaitReturn false (Weaver.finalErr s)) Hj).
    simpl in Hins.
    eexists. split; [reflexivity|]. split; [reflexivity|]. simpl. lia.
Qed.

Lemma weaver_step_wait_kept (l : Weaver.label) (s s' : Weaver.state)
      (j : nat) (p : Weaver.call_pc) :
  Weaver.step l s = Some s' -> Weaver.calls s !! j = Some p -> is_wait p = true ->
  exists p', Weaver.calls s' !! j = Some p' /\ is_wait p' = true.
Proof.
  intros H Hj Hp.
  assert (l <> Weaver.Caller j -> exists p', Weaver.calls s' !! j = Some p' /\
                                             is_wait p' = true) as Hother.
  { intros Hl. exists p. split; [|exact Hp].
    exact (weaver_step_calls_other l s s' j p H Hl Hj). }
  destruct l as [e|i|i|i|t| |k]; try (apply Hother; discriminate).
  destruct (Nat.eq_dec k j) as [->|Hne]; [|apply Hother; congruence].
  clear Hother. pose proof (lookup_lt_Some _ _ _ Hj) as Hlt.
  destruct s as [c w x q ic fe ws cs cr lg ps bg]. simpl in *.
  unfold Weaver.step, Weaver.caller, Weaver.Wait, Weaver.cancel in H.
  simpl in H. rewrite Hj in H. destruct cr; [discriminate H|].
  destruct p; try discriminate Hp; try discriminate H; break_inner H; simpl;
    rewrite ?list_lookup_insert_eq by exact Hlt;
    first [ eexists; split; [reflexivity|reflexivity]
          | eexists; split; [exact Hj|reflexivity] ].
Qed.

Lemma weaver_can_return (n m : nat) (s : Weaver.state) :
  weaver_weight s <= m -> weaver_inv s -> weaver_more n s ->
  exists ls s', forallb pool_step ls = true /\ Weaver.run ls s = Some s' /\
                count wait_pending (Weaver.calls s') = 0 /\
                (forall j p, Weaver.calls s !! j = Some p -> is_wait p = true ->
                   exists p', Weaver.calls s' !! j = Some p' /\ is_wait p' = true).
Proof.
  revert s. induction m as [|m IH]; intros s Hm I M.
  - destruct (count wait_pending (Weaver.calls s)) as [|k] eqn:Hc.
    + exists [], s. split; [reflexivity|]. split; [reflexivity|].
      split; [exact Hc|]. intros j p Hj Hp. exists p. auto.
    + destruct (weaver_progress n s I M) as (l & s1 & _ & _ & Hlt); lia.
  - destruct (count wait_pending (Weaver.calls s)) as [|k] eqn:Hc.
    + exists [], s. split; [reflexivity|]. split; [reflexivity|].
      split; [exact Hc|]. intros j p Hj Hp. exists p. auto.
    + destruct (weaver_progress n s I M) as (l & s1 & Hl & Hs & Hlt); [lia|].
      destruct (IH s1) as (ls & s' & Hls & Hrun & H0 & Hkept);
        [lia|exact (weaver_inv_step l s s1 I Hs)
        |exact (weaver_more_step n l s s1 M Hs)|].
      exists (l :: ls), s'. split; [simpl; rewrite Hl, Hls; reflexivity|].
      split; [simpl; rewrite Hs; exact Hrun|]. split; [exact H0|].
      intros j p Hj Hp.
      destruct (weaver_step_wait_kept l s s1 j p Hs Hj Hp) as (p1 & Hj1 & Hp1).
      exact (Hkept j p1 Hj1 Hp1).
Qed.

Lemma weaver_returned_has_closer (n : nat) (s : Weaver.state)
      (j : nat) (b : bool) (r : option error) :
  weaver_inv s -> weaver_more n s -> count wait_pending (Weaver.calls s) = 0 ->
  Weaver.calls s !! j = Some (Weaver.WaitReturn b r) ->
  exists k r', Weaver.calls s !! k = Some (Weaver.WaitReturn true r').
Proof.
  intros I M H0 Hj. destruct b; [exists j, r; exact Hj|].
  pose proof (wm_loser n s M j _ Hj eq_refl) as Hic.
  destruct (weaver_isClosed_has_winner s I Hic) as (k & c & Hk & Hw).
  pose proof (count_zero wait_pending _ k c H0 Hk) as Hp.
  destruct c; try discriminate Hw; try discriminate Hp.
  destruct closer; [|discriminate Hw]. exists k, r0. exact Hk.
Qed.

(** X14. [Wait] cannot deadlock and leaves no worker behind, as long as the tasks
    themselves come to an end (a [Task] of the model ends at a step of the
    schedule; a task that waits for the cancellation, which [Wait] only does
    after [w.wg.Wait()], is not covered).  Whatever has happened so far, the
    steps of the workers and of the calls that were made are enough, with no
    cancellation of the parent context and no further call, to bring every
    call of [Wait] to its return; and if [Wait] was called at all, then every
    worker has left and both channels are closed. *)
Theorem weaver_wait_never_deadlocks
        (c : option error) (n : nat) (ls : list Weaver.label) (s : Weaver.state) :
  Weaver.run ls (Weaver.pool c n) = Some s ->
  exists ls' s',
    forallb pool_step ls' = true /\ Weaver.run ls' s = Some s' /\
    Weaver.crashed s' = false /\
    (forall j p, Weaver.calls s !! j = Some p -> is_wait p = true ->
       exists b r, Weaver.calls s' !! j = Some (Weaver.WaitReturn b r)) /\
    (0 < count is_wait (Weaver.calls s) ->
     (forall i p, Weaver.workers s' !! i = Some p -> p = Weaver.WExit) /\
     closed (Weaver.taskQueue s') = true /\
     closed (errChan (Weaver.slt s')) = true).
Proof.
  intros H.
  pose proof (weaver_inv_run ls _ s (weaver_inv_pool c n) H) as I.
  pose proof (weaver_more_run n ls _ s (weaver_more_pool c n) H) as M.
  destruct (weaver_can_return n (weaver_weight s) s (le_n _) I M)
    as (ls' & s' & Hls & Hrun & H0 & Hkept).
  pose proof (weaver_inv_run ls' s s' I Hrun) as I'.
  pose proof (weaver_more_run n ls' s s' M Hrun) as M'.
  assert (forall j p, Weaver.calls s !! j = Some p -> is_wait p = true ->
            exists b r, Weaver.calls s' !! j = Some (Weaver.WaitReturn b r)) as Hret.
  { intros j p Hj Hp. destruct (Hkept j p Hj Hp) as (p' & Hj' & Hp').
    pose proof (count_zero wait_pending _ j p' H0 Hj') as Hn.
    destruct p'; try discriminate Hp'; try discriminate Hn.
    exists closer, r. exact Hj'. }
  exists ls', s'. split; [exact Hls|]. split; [exact Hrun|].
  split; [exact (wi_crashed s' I')|]. split; [exact Hret|].
  intros Hpos. destruct (count_pos_lookup _ _ Hpos) as (j & p & Hj & Hp).
  destruct (Hret j p Hj Hp) as (b & r & Hj').
  destruct (weaver_returned_has_closer n s' j b r I' M' H0 Hj') as (k & r' & Hk).
  destruct (wi_phase s' I' k _ Hk eq_refl) as (Hq & He & Hw). simpl in *.
  split; [|split; [exact Hq|exact He]].
  intros i p0 Hi. exact (weaver_live_zero s' i p0 I' (Hw eq_refl) Hi).
Qed.

(** A pool of one worker at the moment a call of [w.Wait] has closed the
    queue while a call of [w.Add] stands at its send. *)
Lemma weaver_wait_never_deadlocks_witness :
  let s := weaver_after weaver_add_meets_close (Weaver.pool None 1) in
  Weaver.run weaver_add_meets_close (Weaver.pool None 1) = Some s /\
  exists ls' s',
    forallb pool_step ls' = true /\ Weaver.run ls' s = Some s' /\
    Weaver.crashed s' = false /\
    (forall j p, Weaver.calls s !! j = Some p -> is_wait p = true ->
       exists b r, Weaver.calls s' !! j = Some (Weaver.WaitReturn b r)) /\
    (0 < count is_wait (Weaver.calls s) ->
     (forall i p, Weaver.workers s' !! i = Some p -> p = Weaver.WExit) /\
     closed (Weaver.taskQueue s') = true /\
     closed (errChan (Weaver.slt s')) = true).
Proof.
  intros s.
  assert (Weaver.run weaver_add_meets_close (Weaver.pool None 1) = Some s) as H1
    by (vm_compute; reflexivity).
  split; [exact H1|].
  exact (weaver_wait_never_deadlocks None 1 weaver_add_meets_close s H1).
Defined.

(** ** [Weaver]: the errors of [Add], and pools whose tasks all succeed *)

Lemma weaver_add_failed_step (l : Weaver.label) (s s' : Weaver.state) :
  weaver_inv s ->
  (forall j e, Weaver.calls s !! j = Some (Weaver.AddReturn (Some e)) ->
               Weaver.isClosed s = true /\ (e = errClosed \/ e = errCannotAdd)) ->
  Weaver.step l s = Some s' ->
  forall j e, Weaver.calls s' !! j = Some (Weaver.AddReturn (Some e)) ->
              Weaver.isClosed s' = true /\ (e = errClosed \/ e = errCannotAdd).
Proof.
  intros I P H j e Hj'.
  pose proof (wi_open s I) as Hopen.
  destruct s as [c w x q ic fe ws cs cr lg ps bg]. simpl in *.
  unfold Weaver.step in H. simpl in H. destruct cr; [discriminate|].
  destruct l as [e0|i|i|i|t| |k].
  - break_all H. simpl in *. exact (P j e Hj').
  - unfold Weaver.worker_select in H. simpl in H.
    break_all H; simpl in *; exact (P j e Hj').
  - unfold Weaver.worker_select in H. simpl in H.
    break_all H; simpl in *; exact (P j e Hj').
  - unfold Weaver.worker, Weaver.execute, Weaver.finish in H. simpl in H.
    break_all H; simpl in *; exact (P j e Hj').
  - injection H as <-. simpl in *. apply lookup_snoc_cases in Hj'.
    destruct Hj' as [Hj'|Hj']; [exact (P j e Hj')|discriminate Hj'].
  - injection H as <-. simpl in *. apply lookup_snoc_cases in Hj'.
    destruct Hj' as [Hj'|Hj']; [exact (P j e Hj')|discriminate Hj'].
  - unfold Weaver.caller, Weaver.Add, Weaver.Wait in H. simpl in H.
    destruct (cs !! k) as [p|] eqn:Hk; [|discriminate].
    destruct q as [qc qb qo]. destruct x as [on [ec eb eo]].
    unfold chan_send, chan_recv, chan_close, Weaver.cancel in H. simpl in *.
    destruct p; try discriminate H; break_inner H; simpl in *;
      try (apply lookup_insert_cases in Hj';
           destruct Hj' as [[-> Hj']|[_ Hj']];
           [try discriminate Hj'; injection Hj' as <-; split; auto
           |try exact (P j e Hj');
            destruct (P j e Hj') as [Hc He]; try discriminate Hc; auto]);
      try exact (P j e Hj').
    destruct ic; [reflexivity|].
    destruct (Hopen eq_refl) as [Hq _]. discriminate Hq.
Qed.

Lemma weaver_add_failed_run (ls : list Weaver.label) (s s' : Weaver.state) :
  weaver_inv s ->
  (forall j e, Weaver.calls s !! j = Some (Weaver.AddReturn (Some e)) ->
               Weaver.isClosed s = true /\ (e = errClosed \/ e = errCannotAdd)) ->
  Weaver.run ls s = Some s' ->
  forall j e, Weaver.calls s' !! j = Some (Weaver.AddReturn (Some e)) ->
              Weaver.isClosed s' = true /\ (e = errClosed \/ e = errCannotAdd).
Proof.
  revert s. induction ls as [|l ls IH]; intros s I P Hr; simpl in Hr.
  - injection Hr as <-. exact P.
  - destruct (Weaver.step l s) as [s1|] eqn:Hs; [|discriminate].
    exact (IH s1 (weaver_inv_step l s s1 I Hs)
              (weaver_add_failed_step l s s1 I P Hs) Hr).
Qed.

(** X15. [Add] fails only on a pool that [Wait] has marked closed, and then with
    one of its two errors: neither a full queue nor a cancelled context makes
    [Add] return an error. *)
Theorem weaver_add_fails_only_when_closed
        (c : option error) (n : nat) (ls : list Weaver.label) (s : Weaver.state)
        (j : nat) (e : error) :
  Weaver.run ls (Weaver.pool c n) = Some s ->
  Weaver.calls s !! j = Some (Weaver.AddReturn (Some e)) ->
  Weaver.isClosed s = true /\ (e = errClosed \/ e = errCannotAdd).
Proof.
  intros H. apply (weaver_add_failed_run ls _ s (weaver_inv_pool c n)); [|exact H].
  intros k e0 Hk. discriminate Hk.
Qed.

(** [w.Add] of [TestWeaver_Add_After_Wait], called after [w.Wait()] has won
    the compare-and-swap. *)
Lemma weaver_add_fails_only_when_closed_witness :
  let s := weaver_after weaver_add_after_wait (Weaver.pool None 1) in
  Weaver.run weaver_add_after_wait (Weaver.pool None 1) = Some s /\
  Weaver.calls s !! 1 = Some (Weaver.AddReturn (Some errClosed)) /\
  Weaver.isClosed s = true /\ (errClosed = errClosed \/ errClosed = errCannotAdd).
Proof.
  intros s.
  assert (Weaver.run weaver_add_after_wait (Weaver.pool None 1) = Some s) as H1
    by (vm_compute; reflexivity).
  assert (Weaver.calls s !! 1 = Some (Weaver.AddReturn (Some errClosed))) as H2
    by (vm_compute; reflexivity).
  split; [exact H1|]. split; [exact H2|].
  exact (weaver_add_fails_only_when_closed None 1 weaver_add_after_wait s 1
           errClosed H1 H2).
Defined.

Lemma weaver_quiet_pool (c : option error) (n : nat) : weaver_quiet (Weaver.pool c n).
Proof.
  split; simpl; try reflexivity.
  - intros j c0 t Hj. discriminate Hj.
  - intros t Ht. inversion Ht.
  - intros i p t Hi Hp. apply lookup_replicate in Hi. destruct Hi as [-> _].
    discriminate Hp.
Qed.

Ltac quiet_other M :=
  let k := fresh "k" in let c0 := fresh "c0" in let t0 := fresh "t0" in
  let Hk := fresh "Hk" in let Hv := fresh "Hv" in
  intros k c0 t0 Hk Hv;
  first [ apply lookup_insert_cases in Hk; destruct Hk as [[-> ->]|[_ Hk]];
          [simpl in Hv; try discriminate Hv; try (injection Hv as <-)
          |exact (M k c0 t0 Hk Hv)]
        | apply lookup_snoc_cases in Hk; destruct Hk as [Hk| ->];
          [exact (M k c0 t0 Hk Hv)
          |simpl in Hv; try discriminate Hv; try (injection Hv as <-)]
        | exact (M k c0 t0 Hk Hv) ].

Lemma weaver_quiet_step (l : Weaver.label) (s s' : Weaver.state) :
  weaver_quiet s -> (forall t, l = Weaver.CallAdd t -> task_succeeds t) ->
  Weaver.step l s = Some s' -> weaver_quiet s'.
Proof.
  intros [Qc Qq Qw Ql Qp] Hl H.
  destruct s as [c w x q ic fe ws cs cr lg ps bg]. simpl in *. subst lg ps.
  unfold Weaver.step in H. simpl in H. destruct cr; [discriminate|].
  destruct l as [e|i|i|i|t| |j].
  - (* Cancel *)
    break_all H. split; simpl; auto.
  - (* Pull *)
    unfold Weaver.worker_select in H. simpl in H.
    destruct (ws !! i) as [p|] eqn:Hi; [|discriminate].
    destruct p; try discriminate.
    destruct q as [qc qb qo]. unfold chan_recv in H. simpl in *.
    destruct qb as [|t qb].
    + destruct qo; [|discriminate]. injection H as <-.
      split; simpl; auto. quiet_other Qw.
    + injection H as <-.
      split; simpl; auto.
      * intros t0 Ht0. apply Qq. apply elem_of_cons. right. exact Ht0.
      * quiet_other Qw. apply Qq. apply elem_of_cons. left. reflexivity.
  - (* Quit *)
    unfold Weaver.worker_select in H. simpl in H.
    destruct (ws !! i) as [p|] eqn:Hi; [|discriminate].
    destruct p; try discriminate.
    break_all H. split; simpl; auto. quiet_other Qw.
  - (* Work *)
    unfold Weaver.worker, Weaver.execute, Weaver.finish in H. simpl in H.
    destruct (ws !! i) as [p|] eqn:Hi; [|discriminate].
    destruct p as [|t|t| |]; try discriminate.
    + pose proof (Qw i _ t Hi eq_refl) as Ht.
      break_all H; split; simpl; auto; quiet_other Qw; exact Ht.
    + rewrite (Qw i _ t Hi eq_refl c) in H. injection H as <-.
      split; simpl; auto. quiet_other Qw.
    + break_all H; split; simpl; auto; quiet_other Qw.
  - (* CallAdd *)
    injection H as <-. split; simpl; auto.
    quiet_other Qc. exact (Hl t eq_refl).
  - (* CallWait *)
    injection H as <-. split; simpl; auto. quiet_other Qc.
  - (* Caller *)
    unfold Weaver.caller, Weaver.Add, Weaver.Wait in H. simpl in H.
    destruct (cs !! j) as [p|] eqn:Hj; [|discriminate].
    destruct q as [qc qb qo]. destruct x as [on [ec eb eo]].
    unfold chan_send, chan_recv, chan_close, Weaver.cancel in H. simpl in *.
    destruct p; try discriminate H;
      try (pose proof (Qc j _ t Hj eq_refl) as Ht);
      break_inner H; split; simpl; auto;
      try (quiet_other Qc; exact Ht);
      try (intros t0 Ht0; apply elem_of_app in Ht0; destruct Ht0 as [Ht0|Ht0];
           [exact (Qq t0 Ht0)|apply list_elem_of_singleton in Ht0; subst t0; exact Ht]).
Qed.

Lemma weaver_quiet_run (ls : list Weaver.label) (s s' : Weaver.state) :
  weaver_quiet s -> (forall t, t ∈ submitted ls -> task_succeeds t) ->
  Weaver.run ls s = Some s' -> weaver_quiet s'.
Proof.
  revert s. induction ls as [|l ls IH]; intros s Q Hok H; simpl in H.
  - injection H as <-. exact Q.
  - destruct (Weaver.step l s) as [s1|] eqn:Hs; [|discriminate].
    apply (IH s1); [apply (weaver_quiet_step l s s1 Q); [|exact Hs]| |exact H].
    + intros t ->. apply Hok. simpl. apply elem_of_cons. left. reflexivity.
    + intros t Ht. apply Hok.
      destruct l; simpl; try exact Ht. apply elem_of_cons. right. exact Ht.
Qed.

(** X16. When every task that is submitted returns [nil], nothing is recorded and
    every call of [Wait] returns [nil], whatever the schedule, the number of
    calls and the cancellations are. *)
Theorem weaver_all_succeed
        (c : option error) (n : nat) (ls : list Weaver.label) (s : Weaver.state) :
  (forall t, t ∈ submitted ls -> task_succeeds t) ->
  Weaver.run ls (Weaver.pool c n) = Some s ->
  Weaver.log s = [] /\ Weaver.panics s = [] /\
  (forall j b r, Weaver.calls s !! j = Some (Weaver.WaitReturn b r) -> r = None).
Proof.
  intros Hok H.
  pose proof (weaver_quiet_run ls _ s (weaver_quiet_pool c n) Hok H) as Q.
  pose proof (weaver_inv_run ls _ s (weaver_inv_pool c n) H) as I.
  split; [exact (wq_log s Q)|]. split; [exact (wq_panics s Q)|].
  intros j b r Hj.
  destruct (wi_values s I j _ r Hj eq_refl) as [Hr|Hr]; [exact Hr|].
  rewrite (wq_log s Q) in Hr. exact Hr.
Qed.

(** [w.Add(taskOK); w.Wait()] on a pool of one worker, as in
    [TestWeaver_Success]. *)
Lemma weaver_all_succeed_witness :
  let ls := weaver_add_then_wait taskOK in
  let s := weaver_after ls (Weaver.pool None 1) in
  (forall t, t ∈ submitted ls -> task_succeeds t) /\
  Weaver.run ls (Weaver.pool None 1) = Some s /\
  Weaver.log s = [] /\ Weaver.panics s = [] /\
  (forall j b r, Weaver.calls s !! j = Some (Weaver.WaitReturn b r) -> r = None).
Proof.
  intros ls s.
  assert (forall t, t ∈ submitted ls -> task_succeeds t) as H0.
  { intros t Ht. simpl in Ht. apply list_elem_of_singleton in Ht. subst t.
    intros c. reflexivity. }
  assert (Weaver.run ls (Weaver.pool None 1) = Some s) as H1
    by (vm_compute; reflexivity).
  split; [exact H0|]. split; [exact H1|].
  exact (weaver_all_succeed None 1 ls s H0 H1).
Defined.

(** ** [Limiter] *)

Lemma limiter_inv_step (m : nat) (l : Limiter.label) (s s' : Limiter.state) :
  limiter_inv m s -> Limiter.step l s = Some s' -> limiter_inv m s'.
Proof.
  intros [Hcap Hopen Hlen Hle] H.
  destruct s as [[qc qb qo] rs]. simpl in *. subst qc qo.
  destruct l as [h|i]; simpl in H.
  - injection H as <-. split; simpl; auto. rewrite count_app. simpl. lia.
  - unfold Limiter.Wrap, chan_send, chan_recv in H. simpl in H.
    destruct (rs !! i) as [p|] eqn:Hi; [|discriminate].
    pose proof (count_insert Limiter.holding rs i p) as Hc.
    destruct p as [h|h|h|h]; [| | |discriminate].
    + specialize (Hc (Limiter.Serve h) Hi). simpl in Hc.
      destruct (List.length qb <? m)%nat eqn:Hlt; [|discriminate].
      apply Nat.ltb_lt in Hlt. injection H as <-.
      split; simpl; auto; rewrite length_app; simpl; lia.
    + specialize (Hc (Limiter.Release h) Hi). simpl in Hc.
      injection H as <-. split; simpl; auto; lia.
    + specialize (Hc (Limiter.Left h) Hi). simpl in Hc.
      destruct qb as [|u qb]; [discriminate|]. injection H as <-.
      simpl in *. split; simpl; auto; lia.
Qed.

Lemma limiter_inv_run (m : nat) (ls : list Limiter.label) (s s' : Limiter.state) :
  limiter_inv m s -> Limiter.run ls s = Some s' -> limiter_inv m s'.
Proof.
  revert s. induction ls as [|l ls IH]; intros s I H; simpl in H.
  - injection H as <-. exact I.
  - destruct (Limiter.step l s) as [s1|] eqn:Hs; [|discriminate].
    exact (IH s1 (limiter_inv_step m l s s1 I Hs) H).
Qed.

Lemma limiter_inv_new (maxConcurrency : Z) (s : Limiter.state) :
  Limiter.NewLimiter maxConcurrency = inr s ->
  (0 < maxConcurrency)%Z /\ limiter_inv (Z.to_nat maxConcurrency) s.
Proof.
  unfold Limiter.NewLimiter. intros H.
  destruct (maxConcurrency <=? 0)%Z eqn:Hm; [discriminate|].
  apply Z.leb_gt in Hm. injection H as <-. split; [exact Hm|].
  split; simpl; auto; lia.
Qed.

Lemma count_serving_le (rs : list Limiter.req_pc) :
  count Limiter.serving rs <= count Limiter.holding rs.
Proof.
  induction rs as [|p rs IH]; simpl; [lia|]. destruct p; simpl; lia.
Qed.

(** X17. The limiter keeps its limit: along every schedule the requests that are
    inside the next handler are never more than [maxConcurrency], the slots
    taken in the semaphore are exactly those of the requests between their
    send and their deferred receive, and when all the slots are taken a new
    request cannot pass its send. *)
Theorem limiter_ceiling
        (maxConcurrency : Z) (s0 : Limiter.state)
        (ls : list Limiter.label) (s : Limiter.state) :
  Limiter.NewLimiter maxConcurrency = inr s0 ->
  Limiter.run ls s0 = Some s ->
  (Z.of_nat (count Limiter.serving (Limiter.reqs s)) <= maxConcurrency)%Z /\
  List.length (buf (Limiter.semaphore s)) = count Limiter.holding (Limiter.reqs s) /\
  (forall i h, Z.of_nat (count Limiter.holding (Limiter.reqs s)) = maxConcurrency ->
               Limiter.reqs s !! i = Some (Limiter.Acquire h) ->
               Limiter.step (Limiter.Req i) s = None).
Proof.
  intros Hnew Hrun. destruct (limiter_inv_new _ _ Hnew) as [Hpos I0].
  pose proof (limiter_inv_run _ ls s0 s I0 Hrun) as [Hcap Hopen Hlen Hle].
  pose proof (count_serving_le (Limiter.reqs s)) as Hsv.
  split; [lia|]. split; [exact Hlen|].
  intros i h Hfull Hi. simpl. unfold Limiter.Wrap, chan_send.
  rewrite Hi, Hopen, Hcap, Hlen.
  assert (count Limiter.holding (Limiter.reqs s) = Z.to_nat maxConcurrency)
    as -> by lia.
  rewrite Nat.ltb_irrefl. reflexivity.
Qed.

(** Three requests to the limiter of [NewLimiter(2)], as in [TestLimiter]. *)
Lemma limiter_ceiling_witness :
  let s := limiter_after limiter_three_requests limiter_of_two in
  Limiter.NewLimiter 2 = inr limiter_of_two /\
  Limiter.run limiter_three_requests limiter_of_two = Some s /\
  (Z.of_nat (count Limiter.serving (Limiter.reqs s)) <= 2)%Z /\
  List.length (buf (Limiter.semaphore s)) = count Limiter.holding (Limiter.reqs s) /\
  (forall i h, Z.of_nat (count Limiter.holding (Limiter.reqs s)) = 2%Z ->
               Limiter.reqs s !! i = Some (Limiter.Acquire h) ->
               Limiter.step (Limiter.Req i) s = None).
Proof.
  intros s.
  assert (Limiter.NewLimiter 2 = inr limiter_of_two) as H1 by reflexivity.
  assert (Limiter.run limiter_three_requests limiter_of_two = Some s) as H2
    by (vm_compute; reflexivity).
  split; [exact H1|]. split; [exact H2|].
  exact (limiter_ceiling 2 limiter_of_two limiter_three_requests s H1 H2).
Defined.

(** X18. The slot is given back whatever the next handler did: the deferred
    receive of a request is never blocked, it frees one slot, and the request
    then ends as its handler did (with its panic, if it panicked).  When
    every request has ended, the semaphore is empty. *)
Theorem limiter_releases_slot
        (maxConcurrency : Z) (s0 : Limiter.state)
        (ls : list Limiter.label) (s : Limiter.state) :
  Limiter.NewLimiter maxConcurrency = inr s0 ->
  Limiter.run ls s0 = Some s ->
  (forall i h, Limiter.reqs s !! i = Some (Limiter.Release h) ->
     exists s', Limiter.step (Limiter.Req i) s = Some s' /\
                Limiter.reqs s' !! i = Some (Limiter.Left h) /\
                S (List.length (buf (Limiter.semaphore s'))) =
                List.length (buf (Limiter.semaphore s))) /\
  ((forall i p, Limiter.reqs s !! i = Some p -> exists h, p = Limiter.Left h) ->
   buf (Limiter.semaphore s) = []).
Proof.
  intros Hnew Hrun. destruct (limiter_inv_new _ _ Hnew) as [Hpos I0].
  pose proof (limiter_inv_run _ ls s0 s I0 Hrun) as [Hcap Hopen Hlen Hle].
  split.
  - intros i h Hi. simpl. unfold Limiter.Wrap, chan_recv. rewrite Hi.
    pose proof (count_insert Limiter.holding _ i _ (Limiter.Left h) Hi) as Hc.
    simpl in Hc.
    destruct (buf (Limiter.semaphore s)) as [|u qb] eqn:Hb; [simpl in Hlen; lia|].
    eexists. split; [reflexivity|]. simpl. split; [|reflexivity].
    apply list_lookup_insert_eq. exact (lookup_lt_Some _ _ _ Hi).
  - intros Hall.
    assert (count Limiter.holding (Limiter.reqs s) = 0) as H0.
    { revert Hall. generalize (Limiter.reqs s). intros rs.
      induction rs as [|p rs IH]; intros Hall; [reflexivity|]. simpl.
      destruct (Hall 0 p eq_refl) as [h ->]. simpl.
      apply IH. intros i p' Hi. exact (Hall (S i) p' Hi). }
    rewrite H0 in Hlen. destruct (buf (Limiter.semaphore s)); [reflexivity|].
    discriminate Hlen.
Qed.

(** Three requests to the limiter of [NewLimiter(2)]; the handler of the
    second has panicked. *)
Lemma limiter_releases_slot_witness :
  let s := limiter_after limiter_three_requests limiter_of_two in
  Limiter.NewLimiter 2 = inr limiter_of_two /\
  Limiter.run limiter_three_requests limiter_of_two = Some s /\
  (forall i h, Limiter.reqs s !! i = Some (Limiter.Release h) ->
     exists s', Limiter.step (Limiter.Req i) s = Some s' /\
                Limiter.reqs s' !! i = Some (Limiter.Left h) /\
                S (List.length (buf (Limiter.semaphore s'))) =
                List.length (buf (Limiter.semaphore s))) /\
  ((forall i p, Limiter.reqs s !! i = Some p -> exists h, p = Limiter.Left h) ->
   buf (Limiter.semaphore s) = []).
Proof.
  intros s.
  assert (Limiter.NewLimiter 2 = inr limiter_of_two) as H1 by reflexivity.
  assert (Limiter.run limiter_three_requests limiter_of_two = Some s) as H2
    by (vm_compute; reflexivity).
  split; [exact H1|]. split; [exact H2|].
  exact (limiter_releases_slot 2 limiter_of_two limiter_three_requests s H1 H2).
Defined.

Lemma limiter_progress (m : nat) (s : Limiter.state) :
  0 < m -> limiter_inv m s -> 0 < total Limiter.weight (Limiter.reqs s) ->
  exists i s', Limiter.step (Limiter.Req i) s = Some s' /\
               total Limiter.weight (Limiter.reqs s') <
               total Limiter.weight (Limiter.reqs s).
Proof.
  intros Hm [Hcap Hopen Hlen Hle] Hpos.
  destruct (count Limiter.holding (Limiter.reqs s)) as [|k] eqn:Hh.
  - (* no slot is taken: a request that waits for one gets it *)
    destruct (total_pos _ _ Hpos) as (i & p & Hi & Hp).
    pose proof (count_zero _ _ i p Hh Hi) as Hnh.
    pose proof (total_insert Limiter.weight (Limiter.reqs s) i p) as Hins.
    destruct p as [h|h|h|h]; try discriminate Hnh; [|simpl in Hp; lia].
    specialize (Hins (Limiter.Serve h) Hi). simpl in Hins.
    exists i. simpl. unfold Limiter.Wrap, chan_send.
    rewrite Hi, Hopen, Hcap, Hlen.
    assert ((0 <? m)%nat = true) as -> by (apply Nat.ltb_lt; exact Hm).
    eexists. split; [reflexivity|]. simpl. lia.
  - (* a request holds a slot: it can go on *)
    destruct (count_pos_lookup Limiter.holding (Limiter.reqs s)) as (i & p & Hi & Hp);
      [lia|].
    pose proof (total_insert Limiter.weight (Limiter.reqs s) i p) as Hins.
    exists i. simpl. unfold Limiter.Wrap, chan_recv. rewrite Hi.
    destruct p as [h|h|h|h]; try discriminate Hp.
    + specialize (Hins (Limiter.Release h) Hi). simpl in Hins.
      eexists. split; [reflexivity|]. simpl. lia.
    + specialize (Hins (Limiter.Left h) Hi). simpl in Hins.
      destruct (buf (Limiter.semaphore s)) as [|u qb]; [simpl in Hlen; lia|].
      eexists. split; [reflexivity|]. simpl. lia.
Qed.

Lemma limiter_can_finish (m k : nat) (s : Limiter.state) :
  0 < m -> total Limiter.weight (Limiter.reqs s) <= k -> limiter_inv m s ->
  exists ls s', forallb Limiter.is_req ls = true /\ Limiter.run ls s = Some s' /\
                total Limiter.weight (Limiter.reqs s') = 0 /\
                List.length (Limiter.reqs s') = List.length (Limiter.reqs s).
Proof.
  intros Hm. revert s. induction k as [|k IH]; intros s Hk I.
  - exists [], s. repeat split; lia.
  - destruct (total Limiter.weight (Limiter.reqs s)) as [|w] eqn:Hw.
    + exists [], s. repeat split; assumption.
    + destruct (limiter_progress m s Hm I) as (i & s1 & Hs & Hlt); [lia|].
      destruct (IH s1) as (ls & s' & Hls & Hrun & H0 & Hlen);
        [lia|exact (limiter_inv_step m _ s s1 I Hs)|].
      exists (Limiter.Req i :: ls), s'.
      split; [simpl; exact Hls|]. split; [simpl in *; rewrite Hs; exact Hrun|].
      split; [exact H0|]. rewrite Hlen. simpl in Hs. unfold Limiter.Wrap in Hs.
      break_all Hs; simpl; rewrite ?length_insert; reflexivity.
Qed.

(** X19. The limiter cannot deadlock and leaks no slot, as long as the next
    handler comes to an end: whatever has happened so far, the requests that
    have come in can all be brought to their end by their own steps, and then
    the semaphore is empty again. *)
Theorem limiter_never_deadlocks
        (maxConcurrency : Z) (s0 : Limiter.state)
        (ls : list Limiter.label) (s : Limiter.state) :
  Limiter.NewLimiter maxConcurrency = inr s0 ->
  Limiter.run ls s0 = Some s ->
  exists ls' s',
    forallb Limiter.is_req ls' = true /\ Limiter.run ls' s = Some s' /\
    List.length (Limiter.reqs s') = List.length (Limiter.reqs s) /\
    (forall i p, Limiter.reqs s' !! i = Some p -> exists h, p = Limiter.Left h) /\
    buf (Limiter.semaphore s') = [].
Proof.
  intros Hnew Hrun. destruct (limiter_inv_new _ _ Hnew) as [Hpos I0].
  pose proof (limiter_inv_run _ ls s0 s I0 Hrun) as I.
  destruct (limiter_can_finish (Z.to_nat maxConcurrency) _ s ltac:(lia) (le_n _) I)
    as (ls' & s' & Hls & Hrun' & H0 & Hlen).
  pose proof (limiter_inv_run _ ls' s s' I Hrun') as [Hcap Hopen Hl Hle].
  assert (forall i p, Limiter.reqs s' !! i = Some p -> exists h, p = Limiter.Left h)
    as Hall.
  { intros i p Hi. pose proof (total_zero _ _ i p H0 Hi) as Hw.
    destruct p as [h|h|h|h]; simpl in Hw; try lia. exists h. reflexivity. }
  exists ls', s'. split; [exact Hls|]. split; [exact Hrun'|].
  split; [exact Hlen|]. split; [exact Hall|].
  assert (count Limiter.holding (Limiter.reqs s') = 0) as Hc.
  { clear -Hall. revert Hall. generalize (Limiter.reqs s'). intros rs.
    induction rs as [|p rs IH]; intros Hall; [reflexivity|]. simpl.
    destruct (Hall 0 p eq_refl) as [h ->]. simpl.
    apply IH. intros i p' Hi. exact (Hall (S i) p' Hi). }
  rewrite Hc in Hl. destruct (buf (Limiter.semaphore s')); [reflexivity|].
  discriminate Hl.
Qed.

(** Three requests to the limiter of [NewLimiter(2)], the third waiting for
    a slot. *)
Lemma limiter_never_deadlocks_witness :
  let s := limiter_after limiter_three_requests limiter_of_two in
  Limiter.NewLimiter 2 = inr limiter_of_two /\
  Limiter.run limiter_three_requests limiter_of_two = Some s /\
  exists ls' s',
    forallb Limiter.is_req ls' = true /\ Limiter.run ls' s = Some s' /\
    List.length (Limiter.reqs s') = List.length (Limiter.reqs s) /\
    (forall i p, Limiter.reqs s' !! i = Some p -> exists h, p = Limiter.Left h) /\
    buf (Limiter.semaphore s') = [].
Proof.
  intros s.
  assert (Limiter.NewLimiter 2 = inr limiter_of_two) as H1 by reflexivity.
  assert (Limiter.run limiter_three_requests limiter_of_two = Some s) as H2
    by (vm_compute; reflexivity).
  split; [exact H1|]. split; [exact H2|].
  exact (limiter_never_deadlocks 2 limiter_of_two limiter_three_requests s H1 H2).
Defined.

(** ** [Sail]: which failure is returned when the context is not cancelled *)

Lemma lookup_snoc_index {A : Type} (l : list A) (k : nat) (x z : A) :
  (l ++ [x]) !! k = Some z ->
  l !! k = Some z \/ (k = List.length l /\ z = x).
Proof.
  intros H. destruct (Nat.lt_ge_cases k (List.length l)) as [Hlt|Hge].
  - left. rewrite lookup_app_l in H by exact Hlt. exact H.
  - right. rewrite lookup_app_r in H by exact Hge.
    destruct (k - List.length l) as [|d] eqn:Hd; simpl in H; [|discriminate].
    injection H as <-. split; [lia|reflexivity].
Qed.

Lemma drop_cons_inv {A : Type} (l : list A) (n : nat) (x : A) (r : list A) :
  drop n l = x :: r -> l !! n = Some x /\ drop (S n) l = r.
Proof.
  revert n. induction l as [|a l IH]; intros n H.
  - destruct n; discriminate H.
  - destruct n as [|n]; simpl in H.
    + injection H as -> ->. split; reflexivity.
    + exact (IH n H).
Qed.

Lemma task_done_mono (t : Task) (lg es : list error) :
  task_done t lg -> task_done t (lg ++ es).
Proof.
  unfold task_done. destruct (t None) as [[e|]|p]; auto;
    intros H; apply elem_of_app; left; exact H.
Qed.

Lemma sail_order_init (tasks : list Task) : sail_order tasks (Sail.init None tasks).
Proof.
  split; simpl.
  - reflexivity.
  - intros rest [= <-]. reflexivity.
  - intros i g Hi. discriminate Hi.
  - intros e He. inversion He.
Qed.

Lemma sail_order_step (tasks : list Task) (l : Sail.label) (s s' : Sail.state) :
  sail_inv s -> sail_order tasks s -> Sail.no_cancel l = true ->
  Sail.step l s = Some s' -> sail_order tasks s'.
Proof.
  intros I [Oc Ol Og Olog] Hl H.
  pose proof (sail_live_open s) as Hopen. specialize (fun i g => Hopen i g I).
  pose proof (si_slot s I) as Hslot.
  unfold Sail.step in H.
  destruct s as [c w x m gs cl cr lg ps]. simpl in *. subst c.
  destruct cr; [discriminate|].
  destruct l; [discriminate Hl|..].
  - (* Dispatch *)
    destruct m as [[|t rest]| |]; try discriminate.
    + injection H as <-. split; simpl; auto. intros rest [=].
    + injection H as <-.
      destruct (drop_cons_inv _ _ _ _ (Ol _ eq_refl)) as [Ht Hd].
      split; simpl; auto.
      * intros rest' [= <-]. rewrite length_app. simpl.
        rewrite Nat.add_1_r. exact Hd.
      * intros i g Hi. apply lookup_snoc_index in Hi.
        destruct Hi as [Hi|[-> ->]]; [exact (Og i g Hi)|].
        exists t. split; [exact Ht|reflexivity].
  - (* SelectErr *)
    destruct m; try discriminate.
    break_all H; split; simpl; auto; intros rest [=].
  - (* SelectDone *)
    destruct m; discriminate.
  - (* Go *)
    destruct (gs !! i) as [g|] eqn:Hi; [|discriminate].
    destruct (Og i g Hi) as (t & Ht & Hg).
    assert (t ∈ tasks) as Hin by (apply list_elem_of_lookup; exists i; exact Ht).
    assert (forall es, (forall e, e ∈ es -> task_error t e) ->
              forall e, e ∈ lg ++ es -> exists t0, t0 ∈ tasks /\ task_error t0 e)
      as Hlog.
    { intros es Hes e He. apply elem_of_app in He. destruct He as [He|He];
        [exact (Olog e He)|exists t; split; [exact Hin|exact (Hes e He)]]. }
    assert (forall es, task_done t (lg ++ es) ->
              forall k g0, <[i := Sail.GDefer]> gs !! k = Some g0 ->
              exists t0, tasks !! k = Some t0 /\
                         match g0 with
                         | Sail.GRun t' => t' = t0
                         | _ => task_done t0 (lg ++ es)
                         end) as Hgos.
    { intros es Hd k g0 Hk. apply lookup_insert_cases in Hk.
      destruct Hk as [[-> ->]|[_ Hk]]; [exists t; split; [exact Ht|exact Hd]|].
      destruct (Og k g0 Hk) as (t0 & Ht0 & Hg0). exists t0. split; [exact Ht0|].
      destruct g0; [exact Hg0|apply task_done_mono; exact Hg0..]. }
    destruct g as [t'| |]; [| |discriminate].
    + subst t'. unfold Sail.finish in H. simpl in H.
      pose proof (Hopen i _ Hi eq_refl) as Hco. simpl in Hco.
      destruct (t None) as [[e|]|p] eqn:Hout.
      * destruct (slot_ok_send_ready _ _ e Hslot Hco) as [x' Hx].
        rewrite Hx in H. injection H as <-.
        split; simpl; [reflexivity|rewrite ?length_insert; exact Ol| |].
        -- apply Hgos. unfold task_done. rewrite Hout.
           apply elem_of_app. right. apply list_elem_of_singleton. reflexivity.
        -- apply Hlog. intros e0 He0. apply list_elem_of_singleton in He0.
           subst e0. left. exact Hout.
      * injection H as <-.
        split; simpl; [reflexivity|rewrite ?length_insert; exact Ol| |exact Olog].
        intros k g0 Hk. rewrite <- (app_nil_r lg). apply (Hgos []); [|exact Hk].
        rewrite app_nil_r. unfold task_done. rewrite Hout. exact Logic.I.
      * destruct (slot_ok_send_ready _ _ (panicError p) Hslot Hco) as [x' Hx].
        rewrite Hx in H. injection H as <-.
        split; simpl; [reflexivity|rewrite ?length_insert; exact Ol| |].
        -- apply Hgos. unfold task_done. rewrite Hout.
           apply elem_of_app. right. apply list_elem_of_singleton. reflexivity.
        -- apply Hlog. intros e0 He0. apply list_elem_of_singleton in He0.
           subst e0. right. exists p. split; [exact Hout|reflexivity].
    + break_all H; (split; simpl; [reflexivity|rewrite ?length_insert; exact Ol| |exact Olog]);
        intros k g0 Hk;
        first [ apply lookup_insert_cases in Hk;
                destruct Hk as [[-> ->]|[_ Hk]];
                [exists t; split; [exact Ht|exact Hg]|exact (Og k g0 Hk)]
              | exact (Og k g0 Hk) ].
  - (* Closer *)
    unfold chan_close in H.
    destruct cl; try discriminate; break_all H; split; simpl; auto.
Qed.

Lemma sail_order_run (tasks : list Task) (ls : list Sail.label) (s s' : Sail.state) :
  sail_inv s -> sail_order tasks s -> forallb Sail.no_cancel ls = true ->
  Sail.run ls s = Some s' -> sail_order tasks s'.
Proof.
  revert s. induction ls as [|l ls IH]; intros s I O Hls H; simpl in H.
  - injection H as <-. exact O.
  - simpl in Hls. apply andb_true_iff in Hls. destruct Hls as [Hl Hls].
    destruct (Sail.step l s) as [s1|] eqn:Hs; [|discriminate].
    exact (IH s1 (sail_inv_step l s s1 I Hs)
              (sail_order_step tasks l s s1 I O Hl Hs) Hls H).
Qed.

(** X20. What [Sail] returns when the context is not cancelled.  It returns [nil]
    only when every task of the list was started and returned [nil];
    otherwise it returns the first error that was handed to [sendErr], which
    is the error that one of the tasks returned or the error made from the
    panic of one of the tasks. *)
Theorem sail_first_failure
        (tasks : list Task) (ls : list Sail.label) (s : Sail.state)
        (r : option error) :
  forallb Sail.no_cancel ls = true ->
  Sail.run ls (Sail.init None tasks) = Some s ->
  Sail.result s = Some r ->
  r = head (Sail.log s) /\
  match r with
  | Some e => exists t, t ∈ tasks /\ task_error t e
  | None => Sail.started s = List.length tasks /\
            forall t, t ∈ tasks -> t None = Return None
  end.
Proof.
  intros Hls H Hr.
  pose proof (sail_inv_run ls _ s (sail_inv_init None tasks) H) as I.
  pose proof (sail_more_run tasks ls _ s (sail_more_init None tasks) H) as M.
  pose proof (sail_order_run tasks ls _ s (sail_inv_init None tasks)
                (sail_order_init tasks) Hls H) as O.
  pose proof (so_ctx tasks s O) as Hc.
  unfold Sail.result in Hr.
  destruct (Sail.main s) as [| |r0] eqn:Hm; try discriminate. injection Hr as ->.
  destruct (si_result s I r Hm) as [(-> & Hl & Hw)|(Hn & [Hh|Hx])].
  - split; [rewrite Hl; reflexivity|].
    pose proof (sm_exact tasks s M Hc) as He. rewrite Hm in He. simpl in He.
    assert (Sail.started s = List.length tasks) as Hst by lia.
    split; [exact Hst|]. intros t Ht. unfold Task in *.
    apply list_elem_of_lookup in Ht. destruct Ht as [i Hi].
    pose proof (lookup_lt_Some _ _ _ Hi) as Hlt.
    assert (i < List.length (Sail.gos s)) as Hlt'
        by (unfold Sail.started, Task in *; lia).
    destruct (lookup_lt_is_Some_2 _ _ Hlt') as [g Hg].
    pose proof (sail_all_exited s I Hw i g Hg) as ->.
    destruct (so_gos tasks s O i _ Hg) as (t0 & Ht0 & Hd).
    unfold Task in *. assert (t0 = t) as -> by congruence.
    unfold task_done in Hd. rewrite Hl in Hd.
    destruct (t None) as [[e|]|p]; [inversion Hd|reflexivity|inversion Hd].
  - split; [exact Hh|]. destruct r as [e|]; [|congruence].
    apply (so_log tasks s O).
    destruct (Sail.log s) as [|e0 lg]; [discriminate Hh|].
    simpl in Hh. injection Hh as ->. apply list_elem_of_here.
  - rewrite Hc in Hx. congruence.
Qed.

(** [Sail(ctx, taskOK, taskFail, taskOK)] of [TestSail_Error], run to its
    end. *)
Lemma sail_first_failure_witness :
  let tasks := [taskOK; taskFail expectedErr; taskOK] in
  let ls := sail_failure_recorded ++
            [Sail.Go 0; Sail.Go 2; Sail.Go 0; Sail.Go 1; Sail.Go 2;
             Sail.Closer; Sail.Closer; Sail.SelectErr] in
  let s := sail_after ls (Sail.init None tasks) in
  forallb Sail.no_cancel ls = true /\
  Sail.run ls (Sail.init None tasks) = Some s /\
  Sail.result s = Some (Some expectedErr) /\
  Some expectedErr = head (Sail.log s) /\
  exists t, t ∈ tasks /\ task_error t expectedErr.
Proof.
  intros tasks ls s.
  assert (forallb Sail.no_cancel ls = true) as H0 by reflexivity.
  assert (Sail.run ls (Sail.init None tasks) = Some s) as H1
    by (vm_compute; reflexivity).
  assert (Sail.result s = Some (Some expectedErr)) as H2
    by (vm_compute; reflexivity).
  split; [exact H0|]. split; [exact H1|]. split; [exact H2|].
  exact (sail_first_failure tasks ls s (Some expectedErr) H0 H1 H2).
Defined.

(** ** [Weaver]: the errors that [Wait] can return *)

Lemma weaver_tasks_pool (P : Task -> Prop) (c : option error) (n : nat) :
  weaver_tasks P (Weaver.pool c n).
Proof.
  split; simpl.
  - intros j c0 t Hj. discriminate Hj.
  - intros t Ht. inversion Ht.
  - intros i p t Hi Hp. apply lookup_replicate in Hi. destruct Hi as [-> _].
    discriminate Hp.
Qed.

Lemma weaver_tasks_step (P : Task -> Prop) (l : Weaver.label) (s s' : Weaver.state) :
  weaver_tasks P s -> (forall t, l = Weaver.CallAdd t -> P t) ->
  Weaver.step l s = Some s' -> weaver_tasks P s'.
Proof.
  intros [Qc Qq Qw] Hl H.
  destruct s as [c w x q ic fe ws cs cr lg ps bg]. simpl in *.
  unfold Weaver.step in H. simpl in H. destruct cr; [discriminate|].
  destruct l as [e|i|i|i|t| |j].
  - (* Cancel *)
    break_all H. split; simpl; auto.
  - (* Pull *)
    unfold Weaver.worker_select in H. simpl in H.
    destruct (ws !! i) as [p|] eqn:Hi; [|discriminate].
    destruct p; try discriminate.
    destruct q as [qc qb qo]. unfold chan_recv in H. simpl in *.
    destruct qb as [|t qb].
    + destruct qo; [|discriminate]. injection H as <-.
      split; simpl; auto. quiet_other Qw.
    + injection H as <-.
      split; simpl; auto.
      * intros t0 Ht0. apply Qq. apply elem_of_cons. right. exact Ht0.
      * quiet_other Qw. apply Qq. apply elem_of_cons. left. reflexivity.
  - (* Quit *)
    unfold Weaver.worker_select in H. simpl in H.
    destruct (ws !! i) as [p|] eqn:Hi; [|discriminate].
    destruct p; try discriminate.
    break_all H. split; simpl; auto. quiet_other Qw.
  - (* Work *)
    unfold Weaver.worker, Weaver.execute, Weaver.finish in H. simpl in H.
    destruct (ws !! i) as [p|] eqn:Hi; [|discriminate].
    destruct p as [|t|t| |]; try discriminate.
    + pose proof (Qw i _ t Hi eq_refl) as Ht.
      break_all H; split; simpl; auto; quiet_other Qw; exact Ht.
    + break_all H; split; simpl; auto; quiet_other Qw.
    + break_all H; split; simpl; auto; quiet_other Qw.
  - (* CallAdd *)
    injection H as <-. split; simpl; auto.
    quiet_other Qc. exact (Hl t eq_refl).
  - (* CallWait *)
    injection H as <-. split; simpl; auto. quiet_other Qc.
  - (* Caller *)
    unfold Weaver.caller, Weaver.Add, Weaver.Wait in H. simpl in H.
    destruct (cs !! j) as [p|] eqn:Hj; [|discriminate].
    destruct q as [qc qb qo]. destruct x as [on [ec eb eo]].
    unfold chan_send, chan_recv, chan_close, Weaver.cancel in H. simpl in *.
    destruct p; try discriminate H;
      try (pose proof (Qc j _ t Hj eq_refl) as Ht);
      break_inner H; split; simpl; auto;
      try (quiet_other Qc; exact Ht);
      try (intros t0 Ht0; apply elem_of_app in Ht0; destruct Ht0 as [Ht0|Ht0];
           [exact (Qq t0 Ht0)|apply list_elem_of_singleton in Ht0; subst t0; exact Ht]).
Qed.

Lemma log_from_app (ts : list Task) (lg es : list error) :
  log_from ts lg -> log_from ts es -> log_from ts (lg ++ es).
Proof.
  intros H1 H2 e He. apply elem_of_app in He. destruct He as [He|He]; auto.
Qed.

Lemma weaver_log_step (ts : list Task) (l : Weaver.label) (s s' : Weaver.state) :
  weaver_inv s -> weaver_tasks (fun t => t ∈ ts) s ->
  log_from ts (Weaver.log s) ->
  Weaver.step l s = Some s' -> log_from ts (Weaver.log s').
Proof.
  intros I T L H.
  destruct l as [e|i|i|i|t| |j];
    try (assert (Weaver.log s' = Weaver.log s) as ->;
         [weaver_step_cases H; unfold Weaver.cancel;
          try destruct (Weaver.ctx s); reflexivity|exact L]).
  (* Work *)
  pose proof (wi_crashed s I) as Hcr. pose proof (wi_slot s I) as Hslot.
  unfold Weaver.step in H. rewrite Hcr in H. unfold Weaver.worker in H.
  destruct (Weaver.workers s !! i) as [p|] eqn:Hi; [|discriminate].
  destruct p as [|t|t| |]; try discriminate.
  - unfold Weaver.execute in H. break_all H; exact L.
  - (* the task comes to its end *)
    assert (closed (errChan (Weaver.slt s)) = false) as He.
    { destruct (closed (errChan (Weaver.slt s))) eqn:He; [|reflexivity].
      pose proof (weaver_live_zero s i _ I (wi_errclosed s I He) Hi) as Hp.
      discriminate Hp. }
    pose proof (wt_workers _ s T i _ t Hi eq_refl) as Ht.
    unfold Weaver.execute, Weaver.finish in H.
    destruct (t (Weaver.ctx s)) as [[e|]|p] eqn:Hout.
    + destruct (slot_ok_send_ready _ _ e Hslot He) as [x' Hx].
      rewrite Hx in H. injection H as <-. simpl.
      apply log_from_app; [exact L|]. intros e0 He0.
      apply list_elem_of_singleton in He0. subst e0.
      exists t. split; [exact Ht|]. exists (Weaver.ctx s). left. exact Hout.
    + injection H as <-. exact L.
    + destruct (slot_ok_send_ready _ _ (panicError p) Hslot He) as [x' Hx].
      rewrite Hx in H. injection H as <-. simpl.
      apply log_from_app; [exact L|]. intros e0 He0.
      apply list_elem_of_singleton in He0. subst e0.
      exists t. split; [exact Ht|]. exists (Weaver.ctx s). right.
      exists p. split; [exact Hout|reflexivity].
  - break_all H; exact L.
Qed.

Lemma weaver_log_run (ls : list Weaver.label) (s s' : Weaver.state) (ts : list Task) :
  weaver_inv s -> weaver_tasks (fun t => t ∈ ts) s ->
  log_from ts (Weaver.log s) -> (forall t, t ∈ submitted ls -> t ∈ ts) ->
  Weaver.run ls s = Some s' -> log_from ts (Weaver.log s').
Proof.
  revert s. induction ls as [|l ls IH]; intros s I T L Hsub H; simpl in H.
  - injection H as <-. exact L.
  - destruct (Weaver.step l s) as [s1|] eqn:Hs; [|discriminate].
    apply (IH s1 (weaver_inv_step l s s1 I Hs)); [| | |exact H].
    + apply (weaver_tasks_step _ l s s1 T); [|exact Hs].
      intros t ->. apply Hsub. simpl. apply elem_of_cons. left. reflexivity.
    + exact (weaver_log_step ts l s s1 I T L Hs).
    + intros t Ht. apply Hsub.
      destruct l; simpl; try exact Ht. apply elem_of_cons. right. exact Ht.
Qed.

(** X21. [Wait] returns [nil] or the error of a task: an error that one of the
    submitted tasks returned, or the error made from the panic of one of
    them.  In particular the cancellation of the context does not by itself
    make [Wait] return an error. *)
Theorem weaver_wait_returns_task_error
        (c : option error) (n : nat) (ls : list Weaver.label) (s : Weaver.state)
        (j : nat) (b : bool) (e : error) :
  Weaver.run ls (Weaver.pool c n) = Some s ->
  Weaver.calls s !! j = Some (Weaver.WaitReturn b (Some e)) ->
  exists t, t ∈ submitted ls /\ task_gives t e.
Proof.
  intros H Hj.
  pose proof (weaver_inv_run ls _ s (weaver_inv_pool c n) H) as I.
  assert (log_from (submitted ls) (Weaver.log s)) as L.
  { apply (weaver_log_run ls (Weaver.pool c n) s (submitted ls));
      [exact (weaver_inv_pool c n)|apply weaver_tasks_pool| |auto|exact H].
    intros e0 He0. inversion He0. }
  destruct (wi_values s I j _ (Some e) Hj eq_refl) as [Hr|Hr]; [discriminate Hr|].
  apply L. destruct (Weaver.log s) as [|e0 lg]; [discriminate Hr|].
  simpl in Hr. injection Hr as ->. apply list_elem_of_here.
Qed.

(** The two calls of [w.Wait()] of [TestWeaver_Wait_Idempotent]. *)
Lemma weaver_wait_returns_task_error_witness :
  let s := weaver_after weaver_wait_twice (Weaver.pool None 1) in
  Weaver.run weaver_wait_twice (Weaver.pool None 1) = Some s /\
  Weaver.calls s !! 1 = Some (Weaver.WaitReturn true (Some expectedErr)) /\
  exists t, t ∈ submitted weaver_wait_twice /\ task_gives t expectedErr.
Proof.
  intros s.
  assert (Weaver.run weaver_wait_twice (Weaver.pool None 1) = Some s) as H1
    by (vm_compute; reflexivity).
  assert (Weaver.calls s !! 1 = Some (Weaver.WaitReturn true (Some expectedErr)))
    as H2 by (vm_compute; reflexivity).
  split; [exact H1|]. split; [exact H2|].
  exact (weaver_wait_returns_task_error None 1 weaver_wait_twice s 1 true
           expectedErr H1 H2).
Defined.

(** ** [Weaver]: after the cancellation of the context *)





Lemma count_winner_le_wait (cs : list Weaver.call_pc) :
  count winner cs <= count is_wait cs.
Proof.
  induction cs as [|c cs IH]; simpl; [lia|].
  destruct c as [| | | | | | | | | | | |[|] r]; simpl; lia.
Qed.

Lemma weaver_stuck_step (l : Weaver.label) (s s' : Weaver.state)
      (j : nat) (t : Task) :
  weaver_stuck s -> Weaver.calls s !! j = Some (Weaver.AddSend t) ->
  no_call_wait l = true -> Weaver.step l s = Some s' ->
  weaver_stuck s' /\ Weaver.calls s' !! j = Some (Weaver.AddSend t).
Proof.
  intros [Kw Ko Kf Kn] Hj Hl H.
  destruct s as [c w x q ic fe ws cs cr lg ps bg]. simpl in *.
  unfold Weaver.step in H. simpl in H. destruct cr; [discriminate|].
  destruct l as [e|i|i|i|t0| |k]; [| | | | |discriminate Hl|].
  - (* Cancel *)
    break_all H. split; [split|]; simpl; auto.
  - (* Pull *)
    unfold Weaver.worker_select in H. simpl in H.
    destruct (ws !! i) as [p|] eqn:Hi; [|discriminate].
    rewrite (Kw i p Hi) in H. discriminate H.
  - (* Quit *)
    unfold Weaver.worker_select in H. simpl in H.
    destruct (ws !! i) as [p|] eqn:Hi; [|discriminate].
    rewrite (Kw i p Hi) in H. discriminate H.
  - (* Work *)
    unfold Weaver.worker in H. simpl in H.
    destruct (ws !! i) as [p|] eqn:Hi; [|discriminate].
    rewrite (Kw i p Hi) in H. discriminate H.
  - (* CallAdd *)
    injection H as <-. split; [split|]; simpl; auto.
    + rewrite count_app. simpl. lia.
    + apply lookup_app_l_Some. exact Hj.
  - (* Caller *)
    unfold Weaver.caller in H. simpl in H.
    destruct (cs !! k) as [p|] eqn:Hk; [|discriminate].
    pose proof (count_zero is_wait cs k p Kn Hk) as Hp.
    pose proof (count_insert is_wait cs k p) as Hcnt.
    destruct p as [t1|t1|r| | | | | | | | | |]; try discriminate Hp.
    + (* AddLoad *)
      unfold Weaver.Add in H. simpl in H.
      assert (k <> j) as Hne by (intros ->; congruence).
      destruct ic; injection H as <-;
        match goal with
        | |- context [Weaver.set_call _ ?new _] =>
            specialize (Hcnt new Hk); simpl in Hcnt
        end;
        (split; [split|]; simpl; auto; [lia|]);
        rewrite list_lookup_insert_ne by exact Hne; exact Hj.
    + (* AddSend: the send blocks *)
      unfold Weaver.Add, chan_send in H. simpl in H.
      rewrite Ko, Kf, Nat.ltb_irrefl in H. discriminate H.
    + discriminate H.
Qed.

Lemma weaver_stuck_run (ls : list Weaver.label) (s s' : Weaver.state)
      (j : nat) (t : Task) :
  weaver_stuck s -> Weaver.calls s !! j = Some (Weaver.AddSend t) ->
  forallb no_call_wait ls = true -> Weaver.run ls s = Some s' ->
  weaver_stuck s' /\ Weaver.calls s' !! j = Some (Weaver.AddSend t).
Proof.
  revert s. induction ls as [|l ls IH]; intros s K Hj Hls H; simpl in H.
  - injection H as <-. split; assumption.
  - simpl in Hls. apply andb_true_iff in Hls. destruct Hls as [Hl Hls].
    destruct (Weaver.step l s) as [s1|] eqn:Hs; [|discriminate].
    destruct (weaver_stuck_step l s s1 j t K Hj Hl Hs) as [K1 Hj1].
    exact (IH s1 K1 Hj1 Hls H).
Qed.

(** X23. [Add] can block for good on a pool that is not closed.  When every
    worker has left (which the cancellation of the context brings about),
    the queue is full and [Wait] has not been called, a call of [Add] that
    stands at its send stays there whatever happens, until [Wait] is
    called. *)
Theorem weaver_add_blocks_without_workers
        (c : option error) (n : nat) (ls : list Weaver.label) (s : Weaver.state)
        (j : nat) (t : Task) (ls' : list Weaver.label) (s' : Weaver.state) :
  Weaver.run ls (Weaver.pool c n) = Some s ->
  (forall i p, Weaver.workers s !! i = Some p -> p = Weaver.WExit) ->
  List.length (buf (Weaver.taskQueue s)) = n ->
  count is_wait (Weaver.calls s) = 0 ->
  Weaver.calls s !! j = Some (Weaver.AddSend t) ->
  forallb no_call_wait ls' = true ->
  Weaver.run ls' s = Some s' ->
  Weaver.calls s' !! j = Some (Weaver.AddSend t) /\
  Weaver.isClosed s' = false.
Proof.
  intros H Hw Hfull Hnw Hj Hls' Hrun.
  pose proof (weaver_inv_run ls _ s (weaver_inv_pool c n) H) as I.
  pose proof (weaver_more_run n ls _ s (weaver_more_pool c n) H) as M.
  assert (forall s0, weaver_inv s0 -> count is_wait (Weaver.calls s0) = 0 ->
            Weaver.isClosed s0 = false) as Hopen.
  { intros s0 I0 H0. pose proof (wi_win s0 I0) as Hwin.
    pose proof (count_winner_le_wait (Weaver.calls s0)) as Hle.
    destruct (Weaver.isClosed s0); [simpl in Hwin; lia|reflexivity]. }
  assert (weaver_stuck s) as K.
  { split; [exact Hw| | |exact Hnw].
    - exact (proj1 (wi_open s I (Hopen s I Hnw))).
    - rewrite (wm_cap n s M). exact Hfull. }
  destruct (weaver_stuck_run ls' s s' j t K Hj Hls' Hrun) as [K' Hj'].
  split; [exact Hj'|].
  exact (Hopen s' (weaver_inv_run ls' s s' I Hrun) (wk_nowait s' K')).
Qed.

(** A pool of one worker that was cancelled with a full queue: the second
    call of [w.Add] does not return, also when a third call is made. *)
Lemma weaver_add_blocks_without_workers_witness :
  let s := weaver_after weaver_abandoned (Weaver.pool None 1) in
  let ls' := [Weaver.CallAdd taskOK; Weaver.Caller 2] in
  let s' := weaver_after ls' s in
  Weaver.run weaver_abandoned (Weaver.pool None 1) = Some s /\
  (forall i p, Weaver.workers s !! i = Some p -> p = Weaver.WExit) /\
  List.length (buf (Weaver.taskQueue s)) = 1 /\
  count is_wait (Weaver.calls s) = 0 /\
  Weaver.calls s !! 1 = Some (Weaver.AddSend taskOK) /\
  forallb no_call_wait ls' = true /\
  Weaver.run ls' s = Some s' /\
  Weaver.calls s' !! 1 = Some (Weaver.AddSend taskOK) /\
  Weaver.isClosed s' = false.
Proof.
  intros s ls' s'.
  assert (Weaver.run weaver_abandoned (Weaver.pool None 1) = Some s) as H1
    by (vm_compute; reflexivity).
  assert (forall i p, Weaver.workers s !! i = Some p -> p = Weaver.WExit) as H2.
  { intros i p Hi. destruct i as [|i]; vm_compute in Hi; [|discriminate Hi].
    injection Hi as <-. reflexivity. }
  assert (List.length (buf (Weaver.taskQueue s)) = 1) as H3
    by (vm_compute; reflexivity).
  assert (count is_wait (Weaver.calls s) = 0) as H4 by (vm_compute; reflexivity).
  assert (Weaver.calls s !! 1 = Some (Weaver.AddSend taskOK)) as H5
    by (vm_compute; reflexivity).
  assert (forallb no_call_wait ls' = true) as H6 by reflexivity.
  assert (Weaver.run ls' s = Some s') as H7 by (vm_compute; reflexivity).
  split; [exact H1|]. split; [exact H2|]. split; [exact H3|]. split; [exact H4|].
  split; [exact H5|]. split; [exact H6|]. split; [exact H7|].
  exact (weaver_add_blocks_without_workers None 1 weaver_abandoned s 1 taskOK
           ls' s' H1 H2 H3 H4 H5 H6 H7).
Defined.
